(** * R+ : lexer, expression parser, bytecode compiler and register VM

    A shallow embedding of the R+ tool chain and the properties of it that
    the specification states.  Every definition follows the C++ function of
    the same name; the file is organised as the sources are:

    - [VM]        the register machine           (vm.cpp)
    - [Compiler]  the AST to bytecode lowering   (compiler.cpp)
    - [Lexer]     the scanner                    (lexer.cpp)
    - [Parser]    the expression parser          (parser.cpp)

    Definitions come first, the theorems about them after. *)

From Stdlib Require Import ZArith Lia Ascii String.
From stdpp Require Import base tactics option list strings gmap pretty.

Local Open Scope Z_scope.

(* ===================================================================== *)
(** * Machine integers *)
(* ===================================================================== *)

(** An unsigned [w]-bit integer is a [Z] reduced modulo [2^w]. *)
Definition wrap (w : Z) (x : Z) : Z := x mod 2 ^ w.

(** [uint64_t] and, on the LP64 targets the project builds for, [size_t]. *)
Definition u64 (x : Z) : Z := wrap 64 x.

(** [static_cast<int64_t>] of a [uint64_t]: two's complement. *)
Definition to_int64 (x : Z) : Z :=
  if x <? 2 ^ 63 then x else x - 2 ^ 64.

(** [static_cast<uint32_t>] of a [uint64_t]. *)
Definition u32 (x : Z) : Z := wrap 32 x.

(* ===================================================================== *)
(** * The register VM (vm.cpp) *)
(* ===================================================================== *)

Module VM.

(** Modelled from the spec: the header of the register VM (class [VM],
    [Instruction], [OpCode], [NUM_REGISTERS]) is not among the sources.
    "A 16-slot register file"; the opcodes are those [execute_instruction]
    dispatches on, [UNKNOWN] standing for any other value of the enum (the
    [default:] branch); the instruction fields are the ones the handlers
    read. *)
Definition NUM_REGISTERS : nat := 16.

Inductive OpCode : Set :=
| ADD | SUB | MUL | DIV | MOD
| AND | OR | XOR | SHL | SHR
| LOAD | STORE | LOADIMM
| PUSH | POP
| JMP | JZ | JNZ | JLT | JLE | JGT | JGE | CALL | RET
| CMP
| NOP | HALT
| UNKNOWN.

#[global] Instance OpCode_eq_dec : EqDecision OpCode.
Proof. solve_decision. Defined.

Record Instruction : Set := mkInstr {
  opcode : OpCode;
  dest : nat;
  operand1 : nat;
  operand2 : nat;
  immediate : Z
}.

(** The fields of [class VM] that the instruction handlers touch.  Memory
    regions are byte lists; [registers] has [NUM_REGISTERS] entries, each a
    [uint64_t]. *)
Record VM : Type := mkVM {
  heap : list Z;
  stack : list Z;
  heap_size : Z;
  stack_size : Z;
  registers : list Z;
  call_stack : list Z;
  pc : Z;
  sp : Z;
  fp : Z;
  halt_flag : bool
}.

(** [VM::VM(size_t heap_size, size_t stack_size)]: zeroed memory and
    registers, an empty call stack. *)
Definition init (heap_size stack_size : Z) : VM :=
  mkVM (replicate (Z.to_nat heap_size) 0) (replicate (Z.to_nat stack_size) 0)
       heap_size stack_size (replicate NUM_REGISTERS 0) [] 0 0 0 false.

Definition set_heap (h : list Z) (vm : VM) : VM :=
  mkVM h (stack vm) (heap_size vm) (stack_size vm) (registers vm)
       (call_stack vm) (pc vm) (sp vm) (fp vm) (halt_flag vm).
Definition set_stack (s : list Z) (vm : VM) : VM :=
  mkVM (heap vm) s (heap_size vm) (stack_size vm) (registers vm)
       (call_stack vm) (pc vm) (sp vm) (fp vm) (halt_flag vm).
Definition set_registers (r : list Z) (vm : VM) : VM :=
  mkVM (heap vm) (stack vm) (heap_size vm) (stack_size vm) r
       (call_stack vm) (pc vm) (sp vm) (fp vm) (halt_flag vm).
Definition set_call_stack (c : list Z) (vm : VM) : VM :=
  mkVM (heap vm) (stack vm) (heap_size vm) (stack_size vm) (registers vm)
       c (pc vm) (sp vm) (fp vm) (halt_flag vm).
Definition set_pc (p : Z) (vm : VM) : VM :=
  mkVM (heap vm) (stack vm) (heap_size vm) (stack_size vm) (registers vm)
       (call_stack vm) p (sp vm) (fp vm) (halt_flag vm).
Definition set_sp (p : Z) (vm : VM) : VM :=
  mkVM (heap vm) (stack vm) (heap_size vm) (stack_size vm) (registers vm)
       (call_stack vm) (pc vm) p (fp vm) (halt_flag vm).
Definition set_halt_flag (b : bool) (vm : VM) : VM :=
  mkVM (heap vm) (stack vm) (heap_size vm) (stack_size vm) (registers vm)
       (call_stack vm) (pc vm) (sp vm) (fp vm) b.

(** ** Outcomes

    A member function either returns (with the machine as it left it),
    throws [std::runtime_error(msg)] (the machine as it was when the
    exception left the function), or runs into behaviour C++ leaves
    undefined (an array index or a shift count out of range). *)
Inductive outcome (A : Type) : Type :=
| Done (a : A) (vm : VM)
| Throw (msg : string) (vm : VM)
| Undefined.
Arguments Done {A} a vm.
Arguments Throw {A} msg vm.
Arguments Undefined {A}.

Definition M (A : Type) : Type := VM -> outcome A.

Definition ret {A} (a : A) : M A := fun vm => Done a vm.
Definition bind {A B} (m : M A) (k : A -> M B) : M B :=
  fun vm =>
    match m vm with
    | Done a vm' => k a vm'
    | Throw msg vm' => Throw msg vm'
    | Undefined => Undefined
    end.
Definition throw {A} (msg : string) : M A := fun vm => Throw msg vm.
Definition undefined {A} : M A := fun _ => Undefined.
Definition gets {A} (f : VM -> A) : M A := fun vm => Done (f vm) vm.
Definition modify (f : VM -> VM) : M unit := fun vm => Done tt (f vm).

Declare Scope vm_scope.
Delimit Scope vm_scope with vm.
Notation "x <- m ;; k" := (bind m (fun x => k))
  (at level 100, m at level 99, right associativity) : vm_scope.
Notation "m ;;; k" := (bind m (fun _ => k))
  (at level 100, right associativity) : vm_scope.
Local Open Scope vm_scope.

(** ** Memory *)

(** [std::memcpy(&value, mem + addr, n)] on a little-endian target, into a
    zero-initialised [uint64_t]: [None] when a byte lies outside [mem]. *)
Fixpoint load_bytes (mem : list Z) (addr : nat) (n : nat) : option Z :=
  match n with
  | O => Some 0
  | S n' =>
      match mem !! addr, load_bytes mem (S addr) n' with
      | Some b, Some v => Some (Z.lor b (Z.shiftl v 8))
      | _, _ => None
      end
  end.

(** [std::memcpy(mem + addr, &value, n)]: the [n] low bytes of [value]. *)
Fixpoint store_bytes (mem : list Z) (addr : nat) (value : Z) (n : nat)
  : option (list Z) :=
  match n with
  | O => Some mem
  | S n' =>
      if decide (addr < length mem)%nat
      then store_bytes (<[addr := Z.land value 255]> mem) (S addr)
                       (Z.shiftr value 8) n'
      else None
  end.

(** [uint64_t VM::read_memory(uint32_t addr, size_t size)] *)
Definition read_memory (addr size : Z) : M Z :=
  hs <- gets heap_size ;;
  if u64 (addr + size) >? hs then throw "Memory read out of bounds"
  else
    h <- gets heap ;;
    match load_bytes h (Z.to_nat addr) (Z.to_nat (Z.min size 8)) with
    | Some v => ret v
    | None => undefined
    end.

(** [void VM::write_memory(uint32_t addr, uint64_t value, size_t size)] *)
Definition write_memory (addr value size : Z) : M unit :=
  hs <- gets heap_size ;;
  if u64 (addr + size) >? hs then throw "Memory write out of bounds"
  else
    h <- gets heap ;;
    match store_bytes h (Z.to_nat addr) value (Z.to_nat (Z.min size 8)) with
    | Some h' => modify (set_heap h')
    | None => undefined
    end.

(** ** The byte stack *)

(** [void VM::push(uint64_t value, size_t size)] *)
Definition push (value size : Z) : M unit :=
  s <- gets sp ;;
  ss <- gets stack_size ;;
  if u64 (s + size) >? ss then throw "Stack overflow"
  else
    mem <- gets stack ;;
    match store_bytes mem (Z.to_nat s) value (Z.to_nat (Z.min size 8)) with
    | Some mem' =>
        modify (set_stack mem') ;;;
        modify (set_sp (u64 (s + size)))
    | None => undefined
    end.

(** [uint64_t VM::pop(size_t size)] *)
Definition pop (size : Z) : M Z :=
  s <- gets sp ;;
  if s <? size then throw "Stack underflow"
  else
    modify (set_sp (u64 (s - size))) ;;;
    s' <- gets sp ;;
    mem <- gets stack ;;
    match load_bytes mem (Z.to_nat s') (Z.to_nat (Z.min size 8)) with
    | Some v => ret v
    | None => undefined
    end.

(** ** Registers: [registers_[i]], unchecked *)

Definition get_reg (i : nat) : M Z :=
  rs <- gets registers ;;
  match rs !! i with
  | Some v => ret v
  | None => undefined
  end.

Definition set_reg (i : nat) (v : Z) : M unit :=
  rs <- gets registers ;;
  if decide (i < length rs)%nat
  then modify (set_registers (<[i := v]> rs))
  else undefined.

(** ** Instruction handlers *)

Section Exec.

(** Modelled from the spec: the declarations of [pc_], of the entries of
    [call_stack_] and of [Instruction::immediate] are in the missing header.
    They are taken to be one unsigned integer type of [pc_bits] bits, in
    which [instr.immediate - 1] and [pc_++] are evaluated. *)
Variable pc_bits : Z.

Definition execute_add (instr : Instruction) : M unit :=
  a <- get_reg (operand1 instr) ;;
  b <- get_reg (operand2 instr) ;;
  set_reg (dest instr) (u64 (a + b)).

Definition execute_sub (instr : Instruction) : M unit :=
  a <- get_reg (operand1 instr) ;;
  b <- get_reg (operand2 instr) ;;
  set_reg (dest instr) (u64 (a - b)).

Definition execute_mul (instr : Instruction) : M unit :=
  a <- get_reg (operand1 instr) ;;
  b <- get_reg (operand2 instr) ;;
  set_reg (dest instr) (u64 (a * b)).

Definition execute_div (instr : Instruction) : M unit :=
  a <- get_reg (operand1 instr) ;;
  b <- get_reg (operand2 instr) ;;
  if b =? 0 then throw "Division by zero"
  else set_reg (dest instr) (a / b).

Definition execute_mod (instr : Instruction) : M unit :=
  a <- get_reg (operand1 instr) ;;
  b <- get_reg (operand2 instr) ;;
  if b =? 0 then throw "Modulo by zero"
  else set_reg (dest instr) (a mod b).

Definition execute_and (instr : Instruction) : M unit :=
  a <- get_reg (operand1 instr) ;;
  b <- get_reg (operand2 instr) ;;
  set_reg (dest instr) (Z.land a b).

Definition execute_or (instr : Instruction) : M unit :=
  a <- get_reg (operand1 instr) ;;
  b <- get_reg (operand2 instr) ;;
  set_reg (dest instr) (Z.lor a b).

Definition execute_xor (instr : Instruction) : M unit :=
  a <- get_reg (operand1 instr) ;;
  b <- get_reg (operand2 instr) ;;
  set_reg (dest instr) (Z.lxor a b).

(** A shift count of 64 or more is undefined for a 64-bit operand. *)
Definition execute_shl (instr : Instruction) : M unit :=
  value <- get_reg (operand1 instr) ;;
  shift <- get_reg (operand2 instr) ;;
  if shift <? 64 then set_reg (dest instr) (u64 (Z.shiftl value shift))
  else undefined.

Definition execute_shr (instr : Instruction) : M unit :=
  value <- get_reg (operand1 instr) ;;
  shift <- get_reg (operand2 instr) ;;
  if shift <? 64 then set_reg (dest instr) (Z.shiftr value shift)
  else undefined.

Definition execute_load (instr : Instruction) : M unit :=
  r <- get_reg (operand1 instr) ;;
  value <- read_memory (u32 r) 8 ;;
  set_reg (dest instr) value.

Definition execute_store (instr : Instruction) : M unit :=
  r <- get_reg (operand1 instr) ;;
  value <- get_reg (operand2 instr) ;;
  write_memory (u32 r) value 8.

Definition execute_loadimm (instr : Instruction) : M unit :=
  set_reg (dest instr) (u64 (immediate instr)).

Definition execute_push (instr : Instruction) : M unit :=
  value <- get_reg (operand1 instr) ;;
  push value 8.

Definition execute_pop (instr : Instruction) : M unit :=
  value <- pop 8 ;;
  set_reg (dest instr) value.

(** Control flow.  [pc_ = instr.immediate - 1;  // -1 because pc_ will be
    incremented] *)
Definition execute_jmp (instr : Instruction) : M unit :=
  modify (set_pc (wrap pc_bits (immediate instr - 1))).

Definition execute_jz (instr : Instruction) : M unit :=
  r <- get_reg (operand1 instr) ;;
  if r =? 0 then modify (set_pc (wrap pc_bits (immediate instr - 1)))
  else ret tt.

Definition execute_jnz (instr : Instruction) : M unit :=
  r <- get_reg (operand1 instr) ;;
  if negb (r =? 0) then modify (set_pc (wrap pc_bits (immediate instr - 1)))
  else ret tt.

Definition execute_jlt (instr : Instruction) : M unit :=
  r1 <- get_reg (operand1 instr) ;;
  r2 <- get_reg (operand2 instr) ;;
  let a := to_int64 r1 in
  let b := to_int64 r2 in
  if a <? b then modify (set_pc (wrap pc_bits (immediate instr - 1)))
  else ret tt.

Definition execute_jle (instr : Instruction) : M unit :=
  r1 <- get_reg (operand1 instr) ;;
  r2 <- get_reg (operand2 instr) ;;
  let a := to_int64 r1 in
  let b := to_int64 r2 in
  if a <=? b then modify (set_pc (wrap pc_bits (immediate instr - 1)))
  else ret tt.

Definition execute_jgt (instr : Instruction) : M unit :=
  r1 <- get_reg (operand1 instr) ;;
  r2 <- get_reg (operand2 instr) ;;
  let a := to_int64 r1 in
  let b := to_int64 r2 in
  if a >? b then modify (set_pc (wrap pc_bits (immediate instr - 1)))
  else ret tt.

Definition execute_jge (instr : Instruction) : M unit :=
  r1 <- get_reg (operand1 instr) ;;
  r2 <- get_reg (operand2 instr) ;;
  let a := to_int64 r1 in
  let b := to_int64 r2 in
  if a >=? b then modify (set_pc (wrap pc_bits (immediate instr - 1)))
  else ret tt.

Definition execute_call (instr : Instruction) : M unit :=
  p <- gets pc ;;
  cs <- gets call_stack ;;
  modify (set_call_stack (cs ++ [p])) ;;;
  modify (set_pc (wrap pc_bits (immediate instr - 1))).

Definition execute_ret (instr : Instruction) : M unit :=
  cs <- gets call_stack ;;
  match last cs with
  | None => throw "Return from empty call stack"
  | Some p =>
      modify (set_pc p) ;;;
      modify (set_call_stack (removelast cs))
  end.

Definition execute_cmp (instr : Instruction) : M unit :=
  r1 <- get_reg (operand1 instr) ;;
  r2 <- get_reg (operand2 instr) ;;
  let a := to_int64 r1 in
  let b := to_int64 r2 in
  if a =? b then set_reg 15 0
  else if a <? b then set_reg 15 1
  else set_reg 15 2.

(** The [switch] of [VM::execute_instruction]. *)
Definition dispatch (instr : Instruction) : M unit :=
  match opcode instr with
  | ADD => execute_add instr
  | SUB => execute_sub instr
  | MUL => execute_mul instr
  | DIV => execute_div instr
  | MOD => execute_mod instr
  | AND => execute_and instr
  | OR => execute_or instr
  | XOR => execute_xor instr
  | SHL => execute_shl instr
  | SHR => execute_shr instr
  | LOAD => execute_load instr
  | STORE => execute_store instr
  | LOADIMM => execute_loadimm instr
  | PUSH => execute_push instr
  | POP => execute_pop instr
  | JMP => execute_jmp instr
  | JZ => execute_jz instr
  | JNZ => execute_jnz instr
  | JLT => execute_jlt instr
  | JLE => execute_jle instr
  | JGT => execute_jgt instr
  | JGE => execute_jge instr
  | CALL => execute_call instr
  | RET => execute_ret instr
  | CMP => execute_cmp instr
  | NOP => ret tt
  | HALT => modify (set_halt_flag true)
  | UNKNOWN => throw "Unknown opcode"
  end.

(** [void VM::execute_instruction(const Instruction& instr)]: the [switch]
    on the opcode, then [pc_++]. *)
Definition execute_instruction (instr : Instruction) : M unit :=
  dispatch instr ;;;
  p <- gets pc ;;
  modify (set_pc (wrap pc_bits (p + 1))).

(** The instruction the loop of [VM::run] executes next:
    [while (!halt_flag_ && pc_ < program_.size())] then [program_[pc_]]. *)
Definition fetch (program : list Instruction) (vm : VM) : option Instruction :=
  if halt_flag vm then None
  else if pc vm <? Z.of_nat (length program) then program !! Z.to_nat (pc vm)
  else None.

(** The loop of [VM::run]; the [catch] logs and rethrows.  [None]: the
    program is still running when the fuel is spent. *)
Fixpoint run_loop (fuel : nat) (program : list Instruction) (vm : VM)
  : option (outcome unit) :=
  match fetch program vm with
  | None => Some (Done tt vm)
  | Some instr =>
      match fuel with
      | O => None
      | S fuel' =>
          match execute_instruction instr vm with
          | Done _ vm' => run_loop fuel' program vm'
          | Throw msg vm' => Some (Throw msg vm')
          | Undefined => Some Undefined
          end
      end
  end.

(** [void VM::run(const std::vector<Instruction>& program)] *)
Definition run (fuel : nat) (program : list Instruction) (vm : VM)
  : option (outcome unit) :=
  run_loop fuel program (set_halt_flag false (set_pc 0 vm)).

End Exec.

(** The condition under which a jump instruction takes its branch, as its
    handler tests it ([JMP] and [CALL] always do). *)
Definition reg (vm : VM) (i : nat) : Z := default 0 (registers vm !! i).

Definition is_jump (op : OpCode) : bool :=
  match op with
  | JMP | JZ | JNZ | JLT | JLE | JGT | JGE | CALL => true
  | _ => false
  end.

Definition branch_taken (instr : Instruction) (vm : VM) : bool :=
  let r1 := reg vm (operand1 instr) in
  let r2 := reg vm (operand2 instr) in
  match opcode instr with
  | JMP | CALL => true
  | JZ => r1 =? 0
  | JNZ => negb (r1 =? 0)
  | JLT => to_int64 r1 <? to_int64 r2
  | JLE => to_int64 r1 <=? to_int64 r2
  | JGT => to_int64 r1 >? to_int64 r2
  | JGE => to_int64 r1 >=? to_int64 r2
  | _ => false
  end.

(** The registers a jump handler reads exist. *)
Definition jump_operands_valid (instr : Instruction) (vm : VM) : Prop :=
  match opcode instr with
  | JZ | JNZ => (operand1 instr < length (registers vm))%nat
  | JLT | JLE | JGT | JGE =>
      (operand1 instr < length (registers vm))%nat /\
      (operand2 instr < length (registers vm))%nat
  | _ => True
  end.

(** The operand registers an instruction reads or writes exist. *)
Definition operands_valid (instr : Instruction) (vm : VM) : Prop :=
  (operand1 instr < length (registers vm))%nat /\
  (operand2 instr < length (registers vm))%nat /\
  (dest instr < length (registers vm))%nat.

(** ** The rest of the machine's interface *)

(** [uint64_t VM::peek_stack(size_t offset, size_t size)].  The sum
    [offset + size] of the check and the index [sp_ - offset - size] of the
    copy are computed on [size_t], modulo [2^64]. *)
Definition peek_stack (offset size : Z) : M Z :=
  s <- gets sp ;;
  if s <? u64 (offset + size) then throw "Stack read out of bounds"
  else
    mem <- gets stack ;;
    match load_bytes mem (Z.to_nat (u64 (s - offset - size)))
            (Z.to_nat (Z.min size 8)) with
    | Some v => ret v
    | None => undefined
    end.

(** [uint64_t VM::read_register(uint8_t reg)] *)
Definition read_register (r : nat) : M Z :=
  if (NUM_REGISTERS <=? r)%nat then throw "Invalid register index"
  else get_reg r.

(** [void VM::write_register(uint8_t reg, uint64_t value)] *)
Definition write_register (r : nat) (value : Z) : M unit :=
  if (NUM_REGISTERS <=? r)%nat then throw "Invalid register index"
  else set_reg r value.




(** [struct VMState], declared in the missing header: the fields that
    [get_state] fills and [set_state] reads. *)
Record VMState : Type := mkVMState {
  state_pc : Z;
  state_sp : Z;
  state_fp : Z;
  state_halted : bool;
  state_registers : list Z
}.

(** [VMState VM::get_state() const] *)
Definition get_state (vm : VM) : VMState :=
  mkVMState (pc vm) (sp vm) (fp vm) (halt_flag vm) (registers vm).

(** [void VM::set_state(const VMState& state)] *)
Definition set_state (s : VMState) (vm : VM) : VM :=
  mkVM (heap vm) (stack vm) (heap_size vm) (stack_size vm)
       (state_registers s) (call_stack vm)
       (state_pc s) (state_sp s) (state_fp s) (state_halted s).

(** A byte, and a machine whose buffers have the sizes it was built with
    and whose cells hold bytes and 64-bit words. *)
Definition is_byte (b : Z) : Prop := 0 <= b < 256.
Definition is_u64 (x : Z) : Prop := 0 <= x < 2 ^ 64.

Record well_formed (vm : VM) : Prop := mk_well_formed {
  wf_registers_length : length (registers vm) = NUM_REGISTERS;
  wf_registers : Forall is_u64 (registers vm);
  wf_heap_length : heap_size vm = Z.of_nat (length (heap vm));
  wf_stack_length : stack_size vm = Z.of_nat (length (stack vm));
  wf_heap : Forall is_byte (heap vm);
  wf_stack : Forall is_byte (stack vm);
  wf_heap_size : heap_size vm < 2 ^ 64;
  wf_stack_size : stack_size vm < 2 ^ 64;
  wf_sp : 0 <= sp vm <= stack_size vm
}.

(** The message each opcode can throw with. *)
Definition throws_with (op : OpCode) (msg : string) : Prop :=
  match op with
  | DIV => msg = "Division by zero"
  | MOD => msg = "Modulo by zero"
  | LOAD => msg = "Memory read out of bounds"
  | STORE => msg = "Memory write out of bounds"
  | PUSH => msg = "Stack overflow"
  | POP => msg = "Stack underflow"
  | RET => msg = "Return from empty call stack"
  | UNKNOWN => msg = "Unknown opcode"
  | _ => False
  end.

End VM.

(* ===================================================================== *)
(** * The bytecode compiler (compiler.cpp) *)
(* ===================================================================== *)

Module Compiler.

Definition UINT32_MAX : Z := 2 ^ 32 - 1.

(** The opcodes the compiler emits (those [opcodeToString] names). *)
Inductive OpCode : Set :=
| LoadConst | LoadVar | StoreVar
| Add | Sub | Mul | Div | Mod
| Equal | NotEqual | Less | LessEqual | Greater | GreaterEqual
| And | Or | Neg | Not
| Jump | JumpIfFalse
| Call | Return
| NewArray | IndexLoad | IndexStore.

#[global] Instance OpCode_eq_dec : EqDecision OpCode.
Proof. solve_decision. Defined.

(** [Instruction instr(opcode); instr.addOperand(operand)...] *)
Record Instruction : Set := mkInstr {
  opcode : OpCode;
  operands : list Z
}.

Section Lowering.

(** Modelled from the spec: the declarations the compiler is written
    against ([Value], [Function], [BytecodeModule], [FunctionScope], the
    node classes and [MAX_REGISTERS]) are not among the sources.  The
    compiler never inspects a literal's value, so [Value] is any type;
    [MAX_REGISTERS] is "a fixed constant". *)
Variable Value : Type.
Variable MAX_REGISTERS : Z.

(** "Each function holds: name, parameter count, a flat instruction
    vector". *)
Record Function : Type := mkFunction {
  name : string;
  parameterCount : Z;
  parameters : list string;
  bytecode : list Instruction
}.

(** "A module holds an ordered list of Functions and a shared constant
    pool". *)
Record BytecodeModule : Type := mkModule {
  constants : list Value;
  functions : list Function
}.

(** [addConstant]: "add the decoded value to the constant pool", the
    result is its index. *)
Definition addConstant (v : Value) (m : BytecodeModule) : Z * BytecodeModule :=
  (Z.of_nat (length (constants m)), mkModule (constants m ++ [v]) (functions m)).

(** [registerFunction]: the function joins the ordered list. *)
Definition registerFunction (f : Function) (m : BytecodeModule) : BytecodeModule :=
  mkModule (constants m) (functions m ++ [f]).

(** [lookupFunction]: "the module also indexes functions by name -> index";
    [UINT32_MAX] when the name is absent (what the caller tests for). *)
Fixpoint index_of (n : string) (fs : list Function) (i : Z) : Z :=
  match fs with
  | [] => UINT32_MAX
  | f :: fs' => if String.eqb (name f) n then i else index_of n fs' (i + 1)
  end.

Definition lookupFunction (n : string) (m : BytecodeModule) : Z :=
  index_of n (functions m) 0.

(** "A stack of FunctionScope, each holding an ordered map name -> slot";
    a scope is built from a name and the parameter list ("a scope
    initialized with parameter slots") and knows nothing of the scopes
    below it. *)
Record FunctionScope : Type := mkScope {
  scope_name : string;
  variables : gmap string Z
}.

Definition scope_allocateVariable (n : string) (s : FunctionScope)
  : Z * FunctionScope :=
  let slot := Z.of_nat (size (variables s)) in
  (slot, mkScope (scope_name s) (<[n := slot]> (variables s))).

Definition scope_lookupVariable (n : string) (s : FunctionScope) : Z :=
  default UINT32_MAX (variables s !! n).

Definition new_FunctionScope (n : string) (params : list string) : FunctionScope :=
  foldl (fun s p => snd (scope_allocateVariable p s)) (mkScope n ∅) params.

#[local] Set Warnings "-register-all".

(** The node classes, one constructor per case of the [switch] in
    [visitNode]; [OtherNode] is any node type the switch does not list.  A
    body or branch that the compiler casts to [BlockNode] is the list of
    that block's statements. *)
Inductive ASTNode : Type :=
| Program (statements : list ASTNode)
| FunctionDef (fname : string) (params : list string) (body : list ASTNode)
| Block (statements : list ASTNode)
| BinaryOp (op : string) (left right : ASTNode)
| UnaryOp (op : string) (operand : ASTNode)
| Literal (value : Value)
| Identifier (vname : string)
| Assignment (vname : string) (value : ASTNode)
| IfStatement (condition : ASTNode) (thenBranch : list ASTNode)
              (elseBranch : option (list ASTNode))
| WhileLoop (condition : ASTNode) (body : list ASTNode)
| ForLoop (init condition update : ASTNode) (body : list ASTNode)
| FunctionCall (fname : string) (arguments : list ASTNode)
| ReturnStatement (value : option ASTNode)
| ArrayLiteral (elements : list ASTNode)
| IndexAccess (array index : ASTNode)
| OtherNode.

(** The members of [class Compiler] the lowering reads or writes
    ([current_function_] is only saved and restored). *)
Record Compiler : Type := mkCompiler {
  current_module : BytecodeModule;
  current_bytecode : list Instruction;
  current_register : Z;
  next_label : Z;
  label_positions : gmap Z Z;
  scope_stack : list FunctionScope
}.

Definition set_module (m : BytecodeModule) (c : Compiler) : Compiler :=
  mkCompiler m (current_bytecode c) (current_register c) (next_label c)
             (label_positions c) (scope_stack c).
Definition set_bytecode (b : list Instruction) (c : Compiler) : Compiler :=
  mkCompiler (current_module c) b (current_register c) (next_label c)
             (label_positions c) (scope_stack c).
Definition set_register (r : Z) (c : Compiler) : Compiler :=
  mkCompiler (current_module c) (current_bytecode c) r (next_label c)
             (label_positions c) (scope_stack c).
Definition set_next_label (l : Z) (c : Compiler) : Compiler :=
  mkCompiler (current_module c) (current_bytecode c) (current_register c) l
             (label_positions c) (scope_stack c).
Definition set_label_positions (p : gmap Z Z) (c : Compiler) : Compiler :=
  mkCompiler (current_module c) (current_bytecode c) (current_register c)
             (next_label c) p (scope_stack c).
Definition set_scope_stack (s : list FunctionScope) (c : Compiler) : Compiler :=
  mkCompiler (current_module c) (current_bytecode c) (current_register c)
             (next_label c) (label_positions c) s.

(** [Compiler::Compiler()]: a compiler that has compiled nothing.  Until
    [compile] points [current_module_] at a module there is none; the empty
    module stands for that. *)
Definition new_Compiler : Compiler :=
  mkCompiler (mkModule [] []) [] 0 0 ∅ [].

(** ** The lowering monad: the compiler state, or the message of the
    [std::runtime_error] that ended the compilation. *)
Inductive result (A : Type) : Type :=
| Ok (a : A) (c : Compiler)
| Err (msg : string).
Arguments Ok {A} a c.
Arguments Err {A} msg.

Definition C (A : Type) : Type := Compiler -> result A.

Definition ret {A} (a : A) : C A := fun c => Ok a c.
Definition bind {A B} (m : C A) (k : A -> C B) : C B :=
  fun c => match m c with Ok a c' => k a c' | Err msg => Err msg end.
Definition throw {A} (msg : string) : C A := fun _ => Err msg.
Definition gets {A} (f : Compiler -> A) : C A := fun c => Ok (f c) c.
Definition modify (f : Compiler -> Compiler) : C unit := fun c => Ok tt (f c).

Notation "x <- m ;; k" := (bind m (fun x => k))
  (at level 100, m at level 99, right associativity).
Notation "m ;;; k" := (bind m (fun _ => k))
  (at level 100, right associativity).

(** ** Helpers of the compiler *)

(** [void Compiler::emit(OpCode opcode, const std::vector<uint32_t>&)] *)
Definition emit (op : OpCode) (ops : list Z) : C unit :=
  modify (fun c => set_bytecode (current_bytecode c ++ [mkInstr op ops]) c).

(** [void Compiler::allocateRegister()] *)
Definition allocateRegister : C unit :=
  r <- gets current_register ;;
  if r <? MAX_REGISTERS then modify (set_register (r + 1))
  else throw "Register overflow: too many temporary values".

(** [uint32_t Compiler::genLabel()] *)
Definition genLabel : C Z :=
  l <- gets next_label ;;
  modify (set_next_label (u32 (l + 1))) ;;;
  ret l.

(** [void Compiler::markLabel(uint32_t label)] *)
Definition markLabel (label : Z) : C unit :=
  modify (fun c =>
    set_label_positions
      (<[label := Z.of_nat (length (current_bytecode c))]> (label_positions c)) c).

(** [uint32_t Compiler::lookupVariable(const std::string& name)] *)
Definition lookupVariable (n : string) : C Z :=
  ss <- gets scope_stack ;;
  match last ss with
  | Some top => ret (scope_lookupVariable n top)
  | None => ret UINT32_MAX
  end.

(** [uint32_t Compiler::allocateVariable(const std::string& name)] *)
Definition allocateVariable (n : string) : C Z :=
  ss <- gets scope_stack ;;
  match last ss with
  | Some top =>
      let (slot, top') := scope_allocateVariable n top in
      modify (set_scope_stack (removelast ss ++ [top'])) ;;;
      ret slot
  | None => throw "No active scope for variable allocation"
  end.

(** [void Compiler::pushScope(const FunctionScope& scope)] *)
Definition pushScope (s : FunctionScope) : C unit :=
  modify (fun c => set_scope_stack (scope_stack c ++ [s]) c).

(** [void Compiler::popScope()] *)
Definition popScope : C unit :=
  modify (fun c => set_scope_stack (removelast (scope_stack c)) c).

(** [OpCode Compiler::binaryOpToOpCode(const std::string& op)] *)
Definition binaryOpToOpCode (op : string) : C OpCode :=
  if String.eqb op "+" then ret Add
  else if String.eqb op "-" then ret Sub
  else if String.eqb op "*" then ret Mul
  else if String.eqb op "/" then ret Div
  else if String.eqb op "%" then ret Mod
  else if String.eqb op "==" then ret Equal
  else if String.eqb op "!=" then ret NotEqual
  else if String.eqb op "<" then ret Less
  else if String.eqb op "<=" then ret LessEqual
  else if String.eqb op ">" then ret Greater
  else if String.eqb op ">=" then ret GreaterEqual
  else if String.eqb op "&&" then ret And
  else if String.eqb op "||" then ret Or
  else throw ("Unknown binary operator: " ++ op).

(** [OpCode Compiler::unaryOpToOpCode(const std::string& op)] *)
Definition unaryOpToOpCode (op : string) : C OpCode :=
  if String.eqb op "-" then ret Neg
  else if String.eqb op "!" then ret Not
  else throw ("Unknown unary operator: " ++ op).

(** [current_register_ - 1], a [uint32_t]. *)
Definition last_register : C Z :=
  r <- gets current_register ;;
  ret (u32 (r - 1)).

(** The loop [for (const auto& stmt : ...)] that visits every statement. *)
Fixpoint for_each (visit : ASTNode -> C unit) (nodes : list ASTNode) : C unit :=
  match nodes with
  | [] => ret tt
  | n :: rest => visit n ;;; for_each visit rest
  end.

(** The argument loop of [visitFunctionCall], which collects the result
    register of every argument. *)
Fixpoint visit_arguments (visit : ASTNode -> C unit) (args : list ASTNode)
    (arg_regs : list Z) : C (list Z) :=
  match args with
  | [] => ret arg_regs
  | a :: rest =>
      visit a ;;;
      r <- last_register ;;
      visit_arguments visit rest (arg_regs ++ [r])
  end.

(** ** The visitors.  Each takes [visitNode] as its first argument; the
    knot is tied in [visitNode] below. *)

Section Visitors.
Variable visitNode : ASTNode -> C unit.

Definition visitProgram (statements : list ASTNode) : C unit :=
  for_each visitNode statements.

Definition visitBlock (statements : list ASTNode) : C unit :=
  for_each visitNode statements.

(** "Add return instruction if not present". *)
Definition lacks_return (code : list Instruction) : bool :=
  match last code with
  | None => true
  | Some i => bool_decide (opcode i <> Return)
  end.

Definition visitFunctionDef (fname : string) (params : list string)
    (body : list ASTNode) : C unit :=
  pushScope (new_FunctionScope fname params) ;;;
  visitBlock body ;;;
  code <- gets current_bytecode ;;
  (if lacks_return code
   then emit LoadConst [0] ;;; emit Return []
   else ret tt) ;;;
  code' <- gets current_bytecode ;;
  modify (fun c =>
    set_module
      (registerFunction
         (mkFunction fname (Z.of_nat (length params)) params code')
         (current_module c)) c) ;;;
  modify (set_bytecode []) ;;;
  popScope.

Definition visitBinaryOp (op : string) (left right : ASTNode) : C unit :=
  visitNode left ;;;
  left_reg <- last_register ;;
  visitNode right ;;;
  right_reg <- last_register ;;
  opc <- binaryOpToOpCode op ;;
  emit opc [left_reg; right_reg].

Definition visitUnaryOp (op : string) (operand : ASTNode) : C unit :=
  visitNode operand ;;;
  r <- last_register ;;
  opc <- unaryOpToOpCode op ;;
  emit opc [r].

Definition visitLiteral (value : Value) : C unit :=
  m <- gets current_module ;;
  let (const_index, m') := addConstant value m in
  modify (set_module m') ;;;
  emit LoadConst [const_index] ;;;
  allocateRegister.

Definition visitIdentifier (vname : string) : C unit :=
  var_index <- lookupVariable vname ;;
  if negb (var_index =? UINT32_MAX)
  then emit LoadVar [var_index] ;;; allocateRegister
  else throw ("Undefined variable: " ++ vname).

Definition visitAssignment (vname : string) (value : ASTNode) : C unit :=
  visitNode value ;;;
  value_reg <- last_register ;;
  found <- lookupVariable vname ;;
  var_index <- (if found =? UINT32_MAX then allocateVariable vname
                else ret found) ;;
  emit StoreVar [var_index; value_reg].

Definition visitIfStatement (condition : ASTNode) (thenBranch : list ASTNode)
    (elseBranch : option (list ASTNode)) : C unit :=
  visitNode condition ;;;
  cond_reg <- last_register ;;
  false_label <- genLabel ;;
  emit JumpIfFalse [cond_reg; false_label] ;;;
  visitBlock thenBranch ;;;
  end_label <- genLabel ;;
  emit Jump [end_label] ;;;
  markLabel false_label ;;;
  match elseBranch with
  | Some stmts => visitBlock stmts
  | None => ret tt
  end ;;;
  markLabel end_label.

Definition visitWhileLoop (condition : ASTNode) (body : list ASTNode) : C unit :=
  loop_label <- genLabel ;;
  markLabel loop_label ;;;
  visitNode condition ;;;
  cond_reg <- last_register ;;
  exit_label <- genLabel ;;
  emit JumpIfFalse [cond_reg; exit_label] ;;;
  visitBlock body ;;;
  emit Jump [loop_label] ;;;
  markLabel exit_label.

Definition visitForLoop (init condition update : ASTNode)
    (body : list ASTNode) : C unit :=
  pushScope (new_FunctionScope "for_loop" []) ;;;
  visitNode init ;;;
  loop_label <- genLabel ;;
  markLabel loop_label ;;;
  visitNode condition ;;;
  cond_reg <- last_register ;;
  exit_label <- genLabel ;;
  emit JumpIfFalse [cond_reg; exit_label] ;;;
  visitBlock body ;;;
  visitNode update ;;;
  emit Jump [loop_label] ;;;
  markLabel exit_label ;;;
  popScope.

Definition visitFunctionCall (fname : string) (arguments : list ASTNode)
    : C unit :=
  arg_regs <- visit_arguments visitNode arguments [] ;;
  m <- gets current_module ;;
  let func_index := lookupFunction fname m in
  if func_index =? UINT32_MAX
  then throw ("Undefined function: " ++ fname)
  else
    emit Call [func_index; u32 (Z.of_nat (length arg_regs))] ;;;
    allocateRegister.

Definition visitReturnStatement (value : option ASTNode) : C unit :=
  match value with
  | Some v =>
      visitNode v ;;;
      ret_reg <- last_register ;;
      emit Return [ret_reg]
  | None =>
      emit LoadConst [0] ;;;
      emit Return []
  end.

Definition visitArrayLiteral (elements : list ASTNode) : C unit :=
  for_each visitNode elements ;;;
  emit NewArray [u32 (Z.of_nat (length elements))] ;;;
  allocateRegister.

Definition visitIndexAccess (array index : ASTNode) : C unit :=
  visitNode array ;;;
  array_reg <- last_register ;;
  visitNode index ;;;
  index_reg <- last_register ;;
  emit IndexLoad [array_reg; index_reg].

End Visitors.

(** [void Compiler::visitNode(const ASTNode& node)] *)
Fixpoint visitNode (node : ASTNode) : C unit :=
  match node with
  | Program statements => visitProgram visitNode statements
  | FunctionDef fname params body => visitFunctionDef visitNode fname params body
  | Block statements => visitBlock visitNode statements
  | BinaryOp op lhs rhs => visitBinaryOp visitNode op lhs rhs
  | UnaryOp op operand => visitUnaryOp visitNode op operand
  | Literal value => visitLiteral value
  | Identifier vname => visitIdentifier vname
  | Assignment vname value => visitAssignment visitNode vname value
  | IfStatement condition thenBranch elseBranch =>
      visitIfStatement visitNode condition thenBranch elseBranch
  | WhileLoop condition body => visitWhileLoop visitNode condition body
  | ForLoop init condition update body =>
      visitForLoop visitNode init condition update body
  | FunctionCall fname arguments => visitFunctionCall visitNode fname arguments
  | ReturnStatement value => visitReturnStatement visitNode value
  | ArrayLiteral elements => visitArrayLiteral visitNode elements
  | IndexAccess array index => visitIndexAccess visitNode array index
  | OtherNode => throw "Unknown AST node type"
  end.

(** Modelled from the spec: [BytecodeModule::finalize()] is not among the
    sources ("module.finalize() patches all recorded forward labels,
    verifies every jump target lies within bounds, and records
    per-instruction line numbers", failing with "Unresolved label").  It is
    a parameter: a member function without arguments, whose effect depends
    on the module alone; it returns the module as it leaves it ([inr]) or
    the message it throws with ([inl]). *)
Variable finalize : BytecodeModule -> string + BytecodeModule.

(** [BytecodeModule Compiler::compile(const ASTNode& root)].  The call works
    on the compiler as it finds it: [current_module_] is pointed at a fresh
    module and nothing else is reset; the module is returned as [finalize]
    leaves it.  Every exception is rethrown behind "Compilation error: ".
    An [Err] holds no compiler: what a call that throws leaves in the
    object is any state at all to the call that follows. *)
Definition compile (root : ASTNode) : C BytecodeModule :=
  fun c =>
    match visitNode root (set_module (mkModule [] []) c) with
    | Ok _ c1 =>
        match finalize (current_module c1) with
        | inr m => Ok m (set_module m c1)
        | inl msg => Err ("Compilation error: " ++ msg)
        end
    | Err msg => Err ("Compilation error: " ++ msg)
    end.

(** ** Control flow of a function's bytecode

    A jump names a label; "markLabel records the current bytecode index for
    that label".  From instruction [i] control passes to [i + 1], to the
    index of the label a jump names, or nowhere after [Return]. *)
Definition label_target (labels : gmap Z Z) (l : Z) : list nat :=
  match labels !! l with
  | Some p => [Z.to_nat p]
  | None => []
  end.

Definition successors (labels : gmap Z Z) (code : list Instruction) (i : nat)
  : list nat :=
  match code !! i with
  | None => []
  | Some instr =>
      match opcode instr, operands instr with
      | Return, _ => []
      | Jump, [l] => label_target labels l
      | JumpIfFalse, [_; l] => S i :: label_target labels l
      | _, _ => [S i]
      end
  end.

(** [path labels code i is]: control can pass from [i] through the indices
    [is], in this order. *)
Fixpoint path (labels : gmap Z Z) (code : list Instruction) (i : nat)
    (rest : list nat) : bool :=
  match rest with
  | [] => true
  | j :: rest' =>
      bool_decide (j ∈ successors labels code i) && path labels code j rest'
  end.

(** The lookup the specification describes ("lookupVariable scans
    top-down"): the slot in the nearest scope, from the top of the stack
    down, that binds the name; [UINT32_MAX] when no scope binds it.  The
    top of the stack is the last element. *)
Fixpoint lookup_bottom_up (n : string) (found : Z) (ss : list FunctionScope) : Z :=
  match ss with
  | [] => found
  | s :: ss' =>
      lookup_bottom_up n
        (match variables s !! n with Some slot => slot | None => found end) ss'
  end.

Definition lookup_top_down (n : string) (ss : list FunctionScope) : Z :=
  lookup_bottom_up n UINT32_MAX ss.

(** The last instruction of a function's bytecode is [Return]. *)
Definition ends_with_return (code : list Instruction) : Prop :=
  exists i, last code = Some i /\ opcode i = Return.

(** Every function registered in the module ends with [Return]. *)
Definition all_return (c : Compiler) : Prop :=
  Forall (fun f => ends_with_return (bytecode f)) (functions (current_module c)).

(** A computation that, when it returns, keeps [all_return]. *)
Definition stable {A} (m : C A) : Prop :=
  forall c a c', all_return c -> m c = Ok a c' -> all_return c'.

End Lowering.

Arguments Program {Value} statements.
Arguments FunctionDef {Value} fname params body.
Arguments Block {Value} statements.
Arguments BinaryOp {Value} op left right.
Arguments UnaryOp {Value} op operand.
Arguments Literal {Value} value.
Arguments Identifier {Value} vname.
Arguments Assignment {Value} vname value.
Arguments IfStatement {Value} condition thenBranch elseBranch.
Arguments WhileLoop {Value} condition body.
Arguments ForLoop {Value} init condition update body.
Arguments FunctionCall {Value} fname arguments.
Arguments ReturnStatement {Value} value.
Arguments ArrayLiteral {Value} elements.
Arguments IndexAccess {Value} array index.
Arguments OtherNode {Value}.
Arguments Ok {Value A} a c.
Arguments Err {Value A} msg.

(** ** What a tree asks of the compiler *)

Section Measures.
Variable Value : Type.

Definition sum_nodes (f : ASTNode Value -> nat) (nodes : list (ASTNode Value))
  : nat :=
  foldr (fun n acc => (f n + acc)%nat) 0%nat nodes.

(** The number of calls of [allocateRegister] that compiling a tree makes:
    one per literal, identifier, call and array literal. *)
Fixpoint registers_used (node : ASTNode Value) : nat :=
  match node with
  | Program statements => sum_nodes registers_used statements
  | FunctionDef _ _ body => sum_nodes registers_used body
  | Block statements => sum_nodes registers_used statements
  | BinaryOp _ lhs rhs => registers_used lhs + registers_used rhs
  | UnaryOp _ operand => registers_used operand
  | Literal _ => 1
  | Identifier _ => 1
  | Assignment _ value => registers_used value
  | IfStatement condition thenBranch elseBranch =>
      registers_used condition + sum_nodes registers_used thenBranch +
      match elseBranch with
      | Some stmts => sum_nodes registers_used stmts
      | None => 0
      end
  | WhileLoop condition body =>
      registers_used condition + sum_nodes registers_used body
  | ForLoop init condition update body =>
      registers_used init + registers_used condition +
      sum_nodes registers_used body + registers_used update
  | FunctionCall _ arguments => sum_nodes registers_used arguments + 1
  | ReturnStatement value =>
      match value with
      | Some v => registers_used v
      | None => 0
      end
  | ArrayLiteral elements => sum_nodes registers_used elements + 1
  | IndexAccess array index => registers_used array + registers_used index
  | OtherNode => 0
  end%nat.

(** [current_register_] after [k] more allocations. *)
Definition allocated (MAX_REGISTERS : Z) (k : nat) (c c' : Compiler Value)
  : Prop :=
  current_register Value c' = current_register Value c + Z.of_nat k /\
  ((0 < k)%nat -> current_register Value c' <= MAX_REGISTERS).

(** The scope stack keeps its depth and everything below its top. *)
Definition same_scopes (c c' : Compiler Value) : Prop :=
  length (scope_stack Value c') = length (scope_stack Value c) /\
  removelast (scope_stack Value c') = removelast (scope_stack Value c).

(** The instructions in flight stay where they are: they begin the bytecode
    of the next function that is registered or, while none is, the bytecode
    in flight.  [before] and [after] are the registered functions and the
    bytecode in flight at two moments. *)
Definition carried_code (before after : list Function * list Instruction)
  : Prop :=
  exists fs,
    fst after = fst before ++ fs /\
    match fs with
    | [] => snd before `prefix_of` snd after
    | f :: _ => snd before `prefix_of` bytecode f
    end.

Definition carried (c c' : Compiler Value) : Prop :=
  carried_code
    (functions Value (current_module Value c), current_bytecode Value c)
    (functions Value (current_module Value c'), current_bytecode Value c').

(** The label a jump names: [emit(OpCode::Jump, {label})] and
    [emit(OpCode::JumpIfFalse, {cond_reg, label})]. *)
Definition jump_label (i : Instruction) : option Z :=
  match opcode i, operands i with
  | Jump, [l] => Some l
  | JumpIfFalse, [_; l] => Some l
  | _, _ => None
  end.

(** Every jump of [code] names a label that is marked in [labels] or is
    among the [pending] ones. *)
Definition jumps_marked (pending : gset Z) (labels : gmap Z Z)
    (code : list Instruction) : Prop :=
  forall i l, i ∈ code -> jump_label i = Some l ->
    is_Some (labels !! l) \/ l ∈ pending.

(** ... in the bytecode in flight and in every registered function. *)
Definition labels_marked (pending : gset Z) (labels : gmap Z Z)
    (code : list Instruction) (fs : list Function) : Prop :=
  jumps_marked pending labels code /\
  forall f, f ∈ fs -> jumps_marked pending labels (bytecode f).

(** Marked labels stay marked, and jumps whose labels are marked or
    pending stay so. *)
Definition keeps_labels (c c' : Compiler Value) : Prop :=
  (forall l, is_Some (label_positions Value c !! l) ->
             is_Some (label_positions Value c' !! l)) /\
  forall pending,
    labels_marked pending (label_positions Value c)
      (current_bytecode Value c) (functions Value (current_module Value c)) ->
    labels_marked pending (label_positions Value c')
      (current_bytecode Value c') (functions Value (current_module Value c')).

(** ** Where the jumps of a function lead *)

(** No function definition anywhere in the tree. *)
Fixpoint no_functions (node : ASTNode Value) : bool :=
  match node with
  | Program statements => forallb no_functions statements
  | FunctionDef _ _ _ => false
  | Block statements => forallb no_functions statements
  | BinaryOp _ lhs rhs => no_functions lhs && no_functions rhs
  | UnaryOp _ operand => no_functions operand
  | Literal _ => true
  | Identifier _ => true
  | Assignment _ value => no_functions value
  | IfStatement condition thenBranch elseBranch =>
      no_functions condition && forallb no_functions thenBranch &&
      match elseBranch with
      | Some stmts => forallb no_functions stmts
      | None => true
      end
  | WhileLoop condition body =>
      no_functions condition && forallb no_functions body
  | ForLoop init condition update body =>
      no_functions init && no_functions condition &&
      forallb no_functions body && no_functions update
  | FunctionCall _ arguments => forallb no_functions arguments
  | ReturnStatement value =>
      match value with
      | Some v => no_functions v
      | None => true
      end
  | ArrayLiteral elements => forallb no_functions elements
  | IndexAccess array index => no_functions array && no_functions index
  | OtherNode => true
  end.

(** No function definition inside an [if], a [while] or a [for]: not in
    the condition, not in a branch or the body, at any depth. *)
Fixpoint functions_outside_branches (node : ASTNode Value) : bool :=
  match node with
  | Program statements => forallb functions_outside_branches statements
  | FunctionDef _ _ body => forallb functions_outside_branches body
  | Block statements => forallb functions_outside_branches statements
  | BinaryOp _ lhs rhs =>
      functions_outside_branches lhs && functions_outside_branches rhs
  | UnaryOp _ operand => functions_outside_branches operand
  | Literal _ => true
  | Identifier _ => true
  | Assignment _ value => functions_outside_branches value
  | IfStatement _ _ _ => no_functions node
  | WhileLoop _ _ => no_functions node
  | ForLoop _ _ _ _ => no_functions node
  | FunctionCall _ arguments => forallb functions_outside_branches arguments
  | ReturnStatement value =>
      match value with
      | Some v => functions_outside_branches v
      | None => true
      end
  | ArrayLiteral elements => forallb functions_outside_branches elements
  | IndexAccess array index =>
      functions_outside_branches array && functions_outside_branches index
  | OtherNode => true
  end.

(** The number of calls of [genLabel] that compiling a tree makes: two per
    [if], [while] and [for]. *)
Fixpoint labels_used (node : ASTNode Value) : nat :=
  match node with
  | Program statements => sum_nodes labels_used statements
  | FunctionDef _ _ body => sum_nodes labels_used body
  | Block statements => sum_nodes labels_used statements
  | BinaryOp _ lhs rhs => labels_used lhs + labels_used rhs
  | UnaryOp _ operand => labels_used operand
  | Literal _ => 0
  | Identifier _ => 0
  | Assignment _ value => labels_used value
  | IfStatement condition thenBranch elseBranch =>
      labels_used condition + sum_nodes labels_used thenBranch +
      match elseBranch with
      | Some stmts => sum_nodes labels_used stmts
      | None => 0
      end + 2
  | WhileLoop condition body =>
      labels_used condition + sum_nodes labels_used body + 2
  | ForLoop init condition update body =>
      labels_used init + labels_used condition +
      sum_nodes labels_used body + labels_used update + 2
  | FunctionCall _ arguments => sum_nodes labels_used arguments
  | ReturnStatement value =>
      match value with
      | Some v => labels_used v
      | None => 0
      end
  | ArrayLiteral elements => sum_nodes labels_used elements
  | IndexAccess array index => labels_used array + labels_used index
  | OtherNode => 0
  end%nat.

(** The label [l] has a recorded position, and it is an index of [code] or
    its size. *)
Definition target_within (labels : gmap Z Z) (code : list Instruction)
    (l : Z) : Prop :=
  exists pos, labels !! l = Some pos /\ 0 <= pos <= Z.of_nat (length code).

(** Every jump of [code] names a label handed out before [next], whose
    position lies within [code]. *)
Definition targets_within (labels : gmap Z Z) (next : Z)
    (code : list Instruction) : Prop :=
  forall i l, i ∈ code -> jump_label i = Some l ->
    l < next /\ target_within labels code l.

(** ... in the bytecode in flight and in every registered function, each
    with its own bytecode. *)
Definition jumps_in_range (c : Compiler Value) : Prop :=
  targets_within (label_positions Value c) (next_label Value c)
    (current_bytecode Value c) /\
  forall f, f ∈ functions Value (current_module Value c) ->
    targets_within (label_positions Value c) (next_label Value c)
      (bytecode f).

(** What a tree without function definitions does with [k] labels, as long
    as [next_label_] does not wrap: it appends to the bytecode in flight,
    registers no function, leaves the positions of the labels handed out
    before alone, and every jump it appends names one of its own [k]
    labels, marked by the end at a position within the bytecode. *)
Definition local_jumps (k : nat) (c c' : Compiler Value) : Prop :=
  0 <= next_label Value c ->
  next_label Value c + Z.of_nat k < 2 ^ 32 ->
  next_label Value c' = next_label Value c + Z.of_nat k /\
  functions Value (current_module Value c') =
    functions Value (current_module Value c) /\
  (forall l, l < next_label Value c ->
     label_positions Value c' !! l = label_positions Value c !! l) /\
  exists added,
    current_bytecode Value c' = current_bytecode Value c ++ added /\
    forall i l, i ∈ added -> jump_label i = Some l ->
      next_label Value c <= l < next_label Value c' /\
      target_within (label_positions Value c') (current_bytecode Value c') l.

(** What a tree with its function definitions outside the branches does
    with [k] labels: jumps that lead into their own bytecode still do. *)
Definition keeps_in_range (k : nat) (c c' : Compiler Value) : Prop :=
  0 <= next_label Value c ->
  next_label Value c + Z.of_nat k < 2 ^ 32 ->
  next_label Value c' = next_label Value c + Z.of_nat k /\
  (jumps_in_range c -> jumps_in_range c').

End Measures.
Arguments sum_nodes {Value} f nodes.
Arguments registers_used {Value} node.
Arguments allocated {Value} MAX_REGISTERS k c c'.
Arguments same_scopes {Value} c c'.
Arguments carried {Value} c c'.
Arguments keeps_labels {Value} c c'.
Arguments no_functions {Value} node.
Arguments functions_outside_branches {Value} node.
Arguments labels_used {Value} node.
Arguments jumps_in_range {Value} c.
Arguments local_jumps {Value} k c c'.
Arguments keeps_in_range {Value} k c c'.

End Compiler.

(* ===================================================================== *)
(** * Loops with fuel *)
(* ===================================================================== *)

(** What one turn of a loop body decides. *)
Inductive ctl (S : Type) : Type :=
| Continue (s : S)
| Break (s : S).
Arguments Continue {S} s.
Arguments Break {S} s.

(** [while (cond) body], on the loop's state; a body can itself run loops,
    hence [option].  [None]: the fuel did not suffice. *)
Fixpoint loop {S : Type} (fuel : nat) (cond : S -> bool)
    (body : S -> option (ctl S)) (s : S) : option S :=
  if cond s then
    match fuel with
    | O => None
    | Datatypes.S fuel' =>
        match body s with
        | Some (Continue s') => loop fuel' cond body s'
        | Some (Break s') => Some s'
        | None => None
        end
    end
  else Some s.

(* ===================================================================== *)
(** * The lexer (lexer.cpp) *)
(* ===================================================================== *)

Module Lexer.

(** Modelled from the spec: the enumeration lexer.cpp is compiled against
    is not among the sources (the lexer.h that is names other
    enumerators).  These are the enumerators lexer.cpp uses. *)
Inductive TokenType : Set :=
| NUMBER | FLOAT | STRING | CHAR | IDENTIFIER
| IF | ELSE | FOR | WHILE | RETURN | FUNCTION | VAR | CONST | CLASS | STRUCT
| TRUE | FALSE | NULL_TOKEN | VOID | INT | BOOL
| LEFT_PAREN | RIGHT_PAREN | LEFT_BRACE | RIGHT_BRACE
| LEFT_BRACKET | RIGHT_BRACKET | COMMA | SEMICOLON | COLON | QUESTION | DOT
| EQUAL_EQUAL | EQUAL | NOT_EQUAL | NOT
| LESS_EQUAL | LEFT_SHIFT | LESS | GREATER_EQUAL | RIGHT_SHIFT | GREATER
| AND_AND | AND | OR_OR | OR
| PLUS_PLUS | PLUS_EQUAL | PLUS | MINUS_MINUS | MINUS_EQUAL | ARROW | MINUS
| STAR_EQUAL | STAR | SLASH_EQUAL | SLASH | PERCENT_EQUAL | PERCENT
| CARET | TILDE
| END_OF_FILE | ERROR.

#[global] Instance TokenType_eq_dec : EqDecision TokenType.
Proof. solve_decision. Defined.

(** [struct Token]: "column: column number where the token starts". *)
Record Token : Set := mkToken {
  type : TokenType;
  value : string;
  tline : Z;
  tcolumn : Z
}.

(** [static const std::unordered_map<std::string, TokenType> keywords] *)
Definition keywords : list (string * TokenType) :=
  [("if", IF); ("else", ELSE); ("for", FOR); ("while", WHILE);
   ("return", RETURN); ("function", FUNCTION); ("var", VAR);
   ("const", CONST); ("class", CLASS); ("struct", STRUCT); ("true", TRUE);
   ("false", FALSE); ("null", NULL_TOKEN); ("void", VOID); ("int", INT);
   ("float", FLOAT); ("string", STRING); ("bool", BOOL)].

Fixpoint find (k : string) (table : list (string * TokenType))
  : option TokenType :=
  match table with
  | [] => None
  | (k', t) :: rest => if String.eqb k k' then Some t else find k rest
  end.

(** ** Character classes of <cctype>, in the "C" locale *)

Definition between (lo hi : nat) (c : ascii) : bool :=
  (lo <=? nat_of_ascii c)%nat && (nat_of_ascii c <=? hi)%nat.

Definition isdigit (c : ascii) : bool := between 48 57 c.
Definition isalpha (c : ascii) : bool := between 65 90 c || between 97 122 c.
Definition isalnum (c : ascii) : bool := isalpha c || isdigit c.
Definition isxdigit (c : ascii) : bool :=
  isdigit c || between 65 70 c || between 97 102 c.
Definition isspace (c : ascii) : bool :=
  between 9 13 c || (nat_of_ascii c =? 32)%nat.

Definition NUL : ascii := "000"%char.
Definition LF : ascii := "010"%char.

(** ** The lexer object *)

Record Lexer : Set := mkLexer {
  source : string;
  position : nat;
  line : Z;
  column : Z
}.

(** [Lexer::Lexer(const std::string& source)] *)
Definition new_Lexer (src : string) : Lexer := mkLexer src 0 1 1.

(** [source[i]]: the terminating NUL at [i = source.length()]. *)
Definition char_at (s : string) (i : nat) : ascii :=
  match String.get i s with
  | Some c => c
  | None => NUL
  end.

(** [position < source.length()] *)
Definition in_source (lx : Lexer) : bool :=
  (position lx <? String.length (source lx))%nat.

(** [source[position]] *)
Definition current (lx : Lexer) : ascii := char_at (source lx) (position lx).

(** The number of characters not yet consumed: the fuel of every loop. *)
Definition remaining (lx : Lexer) : nat :=
  (String.length (source lx) - position lx)%nat.

(** [void Lexer::advance()] *)
Definition advance (lx : Lexer) : Lexer :=
  if in_source lx then
    if Ascii.eqb (current lx) LF
    then mkLexer (source lx) (S (position lx)) (line lx + 1) 1
    else mkLexer (source lx) (S (position lx)) (line lx) (column lx + 1)
  else lx.

(** [char Lexer::peek(int offset) const], called as [peek()]: offset 1. *)
Definition peek (lx : Lexer) : ascii :=
  let lookahead := (position lx + 1)%nat in
  if (String.length (source lx) <=? lookahead)%nat then NUL
  else char_at (source lx) lookahead.

(** [value += c] *)
Definition push_back (v : string) (c : ascii) : string :=
  String.append v (String c EmptyString).

(** [void Lexer::skipWhitespaceAndComments()] *)
Definition skipWhitespaceAndComments (lx : Lexer) : option Lexer :=
  loop (remaining lx) in_source
    (fun lx =>
       let c := current lx in
       if isspace c then Some (Continue (advance lx))
       else if Ascii.eqb c "/" && Ascii.eqb (peek lx) "/" then
         let lx := advance (advance lx) in
         match loop (remaining lx)
                 (fun lx => in_source lx && negb (Ascii.eqb (current lx) LF))
                 (fun lx => Some (Continue (advance lx))) lx with
         | Some lx =>
             Some (Continue (if in_source lx then advance lx else lx))
         | None => None
         end
       else if Ascii.eqb c "/" && Ascii.eqb (peek lx) "*" then
         let lx := advance (advance lx) in
         match loop (remaining lx) in_source
                 (fun lx =>
                    if Ascii.eqb (current lx) "*" && Ascii.eqb (peek lx) "/"
                    then Some (Break (advance (advance lx)))
                    else Some (Continue (advance lx))) lx with
         | Some lx => Some (Continue lx)
         | None => None
         end
       else Some (Break lx))
    lx.

(** [Token Lexer::makeToken(TokenType type, const std::string& value)] *)
Definition makeToken (lx : Lexer) (t : TokenType) (v : string) : Token * Lexer :=
  (mkToken t v (line lx) (column lx), advance lx).

(** The escape table of [scanString] and [scanCharacter]; [quote] is the
    quote character the literal escapes. *)
Definition unescape (quote escaped : ascii) : ascii :=
  if Ascii.eqb escaped "n" then LF
  else if Ascii.eqb escaped "t" then "009"%char
  else if Ascii.eqb escaped "r" then "013"%char
  else if Ascii.eqb escaped "\" then "\"%char
  else if Ascii.eqb escaped quote then quote
  else if Ascii.eqb escaped "0" then NUL
  else escaped.

Definition DQUOTE : ascii := "034"%char.
Definition SQUOTE : ascii := "039"%char.

(** [Token Lexer::scanString()] *)
Definition scanString (lx : Lexer) : option (Token * Lexer) :=
  let startLine := line lx in
  let startColumn := column lx in
  let lx := advance lx in
  match loop (remaining lx)
          (fun s => in_source (fst s) && negb (Ascii.eqb (current (fst s)) DQUOTE))
          (fun s =>
             let (lx, v) := s in
             if Ascii.eqb (current lx) "\" && negb (Ascii.eqb (peek lx) NUL)
             then
               let lx := advance lx in
               let escaped := current lx in
               Some (Continue (advance lx, push_back v (unescape DQUOTE escaped)))
             else
               Some (Continue (advance lx, push_back v (current lx))))
          (lx, EmptyString) with
  | Some (lx, v) =>
      let lx := if in_source lx then advance lx else lx in
      Some (mkToken STRING v startLine startColumn, lx)
  | None => None
  end.

(** [Token Lexer::scanCharacter()] *)
Definition scanCharacter (lx : Lexer) : Token * Lexer :=
  let startLine := line lx in
  let startColumn := column lx in
  let lx := advance lx in
  let (lx, v) :=
    if in_source lx && Ascii.eqb (current lx) "\" then
      let lx := advance lx in
      let escaped := current lx in
      (advance lx, push_back EmptyString (unescape SQUOTE escaped))
    else if in_source lx then
      (advance lx, push_back EmptyString (current lx))
    else (lx, EmptyString) in
  let lx :=
    if in_source lx && Ascii.eqb (current lx) SQUOTE then advance lx else lx in
  (mkToken CHAR v startLine startColumn, lx).

(** The loop [while (position < source.length() && pred(source[position]))
    { value += source[position]; advance(); }]. *)
Definition scan_while (pred : ascii -> bool) (s : Lexer * string)
  : option (Lexer * string) :=
  loop (remaining (fst s))
    (fun s => in_source (fst s) && pred (current (fst s)))
    (fun s => let (lx, v) := s in
              Some (Continue (advance lx, push_back v (current lx))))
    s.

(** [Token Lexer::scanNumber()] *)
Definition scanNumber (lx : Lexer) : option (Token * Lexer) :=
  let startLine := line lx in
  let startColumn := column lx in
  if Ascii.eqb (current lx) "0" &&
     (Ascii.eqb (peek lx) "x" || Ascii.eqb (peek lx) "X") then
    let v := push_back EmptyString (current lx) in
    let lx := advance lx in
    let v := push_back v (current lx) in
    let lx := advance lx in
    match scan_while isxdigit (lx, v) with
    | Some (lx, v) => Some (mkToken NUMBER v startLine startColumn, lx)
    | None => None
    end
  else
    match scan_while isdigit (lx, EmptyString) with
    | None => None
    | Some (lx, v) =>
        if in_source lx && Ascii.eqb (current lx) "." &&
           (position lx + 1 <? String.length (source lx))%nat &&
           isdigit (char_at (source lx) (position lx + 1))
        then
          let v := push_back v (current lx) in
          let lx := advance lx in
          match scan_while isdigit (lx, v) with
          | None => None
          | Some (lx, v) =>
              if in_source lx &&
                 (Ascii.eqb (current lx) "e" || Ascii.eqb (current lx) "E")
              then
                let v := push_back v (current lx) in
                let lx := advance lx in
                let (lx, v) :=
                  if in_source lx &&
                     (Ascii.eqb (current lx) "+" || Ascii.eqb (current lx) "-")
                  then (advance lx, push_back v (current lx))
                  else (lx, v) in
                match scan_while isdigit (lx, v) with
                | None => None
                | Some (lx, v) =>
                    Some (mkToken FLOAT v startLine startColumn, lx)
                end
              else Some (mkToken FLOAT v startLine startColumn, lx)
          end
        else Some (mkToken NUMBER v startLine startColumn, lx)
    end.

(** [Token Lexer::scanIdentifier()] *)
Definition scanIdentifier (lx : Lexer) : option (Token * Lexer) :=
  let startLine := line lx in
  let startColumn := column lx in
  match scan_while (fun c => isalnum c || Ascii.eqb c "_") (lx, EmptyString) with
  | None => None
  | Some (lx, v) =>
      match find v keywords with
      | Some t => Some (mkToken t v startLine startColumn, lx)
      | None => Some (mkToken IDENTIFIER v startLine startColumn, lx)
      end
  end.

(** [Token Lexer::nextToken()] *)
Definition nextToken (lx : Lexer) : option (Token * Lexer) :=
  match skipWhitespaceAndComments lx with
  | None => None
  | Some lx =>
    if negb (in_source lx)
    then Some (mkToken END_OF_FILE EmptyString (line lx) (column lx), lx)
    else
    let c := current lx in
    if Ascii.eqb c "(" then Some (makeToken lx LEFT_PAREN "(")
    else if Ascii.eqb c ")" then Some (makeToken lx RIGHT_PAREN ")")
    else if Ascii.eqb c "{" then Some (makeToken lx LEFT_BRACE "{")
    else if Ascii.eqb c "}" then Some (makeToken lx RIGHT_BRACE "}")
    else if Ascii.eqb c "[" then Some (makeToken lx LEFT_BRACKET "[")
    else if Ascii.eqb c "]" then Some (makeToken lx RIGHT_BRACKET "]")
    else if Ascii.eqb c "," then Some (makeToken lx COMMA ",")
    else if Ascii.eqb c ";" then Some (makeToken lx SEMICOLON ";")
    else if Ascii.eqb c ":" then Some (makeToken lx COLON ":")
    else if Ascii.eqb c "?" then Some (makeToken lx QUESTION "?")
    else if Ascii.eqb c "." then Some (makeToken lx DOT ".")
    else if Ascii.eqb c "=" then
      if Ascii.eqb (peek lx) "="
      then Some (makeToken (advance lx) EQUAL_EQUAL "==")
      else Some (makeToken lx EQUAL "=")
    else if Ascii.eqb c "!" then
      if Ascii.eqb (peek lx) "="
      then Some (makeToken (advance lx) NOT_EQUAL "!=")
      else Some (makeToken lx NOT "!")
    else if Ascii.eqb c "<" then
      if Ascii.eqb (peek lx) "="
      then Some (makeToken (advance lx) LESS_EQUAL "<=")
      else if Ascii.eqb (peek lx) "<"
      then Some (makeToken (advance lx) LEFT_SHIFT "<<")
      else Some (makeToken lx LESS "<")
    else if Ascii.eqb c ">" then
      if Ascii.eqb (peek lx) "="
      then Some (makeToken (advance lx) GREATER_EQUAL ">=")
      else if Ascii.eqb (peek lx) ">"
      then Some (makeToken (advance lx) RIGHT_SHIFT ">>")
      else Some (makeToken lx GREATER ">")
    else if Ascii.eqb c "&" then
      if Ascii.eqb (peek lx) "&"
      then Some (makeToken (advance lx) AND_AND "&&")
      else Some (makeToken lx AND "&")
    else if Ascii.eqb c "|" then
      if Ascii.eqb (peek lx) "|"
      then Some (makeToken (advance lx) OR_OR "||")
      else Some (makeToken lx OR "|")
    else if Ascii.eqb c "+" then
      if Ascii.eqb (peek lx) "+"
      then Some (makeToken (advance lx) PLUS_PLUS "++")
      else if Ascii.eqb (peek lx) "="
      then Some (makeToken (advance lx) PLUS_EQUAL "+=")
      else Some (makeToken lx PLUS "+")
    else if Ascii.eqb c "-" then
      if Ascii.eqb (peek lx) "-"
      then Some (makeToken (advance lx) MINUS_MINUS "--")
      else if Ascii.eqb (peek lx) "="
      then Some (makeToken (advance lx) MINUS_EQUAL "-=")
      else if Ascii.eqb (peek lx) ">"
      then Some (makeToken (advance lx) ARROW "->")
      else Some (makeToken lx MINUS "-")
    else if Ascii.eqb c "*" then
      if Ascii.eqb (peek lx) "="
      then Some (makeToken (advance lx) STAR_EQUAL "*=")
      else Some (makeToken lx STAR "*")
    else if Ascii.eqb c "/" then
      if Ascii.eqb (peek lx) "="
      then Some (makeToken (advance lx) SLASH_EQUAL "/=")
      else Some (makeToken lx SLASH "/")
    else if Ascii.eqb c "%" then
      if Ascii.eqb (peek lx) "="
      then Some (makeToken (advance lx) PERCENT_EQUAL "%=")
      else Some (makeToken lx PERCENT "%")
    else if Ascii.eqb c "^" then Some (makeToken lx CARET "^")
    else if Ascii.eqb c "~" then Some (makeToken lx TILDE "~")
    else if Ascii.eqb c DQUOTE then scanString lx
    else if Ascii.eqb c SQUOTE then Some (scanCharacter lx)
    else if isdigit c then scanNumber lx
    else if isalpha c || Ascii.eqb c "_" then scanIdentifier lx
    else Some (mkToken ERROR (String c EmptyString) (line lx) (column lx),
               advance lx)
  end.

(** The loop of [tokenize], from any state of the lexer: the first call of
    [nextToken], then [while (token.type != END_OF_FILE)]. *)
Definition tokenize_from (lx : Lexer) : option (list Token) :=
  match nextToken lx with
  | None => None
  | Some (token, lx) =>
      match loop (S (String.length (source lx)))
              (fun s => bool_decide (type (snd (fst s)) <> END_OF_FILE))
              (fun s =>
                 let '(tokens, token, lx) := s in
                 match nextToken lx with
                 | Some (token', lx') =>
                     Some (Continue (tokens ++ [token], token', lx'))
                 | None => None
                 end)
              ([], token, lx) with
      | Some (tokens, token, _) => Some (tokens ++ [token])
      | None => None
      end
  end.

(** [std::vector<Token> Lexer::tokenize()] on a fresh lexer. *)
Definition tokenize (src : string) : option (list Token) :=
  tokenize_from (new_Lexer src).

(** The tokens of the successive calls of [nextToken] from a state of the
    lexer, up to and with the first [END_OF_FILE] token. *)
Inductive token_stream : Lexer -> list Token -> Prop :=
| stream_end lx token lx' :
    nextToken lx = Some (token, lx') ->
    type token = END_OF_FILE ->
    token_stream lx [token]
| stream_next lx token lx' rest :
    nextToken lx = Some (token, lx') ->
    type token <> END_OF_FILE ->
    token_stream lx' rest ->
    token_stream lx (token :: rest).

(** The tokens still to come when the loop of [tokenize] holds [token] in
    hand, with the lexer in the state [lx]: the token itself, and unless it
    is [END_OF_FILE] the stream from [lx]. *)
Definition in_hand (token : Token) (lx : Lexer) (ts : list Token) : Prop :=
  (type token = END_OF_FILE /\ ts = [token]) \/
  (type token <> END_OF_FILE /\
   exists rest, ts = token :: rest /\ token_stream lx rest).

(** [scans src tokens lx]: on the source [src], the loop of [tokenize] calls
    [nextToken] with the lexer in the state [lx] after it has collected
    [tokens]. *)
Inductive scans (src : string) : list Token -> Lexer -> Prop :=
| scans_first : scans src [] (new_Lexer src)
| scans_next tokens lx token lx' :
    scans src tokens lx ->
    nextToken lx = Some (token, lx') ->
    type token <> END_OF_FILE ->
    scans src (tokens ++ [token]) lx'.

(** One turn of the loop of [skipWhitespaceAndComments]. *)
Definition skip_turn (lx : Lexer) : option (ctl Lexer) :=
  let c := current lx in
  if isspace c then Some (Continue (advance lx))
  else if Ascii.eqb c "/" && Ascii.eqb (peek lx) "/" then
    let lx := advance (advance lx) in
    match loop (remaining lx)
            (fun lx => in_source lx && negb (Ascii.eqb (current lx) LF))
            (fun lx => Some (Continue (advance lx))) lx with
    | Some lx =>
        Some (Continue (if in_source lx then advance lx else lx))
    | None => None
    end
  else if Ascii.eqb c "/" && Ascii.eqb (peek lx) "*" then
    let lx := advance (advance lx) in
    match loop (remaining lx) in_source
            (fun lx =>
               if Ascii.eqb (current lx) "*" && Ascii.eqb (peek lx) "/"
               then Some (Break (advance (advance lx)))
               else Some (Continue (advance lx))) lx with
    | Some lx => Some (Continue lx)
    | None => None
    end
  else Some (Break lx).

(** [skips lx lx1]: the loop of [skipWhitespaceAndComments], entered with
    the lexer in the state [lx], comes to the state [lx1] after some turns:
    what lies between the two is white space and whole comments. *)
Inductive skips : Lexer -> Lexer -> Prop :=
| skips_here lx : skips lx lx
| skips_turn lx lx' lx1 :
    in_source lx = true ->
    skip_turn lx = Some (Continue lx') ->
    skips lx' lx1 ->
    skips lx lx1.

(** The lexer only moves forward, over one and the same source. *)
Definition extends (a b : Lexer) : Prop :=
  source b = source a /\ (position a <= position b)%nat.

(** A call that produced a token other than [END_OF_FILE] consumed input. *)
Definition progress (a : Lexer) (r : Token * Lexer) : Prop :=
  in_source a = true /\
  source (snd r) = source a /\
  (position a < position (snd r))%nat /\
  type (fst r) <> END_OF_FILE.

(** No [*/] at or after index [from] of [s]. *)
Definition unclosed (s : string) (from : nat) : Prop :=
  forall i, (from <= i)%nat ->
    ~ (char_at s i = "*"%char /\ char_at s (S i) = "/"%char).

(** The first [*/] at or after index [from] of [s] is the end of [s]. *)
Definition closed_at_end (s : string) (from : nat) : Prop :=
  exists e,
    (from <= e)%nat /\
    char_at s e = "*"%char /\ char_at s (S e) = "/"%char /\
    String.length s = S (S e) /\
    forall i, (from <= i < e)%nat ->
      ~ (char_at s i = "*"%char /\ char_at s (S i) = "/"%char).

(** What [nextToken] returns at the end of the input: the [END_OF_FILE]
    token, with the lexer at the end. *)
Definition at_eof (a : Lexer) (r : Token * Lexer) : Prop :=
  fst r = mkToken END_OF_FILE EmptyString (line (snd r)) (column (snd r)) /\
  extends a (snd r) /\
  in_source (snd r) = false.

(** A byte no rule of [nextToken] matches. *)
Definition unknown_byte (c : ascii) : bool :=
  negb (isspace c) && negb (isdigit c) && negb (isalpha c) &&
  negb (existsb (Ascii.eqb c)
          (list_ascii_of_string "(){}[],;:?.=!<>&|+-*/%^~_") ||
        Ascii.eqb c DQUOTE || Ascii.eqb c SQUOTE).

(** The position, as the lexer counts lines and columns, of the character
    at index [i] of [s]: lines start at 1, a line feed starts a new line,
    columns start at 1. *)
Fixpoint line_column (s : string) (i : nat) (l c : Z) : Z * Z :=
  match i, s with
  | O, _ => (l, c)
  | S i', String ch s' =>
      if Ascii.eqb ch LF then line_column s' i' (l + 1) 1
      else line_column s' i' l (c + 1)
  | S _, EmptyString => (l, c)
  end.

(** ** Where the lexer is *)

(** [line] and [column] are those of the character at [position]. *)
Definition tracked (lx : Lexer) : Prop :=
  (line lx, column lx) = line_column (source lx) (position lx) 1 1 /\
  (position lx <= String.length (source lx))%nat.

(** The token types [nextToken] makes after a second [advance()]. *)
Definition two_characters (t : TokenType) : bool :=
  match t with
  | EQUAL_EQUAL | NOT_EQUAL | LESS_EQUAL | LEFT_SHIFT | GREATER_EQUAL
  | RIGHT_SHIFT | AND_AND | OR_OR | PLUS_PLUS | PLUS_EQUAL | MINUS_MINUS
  | MINUS_EQUAL | ARROW | STAR_EQUAL | SLASH_EQUAL | PERCENT_EQUAL => true
  | _ => false
  end.

(** A scanner stamps its token with the line and column at which it was
    called. *)
Definition stamped (lx : Lexer) (tok : Token) : Prop :=
  tline tok = line lx /\ tcolumn tok = column lx /\
  two_characters (type tok) = false.

(** [v] is the text of the source between [from] and [lx]. *)
Definition scanned (from lx : Lexer) (v : string) : Prop :=
  source lx = source from /\
  (position from <= position lx <= String.length (source from))%nat /\
  v = substring (position from) (position lx - position from) (source from).

End Lexer.

(* ===================================================================== *)
(** * The expression parser (parser.cpp) *)
(* ===================================================================== *)

Module Parser.

(** Modelled from the spec: the token enumeration parser.cpp is compiled
    against is not among the sources ("the parser references
    TokenType::NEWLINE and TokenType::ASSIGN that are not in the primary
    lexer token enum").  These are the enumerators parser.cpp names;
    [OTHER] stands for every other one. *)
Inductive TokenType : Set :=
| NUMBER | STRING | IDENTIFIER | TRUE | FALSE | NULL_TOKEN
| IF | ELSE | WHILE | FOR | FUNCTION | RETURN
| ASSIGN | OR | AND | EQUAL_EQUAL | NOT_EQUAL
| LESS | LESS_EQUAL | GREATER | GREATER_EQUAL
| PLUS | MINUS | MULTIPLY | DIVIDE | MODULO | NOT
| LEFT_PAREN | RIGHT_PAREN | LEFT_BRACE | RIGHT_BRACE
| LEFT_BRACKET | RIGHT_BRACKET | COMMA | SEMICOLON | NEWLINE
| END_OF_FILE | OTHER.

#[global] Instance TokenType_eq_dec : EqDecision TokenType.
Proof. solve_decision. Defined.

Record Token : Set := mkToken {
  type : TokenType;
  value : string;
  line : Z
}.

(** [static Token eof{TokenType::END_OF_FILE, "", 0};] of [Parser::peek]. *)
Definition eof : Token := mkToken END_OF_FILE EmptyString 0.

Section Expressions.

(** Modelled from the spec: [std::stod] and the node classes the parser
    builds are not among the sources.  [double] is the type of a number
    literal's value; [stod] is [None] where [std::stod] throws. *)
Variable double : Type.
Variable stod : string -> option double.

#[local] Set Warnings "-register-all".

(** The nodes [parseExpression] builds. *)
Inductive ASTNode : Type :=
| NumberNode (d : double)
| StringNode (s : string)
| VariableNode (name : string)
| BooleanNode (b : bool)
| NullNode
| ArrayNode (elements : list ASTNode)
| CallNode (callee : ASTNode) (args : list ASTNode)
| IndexNode (array index : ASTNode)
| UnaryOpNode (op : TokenType) (operand : ASTNode)
| BinaryOpNode (lhs : ASTNode) (op : TokenType) (rhs : ASTNode)
| AssignmentNode (name : string) (value : ASTNode).

(** [class Parser]: the token vector and the index of the current token. *)
Record Parser : Type := mkParser {
  tokens : list Token;
  current : nat
}.

(** A member function returns a value and the parser as it left it, or
    throws [std::runtime_error(msg)]; [OutOfFuel] is the model's own: the
    recursion is deeper than the fuel. *)
Inductive result (A : Type) : Type :=
| Ok (a : A) (p : Parser)
| Error (msg : string)
| OutOfFuel.
Arguments Ok {A} a p.
Arguments Error {A} msg.
Arguments OutOfFuel {A}.

Definition P (A : Type) : Type := Parser -> result A.

Definition ret {A} (a : A) : P A := fun p => Ok a p.
Definition bind {A B} (m : P A) (k : A -> P B) : P B :=
  fun p =>
    match m p with
    | Ok a p' => k a p'
    | Error msg => Error msg
    | OutOfFuel => OutOfFuel
    end.
Definition throw {A} (msg : string) : P A := fun _ => Error msg.
Definition out_of_fuel {A} : P A := fun _ => OutOfFuel.

Notation "x <- m ;; k" := (bind m (fun x => k))
  (at level 100, m at level 99, right associativity).
Notation "m ;;; k" := (bind m (fun _ => k))
  (at level 100, right associativity).

(** ** Helpers *)

(** [Token Parser::peek() const] *)
Definition peek (p : Parser) : Token :=
  match tokens p !! current p with
  | Some t => t
  | None => eof
  end.

(** [bool Parser::isAtEnd() const] *)
Definition isAtEnd (p : Parser) : bool :=
  (length (tokens p) <=? current p)%nat ||
  bool_decide (type (peek p) = END_OF_FILE).

(** [bool Parser::check(TokenType type) const] *)
Definition check (t : TokenType) (p : Parser) : bool :=
  if isAtEnd p then false else bool_decide (type (peek p) = t).

(** [Token Parser::previous() const]: [tokens[current - 1]].  Every call
    follows a successful [match] or [check], so [current] is at least 1. *)
Definition previous (p : Parser) : Token :=
  match tokens p !! (current p - 1)%nat with
  | Some t => t
  | None => eof
  end.

(** [Token Parser::advance()] *)
Definition advance (p : Parser) : Parser :=
  if isAtEnd p then p else mkParser (tokens p) (S (current p)).

(** [bool Parser::match(TokenType type)] *)
Definition match_ (t : TokenType) : P bool :=
  fun p => if check t p then Ok true (advance p) else Ok false p.

(** [match(a) || match(b)]: the second call runs when the first fails. *)
Definition orelse (m1 m2 : P bool) : P bool :=
  b <- m1 ;; if b then ret true else m2.

(** [Token Parser::consume(TokenType type, const std::string& message)] *)
Definition consume (t : TokenType) (message : string) : P Token :=
  fun p =>
    if check t p then Ok (previous (advance p)) (advance p)
    else Error (message ++ " at line " ++ pretty (line (peek p))).

(** The loop [while (match(...)) { Token op = previous(); auto right =
    operand(); expr = BinaryOpNode(expr, op.type, right); }] of the
    left-associative levels. *)
Fixpoint binary_loop (fuel : nat) (matches : P bool) (operand : P ASTNode)
    (expr : ASTNode) : P ASTNode :=
  match fuel with
  | O => out_of_fuel
  | S fuel' =>
      m <- matches ;;
      if m then
        op <- (fun p => Ok (previous p) p) ;;
        rhs <- operand ;;
        binary_loop fuel' matches operand (BinaryOpNode expr (type op) rhs)
      else ret expr
  end.

(** The loop [do { list->push_back(parseExpression()); } while
    (match(TokenType::COMMA));] of argument and element lists. *)
Fixpoint expression_list (fuel : nat) (parseExpression : P ASTNode)
    (acc : list ASTNode) : P (list ASTNode) :=
  match fuel with
  | O => out_of_fuel
  | S fuel' =>
      e <- parseExpression ;;
      m <- match_ COMMA ;;
      if m then expression_list fuel' parseExpression (acc ++ [e])
      else ret (acc ++ [e])
  end.

(** ** The precedence levels.  Each takes [parseExpression], the entry of
    the recursion, as an argument; [parseAssignment] ties the knot. *)

Section Levels.
Variable fuel : nat.
Variable parseExpression : P ASTNode.

(** [std::unique_ptr<ASTNode> Parser::parsePrimary()] *)
Definition parsePrimary : P ASTNode :=
  m <- match_ NUMBER ;;
  if m then
    fun p =>
      match stod (value (previous p)) with
      | Some d => Ok (NumberNode d) p
      | None => Error "stod"
      end
  else
  m <- match_ STRING ;;
  if m then (fun p => Ok (StringNode (value (previous p))) p) else
  m <- match_ IDENTIFIER ;;
  if m then (fun p => Ok (VariableNode (value (previous p))) p) else
  m <- match_ TRUE ;;
  if m then ret (BooleanNode true) else
  m <- match_ FALSE ;;
  if m then ret (BooleanNode false) else
  m <- match_ NULL_TOKEN ;;
  if m then ret NullNode else
  m <- match_ LEFT_PAREN ;;
  if m then
    expr <- parseExpression ;;
    consume RIGHT_PAREN "Expected ')' after expression" ;;;
    ret expr
  else
  m <- match_ LEFT_BRACKET ;;
  if m then
    elements <- (fun p =>
                   if negb (check RIGHT_BRACKET p)
                   then expression_list fuel parseExpression [] p
                   else Ok [] p) ;;
    consume RIGHT_BRACKET "Expected ']' after array elements" ;;;
    ret (ArrayNode elements)
  else
    fun p => Error ("Unexpected token: " ++ value (peek p)).

(** The loop [while (true)] of [parsePostfix]. *)
Fixpoint postfix_loop (n : nat) (expr : ASTNode) : P ASTNode :=
  match n with
  | O => out_of_fuel
  | S n' =>
      m <- match_ LEFT_PAREN ;;
      if m then
        args <- (fun p =>
                   if negb (check RIGHT_PAREN p)
                   then expression_list fuel parseExpression [] p
                   else Ok [] p) ;;
        consume RIGHT_PAREN "Expected ')' after arguments" ;;;
        postfix_loop n' (CallNode expr args)
      else
        m <- match_ LEFT_BRACKET ;;
        if m then
          index <- parseExpression ;;
          consume RIGHT_BRACKET "Expected ']' after array index" ;;;
          postfix_loop n' (IndexNode expr index)
        else ret expr
  end.

(** [std::unique_ptr<ASTNode> Parser::parsePostfix()] *)
Definition parsePostfix : P ASTNode :=
  expr <- parsePrimary ;;
  postfix_loop fuel expr.

(** [std::unique_ptr<ASTNode> Parser::parseUnary()] *)
Fixpoint parseUnary_ (n : nat) : P ASTNode :=
  match n with
  | O => out_of_fuel
  | S n' =>
      m <- orelse (match_ NOT) (match_ MINUS) ;;
      if m then
        op <- (fun p => Ok (previous p) p) ;;
        expr <- parseUnary_ n' ;;
        ret (UnaryOpNode (type op) expr)
      else parsePostfix
  end.

Definition parseUnary : P ASTNode := parseUnary_ fuel.

(** [std::unique_ptr<ASTNode> Parser::parseMultiplicative()] *)
Definition parseMultiplicative : P ASTNode :=
  expr <- parseUnary ;;
  binary_loop fuel
    (orelse (match_ MULTIPLY) (orelse (match_ DIVIDE) (match_ MODULO)))
    parseUnary expr.

(** [std::unique_ptr<ASTNode> Parser::parseAdditive()] *)
Definition parseAdditive : P ASTNode :=
  expr <- parseMultiplicative ;;
  binary_loop fuel (orelse (match_ PLUS) (match_ MINUS))
    parseMultiplicative expr.

(** [std::unique_ptr<ASTNode> Parser::parseRelational()] *)
Definition parseRelational : P ASTNode :=
  expr <- parseAdditive ;;
  binary_loop fuel
    (orelse (match_ LESS)
       (orelse (match_ LESS_EQUAL)
          (orelse (match_ GREATER) (match_ GREATER_EQUAL))))
    parseAdditive expr.

(** [std::unique_ptr<ASTNode> Parser::parseEquality()] *)
Definition parseEquality : P ASTNode :=
  expr <- parseRelational ;;
  binary_loop fuel (orelse (match_ EQUAL_EQUAL) (match_ NOT_EQUAL))
    parseRelational expr.

(** [std::unique_ptr<ASTNode> Parser::parseLogicalAnd()] *)
Definition parseLogicalAnd : P ASTNode :=
  expr <- parseEquality ;;
  binary_loop fuel (match_ AND) parseEquality expr.

(** [std::unique_ptr<ASTNode> Parser::parseLogicalOr()] *)
Definition parseLogicalOr : P ASTNode :=
  expr <- parseLogicalAnd ;;
  binary_loop fuel (match_ OR) parseLogicalAnd expr.

End Levels.

(** [std::unique_ptr<ASTNode> Parser::parseAssignment()]; the recursive
    calls, its own and the ones through [parseExpression], get the fuel
    that is left. *)
Fixpoint parseAssignment (fuel : nat) : P ASTNode :=
  match fuel with
  | O => out_of_fuel
  | S fuel' =>
      expr <- parseLogicalOr fuel' (parseAssignment fuel') ;;
      m <- match_ ASSIGN ;;
      if m then
        value <- parseAssignment fuel' ;;
        match expr with
        | VariableNode name => ret (AssignmentNode name value)
        | _ => throw "Invalid assignment target"
        end
      else ret expr
  end.

(** [std::unique_ptr<ASTNode> Parser::parseExpression()] *)
Definition parseExpression (fuel : nat) : P ASTNode := parseAssignment fuel.

(** The left-hand side is an [Identifier]. *)
Definition is_variable (e : ASTNode) : bool :=
  match e with
  | VariableNode _ => true
  | _ => false
  end.

(** The tokens [name =] stand at index [i]. *)
Definition assigns_to (p : Parser) (i : nat) (name : string) : Prop :=
  exists target assign,
    tokens p !! i = Some target /\
    type target = IDENTIFIER /\ value target = name /\
    tokens p !! S i = Some assign /\
    type assign = ASSIGN.

(** [x1 = (x2 = (... = value))] *)
Definition assignments (names : list string) (value : ASTNode) : ASTNode :=
  foldr AssignmentNode value names.

(** A token that continues the expression an identifier starts: the opener
    of a call or of an index, or a binary operator. *)
Definition continues (t : TokenType) : bool :=
  match t with
  | LEFT_PAREN | LEFT_BRACKET
  | MULTIPLY | DIVIDE | MODULO | PLUS | MINUS
  | LESS | LESS_EQUAL | GREATER | GREATER_EQUAL
  | EQUAL_EQUAL | NOT_EQUAL | AND | OR => true
  | _ => false
  end.

End Expressions.

Arguments NumberNode {double} d.
Arguments StringNode {double} s.
Arguments VariableNode {double} name.
Arguments BooleanNode {double} b.
Arguments NullNode {double}.
Arguments ArrayNode {double} elements.
Arguments CallNode {double} callee args.
Arguments IndexNode {double} array index.
Arguments UnaryOpNode {double} op operand.
Arguments BinaryOpNode {double} lhs op rhs.
Arguments AssignmentNode {double} name value.
Arguments is_variable {double} e.
Arguments assignments {double} names value.
Arguments Ok {A} a p.
Arguments Error {A} msg.
Arguments OutOfFuel {A}.

(** ** Statements *)

Section Statements.
Variable double : Type.
Variable stod : string -> option double.

#[local] Set Warnings "-register-all".

Notation "x <- m ;; k" := (bind m (fun x => k))
  (at level 100, m at level 99, right associativity).
Notation "m ;;; k" := (bind m (fun _ => k))
  (at level 100, right associativity).

(** Modelled from the spec: the node classes of statements are not among
    the sources either.  These are the nodes the statement parsers build;
    [ExpressionStatement] is the expression node that
    [parseExpressionStatement] returns as it is. *)
Inductive Statement : Type :=
| ExpressionStatement (expr : ASTNode double)
| IfNode (condition : ASTNode double) (thenBranch : Statement)
         (elseBranch : option Statement)
| WhileNode (condition : ASTNode double) (body : Statement)
| ForNode (init condition increment : option (ASTNode double))
          (body : Statement)
| FunctionNode (name : string) (params : list string) (body : Statement)
| ReturnNode (value : option (ASTNode double))
| BlockNode (statements : list Statement)
| ProgramNode (statements : list Statement).

(** [while (match(TokenType::NEWLINE)) { }] *)
Fixpoint skip_newlines (n : nat) : P unit :=
  match n with
  | O => out_of_fuel
  | S n' =>
      m <- match_ NEWLINE ;;
      if m then skip_newlines n' else ret tt
  end.

(** [if (!check(stop)) { e = parseExpression(); }], [nullptr] otherwise. *)
Definition optional_expression (fuel : nat) (stop : TokenType)
  : P (option (ASTNode double)) :=
  fun p =>
    if negb (check stop p)
    then (e <- parseExpression double stod fuel ;; ret (Some e)) p
    else Ok None p.

(** [std::unique_ptr<ASTNode> Parser::parseExpressionStatement()] *)
Definition parseExpressionStatement (fuel : nat) : P Statement :=
  expr <- parseExpression double stod fuel ;;
  orelse (match_ SEMICOLON) (match_ NEWLINE) ;;;
  ret (ExpressionStatement expr).

(** [std::unique_ptr<ASTNode> Parser::parseReturnStatement()] *)
Definition parseReturnStatement (fuel : nat) : P Statement :=
  consume RETURN "Expected 'return'" ;;;
  value <- (fun p =>
              if negb (check SEMICOLON p) && negb (check NEWLINE p) &&
                 negb (isAtEnd p)
              then (e <- parseExpression double stod fuel ;; ret (Some e)) p
              else Ok None p) ;;
  orelse (match_ SEMICOLON) (match_ NEWLINE) ;;;
  ret (ReturnNode value).

(** The loop [do { Token param = consume(IDENTIFIER, ...);
    params->push_back(param.value); } while (match(TokenType::COMMA));] *)
Fixpoint parameter_list (n : nat) (acc : list string) : P (list string) :=
  match n with
  | O => out_of_fuel
  | S n' =>
      param <- consume IDENTIFIER "Expected parameter name" ;;
      m <- match_ COMMA ;;
      if m then parameter_list n' (acc ++ [value param])
      else ret (acc ++ [value param])
  end.

(** The statement parsers take [parseStatement], the entry of their
    recursion, as an argument; [parseStatement] ties the knot. *)
Section Nested.
Variable fuel : nat.
Variable parseStatement : P Statement.

(** [std::unique_ptr<ASTNode> Parser::parseIfStatement()] *)
Definition parseIfStatement : P Statement :=
  consume IF "Expected 'if'" ;;;
  consume LEFT_PAREN "Expected '(' after 'if'" ;;;
  condition <- parseExpression double stod fuel ;;
  consume RIGHT_PAREN "Expected ')' after if condition" ;;;
  thenBranch <- parseStatement ;;
  m <- match_ ELSE ;;
  if m then
    elseBranch <- parseStatement ;;
    ret (IfNode condition thenBranch (Some elseBranch))
  else ret (IfNode condition thenBranch None).

(** [std::unique_ptr<ASTNode> Parser::parseWhileStatement()] *)
Definition parseWhileStatement : P Statement :=
  consume WHILE "Expected 'while'" ;;;
  consume LEFT_PAREN "Expected '(' after 'while'" ;;;
  condition <- parseExpression double stod fuel ;;
  consume RIGHT_PAREN "Expected ')' after while condition" ;;;
  body <- parseStatement ;;
  ret (WhileNode condition body).

(** [std::unique_ptr<ASTNode> Parser::parseForStatement()] *)
Definition parseForStatement : P Statement :=
  consume FOR "Expected 'for'" ;;;
  consume LEFT_PAREN "Expected '(' after 'for'" ;;;
  init <- optional_expression fuel SEMICOLON ;;
  consume SEMICOLON "Expected ';' after for loop initializer" ;;;
  condition <- optional_expression fuel SEMICOLON ;;
  consume SEMICOLON "Expected ';' after for loop condition" ;;;
  increment <- optional_expression fuel RIGHT_PAREN ;;
  consume RIGHT_PAREN "Expected ')' after for clauses" ;;;
  body <- parseStatement ;;
  ret (ForNode init condition increment body).

(** The loop [while (!check(TokenType::RIGHT_BRACE) && !isAtEnd())] of
    [parseBlock]. *)
Fixpoint block_loop (n : nat) (acc : list Statement) : P (list Statement) :=
  match n with
  | O => out_of_fuel
  | S n' =>
      fun p =>
        if negb (check RIGHT_BRACE p) && negb (isAtEnd p)
        then (s <- parseStatement ;; block_loop n' (acc ++ [s])) p
        else Ok acc p
  end.

(** [std::unique_ptr<ASTNode> Parser::parseBlock()] *)
Definition parseBlock : P Statement :=
  consume LEFT_BRACE "Expected '{'" ;;;
  statements <- block_loop fuel [] ;;
  consume RIGHT_BRACE "Expected '}'" ;;;
  ret (BlockNode statements).

(** [std::unique_ptr<ASTNode> Parser::parseFunctionDeclaration()] *)
Definition parseFunctionDeclaration : P Statement :=
  consume FUNCTION "Expected 'function'" ;;;
  name <- consume IDENTIFIER "Expected function name" ;;
  consume LEFT_PAREN "Expected '(' after function name" ;;;
  params <- (fun p =>
               if negb (check RIGHT_PAREN p) then parameter_list fuel [] p
               else Ok [] p) ;;
  consume RIGHT_PAREN "Expected ')' after parameters" ;;;
  body <- parseBlock ;;
  ret (FunctionNode (value name) params body).

(** The body of [Parser::parseStatement()]. *)
Definition parseStatement_ : P Statement :=
  skip_newlines fuel ;;;
  fun p =>
    if isAtEnd p then Error "Unexpected end of input"
    else
      match type (peek p) with
      | IF => parseIfStatement p
      | WHILE => parseWhileStatement p
      | FOR => parseForStatement p
      | FUNCTION => parseFunctionDeclaration p
      | RETURN => parseReturnStatement fuel p
      | LEFT_BRACE => parseBlock p
      | _ => parseExpressionStatement fuel p
      end.

End Nested.

(** [std::unique_ptr<ASTNode> Parser::parseStatement()]; the nested
    statements get the fuel that is left. *)
Fixpoint parseStatement (fuel : nat) : P Statement :=
  match fuel with
  | O => out_of_fuel
  | S fuel' => parseStatement_ fuel' (parseStatement fuel')
  end.

(** The loop [while (!isAtEnd())] of [parseProgram]. *)
Fixpoint program_loop (fuel n : nat) (acc : list Statement)
  : P (list Statement) :=
  match n with
  | O => out_of_fuel
  | S n' =>
      fun p =>
        if negb (isAtEnd p)
        then (s <- parseStatement fuel ;; program_loop fuel n' (acc ++ [s])) p
        else Ok acc p
  end.

(** [std::unique_ptr<ASTNode> Parser::parseProgram()] *)
Definition parseProgram (fuel : nat) : P Statement :=
  statements <- program_loop fuel fuel [] ;;
  ret (ProgramNode statements).

(** [std::unique_ptr<ASTNode> Parser::parse()] on
    [Parser::Parser(tokens)]; the [catch] logs and rethrows. *)
Definition parse (fuel : nat) (toks : list Token) : result Statement :=
  match toks with
  | [] => Error "No tokens provided"
  | _ => parseProgram fuel (mkParser toks 0)
  end.

End Statements.

Arguments ExpressionStatement {double} expr.
Arguments IfNode {double} condition thenBranch elseBranch.
Arguments WhileNode {double} condition body.
Arguments ForNode {double} init condition increment body.
Arguments FunctionNode {double} name params body.
Arguments ReturnNode {double} value.
Arguments BlockNode {double} statements.
Arguments ProgramNode {double} statements.

(** ** Chains of binary operators *)

Section Chains.
Variable double : Type.

(** What the loop of a level reads from [p] on: after every operator that
    [matches] accepts, [operand] parses the operand that follows it; the
    loop ends at [p'], where [matches] accepts nothing.  The chain holds
    the operators, as [previous()] returns them, each with its right
    operand. *)
Inductive operand_chain (matches : P bool) (operand : P (ASTNode double))
  : Parser -> list (TokenType * ASTNode double) -> Parser -> Prop :=
| chain_end p p' :
    matches p = Ok false p' ->
    operand_chain matches operand p [] p'
| chain_next p p1 rhs p2 rest p' :
    matches p = Ok true p1 ->
    operand p1 = Ok rhs p2 ->
    operand_chain matches operand p2 rest p' ->
    operand_chain matches operand p ((type (previous p1), rhs) :: rest) p'.

(** [((e op1 a) op2 b) op3 c]: every operator is applied to all that
    stands on its left and to the one operand on its right. *)
Definition left_nested (e : ASTNode double)
    (chain : list (TokenType * ASTNode double)) : ASTNode double :=
  foldl (fun acc step => BinaryOpNode acc (fst step) (snd step)) e chain.

(** A level that associates to the left: what [level] returns is the tree
    of its first operand and of the chain of operators, all among [ops],
    and operands behind it, nested to the left; and with a fuel above the
    length of the chain it returns that tree. *)
Definition left_associative (fuel : nat) (ops : list TokenType)
    (matches : P bool) (operand level : P (ASTNode double)) : Prop :=
  (forall p r p',
      level p = Ok r p' ->
      exists e p1 chain,
        operand p = Ok e p1 /\
        operand_chain matches operand p1 chain p' /\
        Forall (fun step => fst step ∈ ops) chain /\
        r = left_nested e chain) /\
  (forall p e p1 chain p',
      operand p = Ok e p1 ->
      operand_chain matches operand p1 chain p' ->
      (length chain < fuel)%nat ->
      level p = Ok (left_nested e chain) p').

End Chains.

(** ** The cursor *)

(** The tokens that are left. *)
Definition remaining (p : Parser) : nat := (length (tokens p) - current p)%nat.

(** The parser has not moved back, nor past the end of the tokens. *)
Definition steady (p p' : Parser) : Prop :=
  tokens p' = tokens p /\
  (current p <= current p')%nat /\
  (current p' <= Nat.max (current p) (length (tokens p)))%nat.

(** The parser has consumed a token. *)
Definition consumes (p p' : Parser) : Prop :=
  tokens p' = tokens p /\
  (current p < current p')%nat /\
  (current p' <= length (tokens p))%nat.

(** What a call from [p] does: with [live], it does not run out of fuel;
    and what it returns satisfies [Q]. *)
Definition runs {A} (live : bool) (p : Parser) (m : P A)
    (Q : A -> Parser -> Prop) : Prop :=
  (live = true -> m p <> OutOfFuel) /\
  forall a p', m p = Ok a p' -> Q a p'.

(** What [match] and its combinations do: the token is consumed, or the
    parser is as it was. *)
Definition matched (p : Parser) (b : bool) (p' : Parser) : Prop :=
  if b then consumes p p' else p' = p.

End Parser.

(* ===================================================================== *)
(** * Properties *)
(* ===================================================================== *)

Module VMFacts.
Import VM.
Local Open Scope vm_scope.

Section Exec.
Variable pc_bits : Z.

Lemma wrap_small w x : 0 <= x < 2 ^ w -> wrap w x = x.
Proof. intros H. unfold wrap. apply Z.mod_small. exact H. Qed.

Lemma wrap_pred_succ w x : wrap w (wrap w (x - 1) + 1) = wrap w x.
Proof.
  unfold wrap. rewrite Zplus_mod_idemp_l. f_equal. lia.
Qed.

Lemma get_reg_lookup vm i v :
  registers vm !! i = Some v -> get_reg i vm = Done v vm.
Proof. intros H. unfold get_reg, bind, gets, ret. simpl. rewrite H. reflexivity. Qed.

Lemma get_reg_valid vm i :
  (i < length (registers vm))%nat -> get_reg i vm = Done (reg vm i) vm.
Proof.
  intros H. destruct (lookup_lt_is_Some_2 _ _ H) as [v Hv].
  unfold reg. rewrite (get_reg_lookup _ _ _ Hv), Hv. reflexivity.
Qed.

(** [pc_++] runs after every dispatch that returns, and only then. *)
Lemma execute_instruction_dispatch instr vm :
  execute_instruction pc_bits instr vm =
  match dispatch pc_bits instr vm with
  | Done _ vm1 => Done tt (set_pc (wrap pc_bits (pc vm1 + 1)) vm1)
  | Throw msg vm1 => Throw msg vm1
  | Undefined => Undefined
  end.
Proof.
  unfold execute_instruction, bind, gets, modify.
  destruct (dispatch pc_bits instr vm); reflexivity.
Qed.

Lemma fetch_at program vm :
  halt_flag vm = false -> 0 <= pc vm ->
  (Z.to_nat (pc vm) < length program)%nat ->
  fetch program vm = program !! Z.to_nat (pc vm).
Proof.
  intros Hh Hp Hlt. unfold fetch. rewrite Hh.
  destruct (Z.ltb_spec (pc vm) (Z.of_nat (length program))) as [_|Hge].
  - reflexivity.
  - lia.
Qed.

(** What the handler of a jump whose branch is taken leaves behind. *)
Lemma dispatch_taken_jump instr vm :
  is_jump (opcode instr) = true ->
  branch_taken instr vm = true ->
  jump_operands_valid instr vm ->
  exists vm1,
    dispatch pc_bits instr vm = Done tt vm1 /\
    pc vm1 = wrap pc_bits (immediate instr - 1) /\
    halt_flag vm1 = halt_flag vm /\
    registers vm1 = registers vm /\
    call_stack vm1 =
      (if decide (opcode instr = CALL) then call_stack vm ++ [pc vm]
       else call_stack vm).
Proof.
  intros Hj Ht Hv. unfold dispatch, branch_taken, jump_operands_valid in *.
  destruct (opcode instr) eqn:Hop; try discriminate Hj;
    cbn [decide] in *;
    unfold execute_jmp, execute_jz, execute_jnz, execute_jlt, execute_jle,
      execute_jgt, execute_jge, execute_call, bind;
    repeat match goal with
    | H : _ /\ _ |- _ => destruct H
    end;
    repeat match goal with
    | H : (?i < length (registers vm))%nat |- context [get_reg ?i vm] =>
        rewrite (get_reg_valid vm i H)
    end;
    try rewrite Ht;
    (eexists; split; [reflexivity|]); repeat split; reflexivity.
Qed.

(** C2.  [pc_] is incremented by exactly one after every dispatch that
    returns; the handler of a jump ([JMP], [JZ], [JNZ], [JLT], [JLE], [JGT],
    [JGE], [CALL]) whose branch is taken sets [pc_] to the immediate minus
    one; so after [execute_instruction] the program counter is the
    immediate [T], and the instruction the run loop executes next is the
    one at index [T]. *)
Theorem taken_jump_executes_target instr vm T :
  is_jump (opcode instr) = true ->
  branch_taken instr vm = true ->
  jump_operands_valid instr vm ->
  immediate instr = T ->
  0 <= T < 2 ^ pc_bits ->
  (forall i v v1,
      dispatch pc_bits i v = Done tt v1 ->
      execute_instruction pc_bits i v =
        Done tt (set_pc (wrap pc_bits (pc v1 + 1)) v1)) /\
  exists vm1 vm',
    dispatch pc_bits instr vm = Done tt vm1 /\
    pc vm1 = wrap pc_bits (T - 1) /\
    execute_instruction pc_bits instr vm = Done tt vm' /\
    pc vm' = T /\
    forall program,
      halt_flag vm = false ->
      (Z.to_nat T < length program)%nat ->
      fetch program vm' = program !! Z.to_nat T.
Proof.
  intros Hj Ht Hv HT Hrange. split.
  - intros i v v1 Hd. rewrite execute_instruction_dispatch, Hd. reflexivity.
  - destruct (dispatch_taken_jump instr vm Hj Ht Hv)
      as (vm1 & Hd & Hpc & Hhalt & _ & _).
    rewrite HT in Hpc.
    exists vm1, (set_pc (wrap pc_bits (pc vm1 + 1)) vm1).
    assert (Hnext : wrap pc_bits (pc vm1 + 1) = T).
    { rewrite Hpc, wrap_pred_succ. apply wrap_small. exact Hrange. }
    repeat split.
    + exact Hd.
    + exact Hpc.
    + rewrite execute_instruction_dispatch, Hd. reflexivity.
    + exact Hnext.
    + intros program Hrun Hlt.
      rewrite fetch_at; simpl; rewrite ?Hnext; try lia; try assumption.
      * reflexivity.
      * rewrite Hhalt. exact Hrun.
Qed.

Lemma last_snoc_Z (l : list Z) x : last (l ++ [x]) = Some x.
Proof. apply last_snoc. Qed.

Lemma execute_instruction_ret ret vm :
  opcode ret = RET ->
  execute_instruction pc_bits ret vm =
  match last (call_stack vm) with
  | None => Throw "Return from empty call stack" vm
  | Some p =>
      Done tt (set_pc (wrap pc_bits (p + 1))
                 (set_call_stack (removelast (call_stack vm)) (set_pc p vm)))
  end.
Proof.
  intros Hop. rewrite execute_instruction_dispatch. unfold dispatch.
  rewrite Hop. unfold execute_ret, bind, gets, modify, throw. simpl.
  destruct (last (call_stack vm)); reflexivity.
Qed.

(** C3.  [CALL] pushes the current [pc_] and jumps to its immediate; a
    later [RET] that finds this entry on top of the call stack pops it and,
    after [pc_++], execution resumes at the instruction following the
    [CALL]; [RET] fails exactly when the call stack is empty, with
    "Return from empty call stack" and the machine untouched. *)
Theorem call_ret_resumes_after_call call ret vm T :
  opcode call = CALL ->
  opcode ret = RET ->
  immediate call = T ->
  0 <= T < 2 ^ pc_bits ->
  0 <= pc vm ->
  pc vm + 1 < 2 ^ pc_bits ->
  (exists vm1,
      execute_instruction pc_bits call vm = Done tt vm1 /\
      call_stack vm1 = call_stack vm ++ [pc vm] /\
      pc vm1 = T /\
      forall vm2,
        call_stack vm2 = call_stack vm1 ->
        exists vm3,
          execute_instruction pc_bits ret vm2 = Done tt vm3 /\
          call_stack vm3 = call_stack vm /\
          pc vm3 = pc vm + 1) /\
  (forall vm2 msg vm',
      execute_instruction pc_bits ret vm2 = Throw msg vm' <->
      call_stack vm2 = [] /\ msg = "Return from empty call stack" /\ vm' = vm2) /\
  (forall vm2, execute_instruction pc_bits ret vm2 <> Undefined).
Proof.
  intros Hcall Hret HT Hrange Hpc0 Hpc1. split; [|split].
  - assert (Hj : is_jump (opcode call) = true) by (rewrite Hcall; reflexivity).
    assert (Ht : branch_taken call vm = true).
    { unfold branch_taken. rewrite Hcall. reflexivity. }
    assert (Hv : jump_operands_valid call vm).
    { unfold jump_operands_valid. rewrite Hcall. exact I. }
    destruct (dispatch_taken_jump call vm Hj Ht Hv)
      as (vm1 & Hd & Hpc & _ & _ & Hcs).
    rewrite Hcall, decide_True in Hcs by reflexivity. rewrite HT in Hpc.
    exists (set_pc (wrap pc_bits (pc vm1 + 1)) vm1).
    split; [|split; [|split]].
    + rewrite execute_instruction_dispatch, Hd. reflexivity.
    + exact Hcs.
    + simpl. rewrite Hpc, wrap_pred_succ. apply wrap_small. exact Hrange.
    + intros vm2 Hcs2. simpl in Hcs2. rewrite Hcs in Hcs2.
      rewrite (execute_instruction_ret ret vm2 Hret), Hcs2, last_snoc_Z.
      eexists. split; [reflexivity|]. simpl. split.
      * apply removelast_last.
      * apply wrap_small. lia.
  - intros vm2 msg vm'. rewrite (execute_instruction_ret ret vm2 Hret).
    destruct (last (call_stack vm2)) eqn:Hl.
    + split; [discriminate|]. intros (Hcs & _ & _).
      rewrite Hcs in Hl. discriminate Hl.
    + apply last_None in Hl. split.
      * intros H. injection H as <- <-. auto.
      * intros (_ & -> & ->). reflexivity.
  - intros vm2. rewrite (execute_instruction_ret ret vm2 Hret).
    destruct (last (call_stack vm2)); discriminate.
Qed.

Lemma set_reg_valid vm i v :
  (i < length (registers vm))%nat ->
  set_reg i v vm = Done tt (set_registers (<[i := v]> (registers vm)) vm).
Proof.
  intros H. unfold set_reg, bind, gets, modify. simpl.
  rewrite decide_True by exact H. reflexivity.
Qed.

(** [DIV] and [MOD] as one case analysis on the divisor register. *)
Lemma execute_div_mod instr vm :
  operands_valid instr vm ->
  let a := reg vm (operand1 instr) in
  let b := reg vm (operand2 instr) in
  execute_div instr vm =
    (if b =? 0 then Throw "Division by zero" vm
     else Done tt (set_registers (<[dest instr := a / b]> (registers vm)) vm)) /\
  execute_mod instr vm =
    (if b =? 0 then Throw "Modulo by zero" vm
     else Done tt (set_registers (<[dest instr := a mod b]> (registers vm)) vm)).
Proof.
  intros (H1 & H2 & Hd). simpl. unfold execute_div, execute_mod, bind.
  rewrite !(get_reg_valid vm _ H1), !(get_reg_valid vm _ H2).
  destruct (reg vm (operand2 instr) =? 0).
  - split; reflexivity.
  - rewrite !set_reg_valid by exact Hd. split; reflexivity.
Qed.

(** C4.  Executing [DIV] ([MOD]) throws "Division by zero" ("Modulo by
    zero") if and only if the second operand register holds 0, and then the
    machine, its registers included, is as it was; otherwise the
    destination register receives the quotient (remainder) of the two
    unsigned 64-bit operands, itself an unsigned 64-bit value. *)
Theorem div_mod_by_zero instr vm :
  operands_valid instr vm ->
  (opcode instr = DIV \/ opcode instr = MOD) ->
  0 <= reg vm (operand1 instr) < 2 ^ 64 ->
  0 <= reg vm (operand2 instr) < 2 ^ 64 ->
  let a := reg vm (operand1 instr) in
  let b := reg vm (operand2 instr) in
  let what := if decide (opcode instr = DIV)
              then "Division by zero" else "Modulo by zero" in
  let result := if decide (opcode instr = DIV) then a / b else a mod b in
  (forall msg vm',
      execute_instruction pc_bits instr vm = Throw msg vm' <->
      b = 0 /\ msg = what /\ vm' = vm) /\
  (b <> 0 ->
   0 <= result < 2 ^ 64 /\
   exists vm',
     execute_instruction pc_bits instr vm = Done tt vm' /\
     registers vm' = <[dest instr := result]> (registers vm)).
Proof.
  intros Hv Hop Ha Hb a b what result.
  destruct (execute_div_mod instr vm Hv) as [Hdiv Hmod].
  fold a b in Hdiv, Hmod.
  assert (Hexec :
    execute_instruction pc_bits instr vm =
    if b =? 0 then Throw what vm
    else Done tt (set_pc (wrap pc_bits (pc vm + 1))
                   (set_registers (<[dest instr := result]> (registers vm)) vm))).
  { rewrite execute_instruction_dispatch. unfold dispatch, what, result.
    destruct Hop as [Hop|Hop]; rewrite Hop.
    - rewrite Hdiv, decide_True by reflexivity.
      destruct (b =? 0); reflexivity.
    - rewrite Hmod, decide_False by discriminate.
      destruct (b =? 0); reflexivity. }
  rewrite Hexec. destruct (Z.eqb_spec b 0) as [Hz|Hnz]; split.
  - intros msg vm'. split.
    + intros H. injection H as <- <-. auto.
    + intros (_ & -> & ->). reflexivity.
  - intros Hne. contradiction.
  - intros msg vm'. split; [discriminate|]. intros (Hz & _). contradiction.
  - intros _. split.
    + unfold result, a, b in *. destruct (decide (opcode instr = DIV)).
      * split; [apply Z.div_pos; lia|].
        apply Z.le_lt_trans with (m := reg vm (operand1 instr)); [|lia].
        apply Z.div_le_upper_bound; nia.
      * assert (0 <= reg vm (operand1 instr) mod reg vm (operand2 instr)
                < reg vm (operand2 instr)) by (apply Z.mod_pos_bound; lia).
        lia.
    + eexists. split; reflexivity.
Qed.

(** ** The byte stack *)

Lemma store_bytes_in_range n : forall mem addr value,
  (addr + n <= length mem)%nat ->
  exists mem', store_bytes mem addr value n = Some mem' /\
               length mem' = length mem.
Proof.
  induction n as [|n IH]; intros mem addr value Hle; simpl.
  - eauto.
  - rewrite decide_True by lia.
    destruct (IH (<[addr := Z.land value 255]> mem) (S addr) (Z.shiftr value 8))
      as (mem' & Hs & Hl).
    + rewrite length_insert. lia.
    + exists mem'. rewrite Hs, Hl, length_insert. auto.
Qed.

Lemma load_bytes_in_range n : forall (mem : list Z) addr,
  (addr + n <= length mem)%nat ->
  exists v, load_bytes mem addr n = Some v.
Proof.
  induction n as [|n IH]; intros mem addr Hle; simpl.
  - eauto.
  - destruct (lookup_lt_is_Some_2 mem addr) as [b Hb]; [lia|].
    destruct (IH mem (S addr)) as [v Hv]; [lia|].
    rewrite Hb, Hv. eauto.
Qed.

(** The checks of [push] and [pop] as the machine evaluates them: the sum
    [sp_ + size] is a [size_t] sum. *)
Lemma push_throws value size vm msg vm' :
  push value size vm = Throw msg vm' <->
  u64 (sp vm + size) > stack_size vm /\ msg = "Stack overflow" /\ vm' = vm.
Proof.
  unfold push, bind, gets, throw, modify, undefined. simpl.
  destruct (Z.gtb_spec (u64 (sp vm + size)) (stack_size vm)) as [Hgt|Hle].
  - split.
    + intros H. injection H as <- <-. split; [lia|auto].
    + intros (_ & -> & ->). reflexivity.
  - split.
    + destruct (store_bytes _ _ _ _); discriminate.
    + intros (Hgt & _). lia.
Qed.

Lemma pop_throws size vm msg vm' :
  pop size vm = Throw msg vm' <->
  sp vm < size /\ msg = "Stack underflow" /\ vm' = vm.
Proof.
  unfold pop, bind, gets, throw, modify, undefined, ret. simpl.
  destruct (Z.ltb_spec (sp vm) size) as [Hlt|Hge].
  - split.
    + intros H. injection H as <- <-. auto.
    + intros (_ & -> & ->). reflexivity.
  - split.
    + destruct (load_bytes _ _ _); discriminate.
    + intros (Hlt & _). lia.
Qed.

(** The bounds checks of the byte stack.  [push(value, size)] throws
    "Stack overflow" if and only if the [size_t] sum [sp + size] exceeds
    [stack_size], [pop(size)] throws "Stack underflow" if and only if
    [sp < size]; a failing call leaves the machine, [sp] included, as it
    was; where [sp + size] is representable it is the sum the machine
    computes, a [push] that fits advances [sp] by [size] and a [pop] that
    fits decreases it by [size]. *)
Theorem push_pop_stack_bounds value size vm :
  0 <= size ->
  0 <= sp vm <= stack_size vm ->
  stack_size vm < 2 ^ 64 ->
  stack_size vm = Z.of_nat (length (stack vm)) ->
  (forall msg vm',
      push value size vm = Throw msg vm' <->
      u64 (sp vm + size) > stack_size vm /\ msg = "Stack overflow" /\ vm' = vm) /\
  (sp vm + size < 2 ^ 64 -> u64 (sp vm + size) = sp vm + size) /\
  (sp vm + size <= stack_size vm ->
   exists vm', push value size vm = Done tt vm' /\ sp vm' = sp vm + size) /\
  (forall msg vm',
      pop size vm = Throw msg vm' <->
      sp vm < size /\ msg = "Stack underflow" /\ vm' = vm) /\
  (size <= sp vm ->
   exists v vm', pop size vm = Done v vm' /\ sp vm' = sp vm - size).
Proof.
  intros Hsize Hsp Hss Hlen.
  assert (Hsum : sp vm + size < 2 ^ 64 -> u64 (sp vm + size) = sp vm + size).
  { intros Hrep. apply wrap_small. lia. }
  split; [|split; [|split; [|split]]].
  - intros msg vm'. apply push_throws.
  - exact Hsum.
  - intros Hfit. unfold push, bind, gets, throw, modify, undefined. simpl.
    rewrite Hsum by lia.
    destruct (Z.gtb_spec (sp vm + size) (stack_size vm)) as [Hgt|_]; [lia|].
    destruct (store_bytes_in_range (Z.to_nat (Z.min size 8)) (stack vm)
                (Z.to_nat (sp vm)) value) as (mem' & Hs & _); [lia|].
    rewrite Hs. eexists. split; reflexivity.
  - intros msg vm'. apply pop_throws.
  - intros Hfit. unfold pop, bind, gets, throw, modify, undefined, ret. simpl.
    destruct (Z.ltb_spec (sp vm) size) as [Hlt|_]; [lia|].
    assert (Hdiff : u64 (sp vm - size) = sp vm - size).
    { apply wrap_small. lia. }
    rewrite Hdiff.
    destruct (load_bytes_in_range (Z.to_nat (Z.min size 8)) (stack vm)
                (Z.to_nat (sp vm - size))) as (v & Hv); [lia|].
    rewrite Hv. eexists _, _. split; reflexivity.
Qed.

(** A [size_t] sum that passes [2^64] once. *)
Lemma u64_wraps_once x : 2 ^ 64 <= x < 2 * 2 ^ 64 -> u64 x = x - 2 ^ 64.
Proof.
  intros H. unfold u64, wrap. symmetry.
  apply (Z.mod_unique x (2 ^ 64) 1); lia.
Qed.

Lemma store_bytes_out_of_range n : forall mem addr value,
  (length mem < addr + n)%nat -> (0 < n)%nat ->
  store_bytes mem addr value n = None.
Proof.
  induction n as [|n IH]; intros mem addr value Hout Hn; [lia|].
  simpl. destruct (decide (addr < length mem)%nat) as [Hlt|]; [|reflexivity].
  destruct n as [|n]; [lia|].
  apply IH; rewrite ?length_insert; lia.
Qed.

(** Where the sum [sp_ + size] of [push] passes [2^64], the check reads the
    wrapped sum, which is below [sp_], and lets the call through: eight
    bytes are copied to [stack_ + sp_], past the end of the buffer when
    fewer than eight are left, and [sp_] moves back; a [pop] of the same
    size then finds too little on the stack. *)
Lemma push_size_wraps value size vm :
  stack_size vm = Z.of_nat (length (stack vm)) ->
  0 <= sp vm <= stack_size vm ->
  stack_size vm + 8 <= 2 ^ 64 ->
  0 <= size < 2 ^ 64 ->
  2 ^ 64 <= sp vm + size ->
  stack_size vm < sp vm + size /\
  (forall msg vm', push value size vm <> Throw msg vm') /\
  (sp vm + 8 <= stack_size vm ->
   exists mem',
     push value size vm
       = Done tt (set_sp (sp vm + size - 2 ^ 64) (set_stack mem' vm)) /\
     sp vm + size - 2 ^ 64 < sp vm /\
     pop size (set_sp (sp vm + size - 2 ^ 64) (set_stack mem' vm))
       = Throw "Stack underflow"
           (set_sp (sp vm + size - 2 ^ 64) (set_stack mem' vm))) /\
  (stack_size vm < sp vm + 8 -> push value size vm = Undefined).
Proof.
  intros Hlen Hsp Hss Hsize Hwrap.
  assert (Hsum : u64 (sp vm + size) = sp vm + size - 2 ^ 64)
    by (apply u64_wraps_once; lia).
  assert (Hmin : Z.min size 8 = 8) by lia.
  assert (Hpush : push value size vm =
            match store_bytes (stack vm) (Z.to_nat (sp vm)) value 8 with
            | Some mem' =>
                Done tt (set_sp (sp vm + size - 2 ^ 64) (set_stack mem' vm))
            | None => Undefined
            end).
  { unfold push, bind, gets, throw, modify, undefined. cbn beta.
    rewrite Hsum, Hmin.
    destruct (Z.gtb_spec (sp vm + size - 2 ^ 64) (stack_size vm)); [lia|].
    change (Z.to_nat 8) with 8%nat.
    destruct (store_bytes (stack vm) (Z.to_nat (sp vm)) value 8); reflexivity. }
  rewrite Hpush. split; [lia|]. split; [|split].
  - intros msg vm'. destruct (store_bytes _ _ _ _); discriminate.
  - intros Hfit.
    destruct (store_bytes_in_range 8 (stack vm) (Z.to_nat (sp vm)) value)
      as (mem' & -> & _); [lia|].
    exists mem'. split; [reflexivity|]. split; [lia|].
    unfold pop, bind, gets, throw. cbn beta.
    change (sp (set_sp (sp vm + size - 2 ^ 64) (set_stack mem' vm)))
      with (sp vm + size - 2 ^ 64).
    destruct (Z.ltb_spec (sp vm + size - 2 ^ 64) size); [reflexivity | lia].
  - intros Hout. rewrite store_bytes_out_of_range by lia. reflexivity.
Qed.

End Exec.

(** ** The theorems at concrete machines *)

Lemma taken_jump_executes_target_witness :
  exists vm',
    execute_instruction 32 (mkInstr JZ 0 0 0 3) (init 64 64) = Done tt vm' /\
    pc vm' = 3.
Proof.
  destruct (taken_jump_executes_target 32 (mkInstr JZ 0 0 0 3) (init 64 64) 3)
    as [_ (vm1 & vm' & _ & _ & He & Hp & _)].
  - reflexivity.
  - reflexivity.
  - vm_compute. lia.
  - reflexivity.
  - split; [lia | reflexivity].
  - exists vm'. split; assumption.
Defined.

Lemma call_ret_resumes_after_call_witness :
  exists vm1 vm3,
    execute_instruction 32 (mkInstr CALL 0 0 0 7) (set_pc 2 (init 64 64))
      = Done tt vm1 /\
    execute_instruction 32 (mkInstr RET 0 0 0 0) vm1 = Done tt vm3 /\
    pc vm3 = 3.
Proof.
  destruct (call_ret_resumes_after_call 32 (mkInstr CALL 0 0 0 7)
              (mkInstr RET 0 0 0 0) (set_pc 2 (init 64 64)) 7)
    as [(vm1 & Hc & _ & _ & Hr) _].
  - reflexivity.
  - reflexivity.
  - reflexivity.
  - split; [lia | reflexivity].
  - simpl. lia.
  - reflexivity.
  - destruct (Hr vm1 eq_refl) as (vm3 & He & _ & Hp).
    exists vm1, vm3. repeat split; assumption.
Defined.

Lemma div_mod_by_zero_witness :
  exists vm',
    execute_instruction 32 (mkInstr DIV 0 1 2 0)
      (set_registers (<[1%nat := 7]> (<[2%nat := 2]> (replicate 16 0)))
         (init 64 64)) = Done tt vm' /\
    registers vm' !! 0%nat = Some 3.
Proof.
  destruct (div_mod_by_zero 32 (mkInstr DIV 0 1 2 0)
              (set_registers (<[1%nat := 7]> (<[2%nat := 2]> (replicate 16 0)))
                 (init 64 64)))
    as [_ Hdone].
  - vm_compute. lia.
  - left. reflexivity.
  - split; [discriminate | reflexivity].
  - split; [discriminate | reflexivity].
  - destruct Hdone as [_ (vm' & He & Hr)].
    + discriminate.
    + exists vm'. split; [exact He|]. rewrite Hr. reflexivity.
Defined.

Lemma push_pop_stack_bounds_witness :
  exists vm',
    push 258 8 (init 64 64) = Done tt vm' /\ sp vm' = 8.
Proof.
  destruct (push_pop_stack_bounds 258 8 (init 64 64))
    as (_ & _ & Hpush & _).
  - discriminate.
  - split; discriminate.
  - reflexivity.
  - reflexivity.
  - destruct Hpush as (vm' & He & Hs).
    + discriminate.
    + exists vm'. split; assumption.
Defined.

(** C5 at [push(258, 2^64 - 8)] on a 16-byte stack that holds eight bytes.
    The sum [sp + size] is [2^64], beyond [stack_size], yet no "Stack
    overflow" is thrown: the call returns with [sp] moved from 8 back to 0,
    and the [pop] of the same size throws "Stack underflow".  With twelve
    bytes on the stack, [push(258, 2^64 - 12)] copies eight bytes to the
    offsets 12 to 19 of the 16-byte buffer. *)
Lemma push_size_wraps_past_the_check :
  exists vm1 vm2 vm3,
    push 0 8 (init 16 16) = Done tt vm1 /\
    sp vm1 = 8 /\ stack_size vm1 = 16 /\
    sp vm1 + (2 ^ 64 - 8) > stack_size vm1 /\
    push 258 (2 ^ 64 - 8) vm1 = Done tt vm2 /\
    sp vm2 = 0 /\
    pop (2 ^ 64 - 8) vm2 = Throw "Stack underflow" vm2 /\
    push 0 12 (init 16 16) = Done tt vm3 /\
    sp vm3 = 12 /\
    sp vm3 + (2 ^ 64 - 12) > stack_size vm3 /\
    push 258 (2 ^ 64 - 12) vm3 = Undefined.
Proof.
  eexists _, _, _.
  split; [vm_compute; reflexivity|].
  split; [reflexivity|]. split; [reflexivity|].
  split; [vm_compute; reflexivity|].
  split; [vm_compute; reflexivity|].
  split; [reflexivity|].
  split; [vm_compute; reflexivity|].
  split; [vm_compute; reflexivity|].
  split; [reflexivity|].
  split; vm_compute; reflexivity.
Qed.

(** ** Bytes in memory *)

(** A number below [2^n] is one whose bits from [n] on are clear. *)
Lemma bounded_by_bits x n :
  0 <= n -> (forall i, n <= i -> Z.testbit x i = false) -> 0 <= x < 2 ^ n.
Proof.
  intros Hn Hbits.
  assert (Hx : x mod 2 ^ n = x).
  { apply Z.bits_inj'. intros i Hi. rewrite Z.testbit_mod_pow2 by exact Hn.
    destruct (Z.ltb_spec i n) as [Hlt|Hge]; [reflexivity|].
    rewrite Hbits by exact Hge. reflexivity. }
  rewrite <- Hx. apply Z.mod_pos_bound. lia.
Qed.

Lemma bits_of_bounded x n :
  0 <= x < 2 ^ n -> forall i, n <= i -> Z.testbit x i = false.
Proof.
  intros Hx i Hi.
  destruct (Z.le_gt_cases 0 n) as [Hn|Hn].
  - rewrite <- (Z.mod_small x (2 ^ n)) by exact Hx.
    rewrite Z.testbit_mod_pow2 by exact Hn.
    destruct (Z.ltb_spec i n); [lia | reflexivity].
  - rewrite Z.pow_neg_r in Hx by exact Hn. lia.
Qed.

(** The [n] low bytes of a value as one number. *)
Lemma low_byte_split v k :
  0 <= k ->
  Z.lor (Z.land v 255) (Z.shiftl (Z.shiftr v 8 mod 2 ^ k) 8) = v mod 2 ^ (k + 8).
Proof.
  intros Hk. apply Z.bits_inj'. intros i Hi.
  rewrite Z.lor_spec, Z.land_spec, Z.testbit_mod_pow2 by lia.
  change 255 with (Z.ones 8). rewrite Z.testbit_ones by lia.
  destruct (Z.leb_spec 0 i) as [_|]; [|lia]. cbn [andb].
  destruct (Z.ltb_spec i 8) as [Hlt|Hge].
  - rewrite Z.shiftl_spec_low by lia.
    destruct (Z.ltb_spec i (k + 8)); [|lia].
    rewrite andb_true_r, orb_false_r. reflexivity.
  - rewrite Z.shiftl_spec by lia. rewrite Z.testbit_mod_pow2 by lia.
    rewrite Z.shiftr_spec by lia. rewrite andb_false_r. cbn [orb].
    replace (i - 8 + 8) with i by lia.
    destruct (Z.ltb_spec (i - 8) k), (Z.ltb_spec i (k + 8)); try lia; reflexivity.
Qed.

Lemma store_bytes_spec n : forall mem addr v mem',
  store_bytes mem addr v n = Some mem' ->
  length mem' = length mem /\
  (addr + n <= length mem \/ n = 0)%nat /\
  forall i, (i < addr \/ addr + n <= i)%nat -> mem' !! i = mem !! i.
Proof.
  induction n as [|n IH]; intros mem addr v mem' Hs; simpl in Hs.
  - injection Hs as <-. split; [reflexivity|]. split; [lia|auto].
  - destruct (decide (addr < length mem)%nat) as [Hlt|]; [|discriminate].
    apply IH in Hs as (Hlen & Hfit & Hframe).
    rewrite length_insert in Hlen, Hfit.
    split; [exact Hlen|]. split; [lia|].
    intros i Hi. rewrite Hframe by lia.
    apply list_lookup_insert_ne. lia.
Qed.

(** What [memcpy] stored is what [memcpy] reads back. *)
Lemma load_store_bytes n : forall mem addr v mem',
  store_bytes mem addr v n = Some mem' ->
  load_bytes mem' addr n = Some (v mod 2 ^ (8 * Z.of_nat n)).
Proof.
  induction n as [|n IH]; intros mem addr v mem' Hs.
  - simpl. rewrite Z.mod_1_r. reflexivity.
  - simpl in Hs.
    destruct (decide (addr < length mem)%nat) as [Hlt|]; [|discriminate].
    pose proof (store_bytes_spec _ _ _ _ _ Hs) as (_ & _ & Hframe).
    cbn [load_bytes]. rewrite Hframe by lia.
    rewrite list_lookup_insert_eq by exact Hlt.
    rewrite (IH _ _ _ _ Hs). f_equal.
    replace (8 * Z.of_nat (S n)) with (8 * Z.of_nat n + 8) by lia.
    apply low_byte_split. lia.
Qed.

Lemma store_bytes_bytes n : forall mem addr v mem',
  store_bytes mem addr v n = Some mem' ->
  Forall is_byte mem -> Forall is_byte mem'.
Proof.
  induction n as [|n IH]; intros mem addr v mem' Hs Hall; simpl in Hs.
  - injection Hs as <-. exact Hall.
  - destruct (decide (addr < length mem)%nat) as [Hlt|]; [|discriminate].
    apply (IH _ _ _ _ Hs). apply Forall_insert; [exact Hall|].
    unfold is_byte. change 255 with (Z.ones 8). rewrite Z.land_ones by lia.
    apply Z.mod_pos_bound. lia.
Qed.

Lemma load_bytes_bound n : forall (mem : list Z) addr v,
  Forall is_byte mem ->
  load_bytes mem addr n = Some v ->
  0 <= v < 2 ^ (8 * Z.of_nat n).
Proof.
  induction n as [|n IH]; intros mem addr v Hall Hl; simpl in Hl.
  - injection Hl as <-. simpl. lia.
  - destruct (mem !! addr) as [b|] eqn:Hb; [|discriminate].
    destruct (load_bytes mem (S addr) n) as [w|] eqn:Hw; [|discriminate].
    injection Hl as <-.
    pose proof (IH _ _ _ Hall Hw) as Hwb.
    assert (Hbyte : 0 <= b < 2 ^ 8).
    { rewrite Forall_forall in Hall. apply Hall.
      apply list_elem_of_lookup. eauto. }
    apply bounded_by_bits; [lia|]. intros i Hi.
    rewrite Z.lor_spec, (bits_of_bounded b 8 Hbyte) by lia.
    rewrite Z.shiftl_spec by lia.
    rewrite (bits_of_bounded w _ Hwb) by lia. reflexivity.
Qed.

(** ** Heap access *)





(** ** The byte stack *)

(** The index of the copy in [peek_stack], once the check has passed. *)
Lemma peek_stack_index s offset size :
  0 <= s < 2 ^ 64 -> u64 (offset + size) <= s ->
  u64 (s - offset - size) = s - u64 (offset + size).
Proof.
  intros Hs Hle. unfold u64, wrap in *.
  pose proof (Z.mod_pos_bound (offset + size) (2 ^ 64)) as Hb.
  pose proof (Z.div_mod (offset + size) (2 ^ 64)) as Hd.
  symmetry.
  apply (Z.mod_unique _ _ (- ((offset + size) / 2 ^ 64))); lia.
Qed.

(** A [push] whose sum [sp_ + size] is representable is undone by the [pop]
    of the same size: it returns the value pushed (the bytes that were
    copied, at most eight) and puts the stack pointer back; in between,
    [peek_stack(0, size)] reads the same value and leaves the machine alone.
    A [push] returns in one other case, when the sum passes [2^64] and the
    check reads the wrapped sum: then [sp_] has moved back, and [pop] and
    [peek_stack] of the same size throw.  [peek_stack(offset, size)], once
    its check has passed, reads at [sp_] minus the wrapped sum
    [offset + size]. *)
Theorem push_then_pop value size vm :
  stack_size vm = Z.of_nat (length (stack vm)) ->
  0 <= sp vm <= stack_size vm ->
  stack_size vm < 2 ^ 64 ->
  0 <= size < 2 ^ 64 ->
  (sp vm + size <= stack_size vm ->
   exists vm1 vm2,
     push value size vm = Done tt vm1 /\
     peek_stack 0 size vm1 = Done (value mod 2 ^ (8 * Z.min size 8)) vm1 /\
     pop size vm1 = Done (value mod 2 ^ (8 * Z.min size 8)) vm2 /\
     sp vm1 = sp vm + size /\
     sp vm2 = sp vm /\
     vm2 = set_sp (sp vm) vm1) /\
  (forall vm1,
      push value size vm = Done tt vm1 ->
      sp vm + size <= stack_size vm \/
      2 ^ 64 <= sp vm + size /\
      sp vm1 = sp vm + size - 2 ^ 64 /\
      pop size vm1 = Throw "Stack underflow" vm1 /\
      peek_stack 0 size vm1 = Throw "Stack read out of bounds" vm1) /\
  (forall offset,
      0 <= offset < 2 ^ 64 ->
      u64 (offset + size) <= sp vm ->
      peek_stack offset size vm =
        match load_bytes (stack vm)
                (Z.to_nat (sp vm - u64 (offset + size)))
                (Z.to_nat (Z.min size 8)) with
        | Some v => Done v vm
        | None => Undefined
        end).
Proof.
  intros Hlen Hsp Hss Hsize. split; [|split].
  - intros Hfit.
    assert (Hsum : u64 (sp vm + size) = sp vm + size)
      by (apply wrap_small; lia).
    destruct (store_bytes_in_range (Z.to_nat (Z.min size 8)) (stack vm)
                (Z.to_nat (sp vm)) value) as (mem' & Hs & Hl); [lia|].
    pose proof (load_store_bytes _ _ _ _ _ Hs) as Hload.
    rewrite Z2Nat.id in Hload by lia.
    exists (set_sp (sp vm + size) (set_stack mem' vm)),
           (set_sp (sp vm) (set_sp (sp vm + size) (set_stack mem' vm))).
    split; [|split; [|split; [|split; [|split]]]]; try reflexivity.
    + unfold push, bind, gets, throw, modify, undefined. simpl. rewrite Hsum.
      destruct (Z.gtb_spec (sp vm + size) (stack_size vm)); [lia|].
      rewrite Hs. reflexivity.
    + unfold peek_stack, bind, gets, throw, undefined, ret. simpl.
      change (0 + size) with size. unfold u64 at 1.
      rewrite (wrap_small 64 size) by lia.
      destruct (Z.ltb_spec (sp vm + size) size); [lia|].
      cbn beta.
      replace (sp vm + size - 0 - size) with (sp vm) by lia.
      unfold u64. rewrite (wrap_small 64 (sp vm)) by lia.
      change (stack (set_sp _ (set_stack mem' vm))) with mem'.
      rewrite Hload. reflexivity.
    + unfold pop, bind, gets, throw, modify, undefined, ret. simpl.
      destruct (Z.ltb_spec (sp vm + size) size); [lia|].
      replace (sp vm + size - size) with (sp vm) by lia.
      unfold u64. rewrite (wrap_small 64 (sp vm)) by lia.
      change (stack (set_sp _ (set_stack mem' vm))) with mem'.
      rewrite Hload. reflexivity.
  - intros vm1 Hdone.
    destruct (Z.le_gt_cases (sp vm + size) (stack_size vm)) as [Hfit|Hover];
      [left; exact Hfit | right].
    destruct (Z.le_gt_cases (2 ^ 64) (sp vm + size)) as [Hwrap|Hrep].
    + split; [exact Hwrap|].
      revert Hdone. unfold push, bind, gets, throw, modify, undefined.
      cbn beta. rewrite u64_wraps_once by lia.
      destruct (Z.gtb_spec (sp vm + size - 2 ^ 64) (stack_size vm)); [lia|].
      destruct (store_bytes _ _ _ _) as [mem'|]; [|discriminate].
      intros Hvm. injection Hvm as <-. split; [reflexivity|]. split.
      * unfold pop, bind, gets, throw. cbn beta.
        change (sp (set_sp (sp vm + size - 2 ^ 64) (set_stack mem' vm)))
          with (sp vm + size - 2 ^ 64).
        destruct (Z.ltb_spec (sp vm + size - 2 ^ 64) size);
          [reflexivity | lia].
      * unfold peek_stack, bind, gets, throw. cbn beta.
        change (sp (set_sp (sp vm + size - 2 ^ 64) (set_stack mem' vm)))
          with (sp vm + size - 2 ^ 64).
        change (0 + size) with size. unfold u64.
        rewrite (wrap_small 64 size) by lia.
        destruct (Z.ltb_spec (sp vm + size - 2 ^ 64) size);
          [reflexivity | lia].
    + exfalso.
      assert (Hthrow : push value size vm = Throw "Stack overflow" vm).
      { apply push_throws. split; [|auto]. unfold u64.
        rewrite wrap_small by lia. lia. }
      rewrite Hthrow in Hdone. discriminate Hdone.
  - intros offset Hoff Hle.
    unfold peek_stack, bind, gets, throw, undefined, ret. cbn beta.
    destruct (Z.ltb_spec (sp vm) (u64 (offset + size))); [lia|].
    rewrite peek_stack_index by lia.
    destruct (load_bytes _ _ _); reflexivity.
Qed.

(** ** The register file *)

(** [read_register] and [write_register] throw "Invalid register index"
    exactly for an index outside the register file, and change nothing
    then; a register that was written reads back the value written, and
    every other register reads as before. *)
Theorem write_then_read_register r value vm :
  length (registers vm) = NUM_REGISTERS ->
  (forall msg vm',
      write_register r value vm = Throw msg vm' <->
      (NUM_REGISTERS <= r)%nat /\
      msg = "Invalid register index" /\ vm' = vm) /\
  (forall msg vm',
      read_register r vm = Throw msg vm' <->
      (NUM_REGISTERS <= r)%nat /\
      msg = "Invalid register index" /\ vm' = vm) /\
  ((r < NUM_REGISTERS)%nat ->
   exists vm',
     write_register r value vm = Done tt vm' /\
     read_register r vm' = Done value vm' /\
     forall r', r' <> r -> read_register r' vm' =
                           match read_register r' vm with
                           | Done v _ => Done v vm'
                           | Throw msg _ => Throw msg vm'
                           | Undefined => Undefined
                           end).
Proof.
  intros Hlen. unfold write_register, read_register.
  split; [|split].
  - intros msg vm'. destruct (Nat.leb_spec NUM_REGISTERS r) as [Hge|Hlt].
    + split; [intros H; injection H as <- <-; repeat split; lia | intros (_ & -> & ->); reflexivity].
    + rewrite set_reg_valid by lia. split; [discriminate | lia].
  - intros msg vm'. destruct (Nat.leb_spec NUM_REGISTERS r) as [Hge|Hlt].
    + split; [intros H; injection H as <- <-; repeat split; lia | intros (_ & -> & ->); reflexivity].
    + rewrite get_reg_valid by lia. split; [discriminate | lia].
  - intros Hlt. destruct (Nat.leb_spec NUM_REGISTERS r) as [Hge|_]; [lia|].
    rewrite set_reg_valid by lia. eexists. split; [reflexivity|]. split.
    + apply get_reg_lookup. simpl. apply list_lookup_insert_eq. lia.
    + intros r' Hne. destruct (Nat.leb_spec NUM_REGISTERS r') as [Hge|Hlt'].
      * reflexivity.
      * rewrite (get_reg_valid vm r') by lia.
        apply get_reg_lookup. simpl.
        rewrite list_lookup_insert_ne by auto. unfold reg.
        destruct (lookup_lt_is_Some_2 (registers vm) r') as [v Hv]; [lia|].
        rewrite Hv. reflexivity.
Qed.

(** ** Exceptions *)

Section Handlers.
Variable pc_bits : Z.

Ltac run_handler :=
  cbv beta iota zeta delta
    [dispatch execute_add execute_sub execute_mul execute_div execute_mod
     execute_and execute_or execute_xor execute_shl execute_shr
     execute_load execute_store execute_loadimm execute_push execute_pop
     execute_jmp execute_jz execute_jnz execute_jlt execute_jle execute_jgt
     execute_jge execute_call execute_ret execute_cmp
     read_memory write_memory push pop get_reg set_reg
     bind gets modify throw undefined ret].

Ltac case_split :=
  repeat match goal with
  | |- context [match ?x with _ => _ end] =>
      lazymatch x with
      | context [match _ with _ => _ end] => fail
      | _ => destruct x eqn:?; run_handler
      end
  end.

Lemma dispatch_throw instr vm msg vm' :
  dispatch pc_bits instr vm = Throw msg vm' ->
  vm' = vm /\ throws_with (opcode instr) msg.
Proof.
  unfold throws_with. run_handler.
  destruct (opcode instr); case_split;
    intros H; try discriminate H; injection H as <- <-; split; reflexivity.
Qed.

Lemma execute_instruction_throws instr vm msg vm' :
  execute_instruction pc_bits instr vm = Throw msg vm' ->
  dispatch pc_bits instr vm = Throw msg vm'.
Proof.
  rewrite execute_instruction_dispatch.
  destruct (dispatch pc_bits instr vm) as [[] vm1|msg1 vm1|];
    try discriminate.
  intros H. exact H.
Qed.

(** An instruction that throws has changed nothing: registers, memory, both
    stacks and [pc_] (which is not incremented) are as they were before it;
    and each opcode throws with its own message only. *)
Theorem execute_instruction_throw instr vm msg vm' :
  execute_instruction pc_bits instr vm = Throw msg vm' ->
  vm' = vm /\ throws_with (opcode instr) msg.
Proof.
  intros H. apply execute_instruction_throws in H.
  exact (dispatch_throw _ _ _ _ H).
Qed.

(** ** The machine stays well formed *)

Lemma is_u64_wrap x : is_u64 (u64 x).
Proof. unfold is_u64, u64, wrap. apply Z.mod_pos_bound. lia. Qed.

Lemma is_u64_bits x : is_u64 x <-> 0 <= x /\ forall i, 64 <= i -> Z.testbit x i = false.
Proof.
  unfold is_u64. split.
  - intros H. split; [lia|]. apply bits_of_bounded. exact H.
  - intros [_ H]. apply bounded_by_bits; [lia | exact H].
Qed.

Lemma is_u64_land a b : is_u64 a -> is_u64 b -> is_u64 (Z.land a b).
Proof.
  rewrite !is_u64_bits. intros [Ha Ha'] [Hb Hb']. split.
  - apply Z.land_nonneg. auto.
  - intros i Hi. rewrite Z.land_spec, Ha' by exact Hi. reflexivity.
Qed.

Lemma is_u64_lor a b : is_u64 a -> is_u64 b -> is_u64 (Z.lor a b).
Proof.
  rewrite !is_u64_bits. intros [Ha Ha'] [Hb Hb']. split.
  - apply Z.lor_nonneg. auto.
  - intros i Hi. rewrite Z.lor_spec, Ha', Hb' by exact Hi. reflexivity.
Qed.

Lemma is_u64_lxor a b : is_u64 a -> is_u64 b -> is_u64 (Z.lxor a b).
Proof.
  rewrite !is_u64_bits. intros [Ha Ha'] [Hb Hb']. split.
  - apply Z.lxor_nonneg. tauto.
  - intros i Hi. rewrite Z.lxor_spec, Ha', Hb' by exact Hi. reflexivity.
Qed.

Lemma is_u64_shiftr a s : is_u64 a -> is_u64 s -> is_u64 (Z.shiftr a s).
Proof.
  rewrite !is_u64_bits. intros [Ha Ha'] [Hs _]. split.
  - apply Z.shiftr_nonneg. exact Ha.
  - intros i Hi. rewrite Z.shiftr_spec by lia. apply Ha'. lia.
Qed.

Lemma is_u64_div a b : is_u64 a -> is_u64 b -> b <> 0 -> is_u64 (a / b).
Proof.
  unfold is_u64. intros Ha Hb Hne. split.
  - apply Z.div_pos; lia.
  - apply Z.div_lt_upper_bound; nia.
Qed.

Lemma is_u64_mod a b : is_u64 a -> is_u64 b -> b <> 0 -> is_u64 (a mod b).
Proof.
  unfold is_u64. intros Ha Hb Hne.
  pose proof (Z.mod_pos_bound a b). lia.
Qed.

Lemma is_u64_load mem addr v :
  Forall is_byte mem -> load_bytes mem addr 8 = Some v -> is_u64 v.
Proof. intros Hm Hl. exact (load_bytes_bound 8 mem addr v Hm Hl). Qed.

Lemma well_formed_reg vm i v :
  well_formed vm -> registers vm !! i = Some v -> is_u64 v.
Proof.
  intros Hwf Hi. exact (proj1 (Forall_lookup _ _) (wf_registers _ Hwf) i v Hi).
Qed.

Lemma well_formed_set_reg vm i v :
  well_formed vm -> is_u64 v ->
  well_formed (set_registers (<[i := v]> (registers vm)) vm).
Proof.
  intros [] Hv. constructor; simpl; try assumption.
  - rewrite length_insert. assumption.
  - apply Forall_insert; assumption.
Qed.

Lemma well_formed_set_pc vm p : well_formed vm -> well_formed (set_pc p vm).
Proof. intros []. constructor; assumption. Qed.

Lemma well_formed_set_call_stack vm c :
  well_formed vm -> well_formed (set_call_stack c vm).
Proof. intros []. constructor; assumption. Qed.

Lemma well_formed_set_halt_flag vm b :
  well_formed vm -> well_formed (set_halt_flag b vm).
Proof. intros []. constructor; assumption. Qed.

Lemma well_formed_set_sp vm s :
  well_formed vm -> 0 <= s <= stack_size vm -> well_formed (set_sp s vm).
Proof. intros [] Hs. constructor; assumption. Qed.

Lemma well_formed_set_heap vm addr v n h' :
  well_formed vm -> store_bytes (heap vm) addr v n = Some h' ->
  well_formed (set_heap h' vm).
Proof.
  intros [? ? ? ? Hb ? ? ? ?] Hs.
  pose proof (store_bytes_spec _ _ _ _ _ Hs) as (Hl & _).
  constructor; simpl; try assumption.
  - rewrite Hl. assumption.
  - exact (store_bytes_bytes _ _ _ _ _ Hs Hb).
Qed.

Lemma well_formed_set_stack vm addr v n mem' :
  well_formed vm -> store_bytes (stack vm) addr v n = Some mem' ->
  well_formed (set_stack mem' vm).
Proof.
  intros [? ? ? ? ? Hb ? ? ?] Hs.
  pose proof (store_bytes_spec _ _ _ _ _ Hs) as (Hl & _).
  constructor; simpl; try assumption.
  - rewrite Hl. assumption.
  - exact (store_bytes_bytes _ _ _ _ _ Hs Hb).
Qed.

Lemma well_formed_init hs ss :
  0 <= hs < 2 ^ 64 -> 0 <= ss < 2 ^ 64 -> well_formed (init hs ss).
Proof.
  intros Hh Hs. constructor; cbn [init heap stack heap_size stack_size registers sp].
  - reflexivity.
  - apply Forall_replicate. unfold is_u64. lia.
  - rewrite length_replicate. lia.
  - rewrite length_replicate. lia.
  - apply Forall_replicate. unfold is_byte. lia.
  - apply Forall_replicate. unfold is_byte. lia.
  - lia.
  - lia.
  - lia.
Qed.

Lemma is_u64_small x : 0 <= x < 3 -> is_u64 x.
Proof. unfold is_u64. lia. Qed.

Ltac well_formed_steps :=
  repeat first
    [ assumption
    | apply well_formed_set_pc
    | apply well_formed_set_call_stack
    | apply well_formed_set_halt_flag
    | apply well_formed_set_reg
    | apply is_u64_wrap
    | apply is_u64_land
    | apply is_u64_lor
    | apply is_u64_lxor
    | apply is_u64_shiftr
    | apply is_u64_div
    | apply is_u64_mod
    | apply is_u64_small; lia
    | eapply well_formed_reg; [|eassumption]
    | eapply is_u64_load; [|eassumption]; apply wf_heap
    | eapply is_u64_load; [|eassumption]; apply wf_stack
    | eapply well_formed_set_heap; [|eassumption]
    | eapply well_formed_set_stack; [|eassumption]
    | match goal with
      | H : (?b =? 0) = false |- ?b <> 0 => apply Z.eqb_neq; exact H
      end ].

Lemma dispatch_well_formed instr vm vm1 :
  well_formed vm ->
  dispatch pc_bits instr vm = Done tt vm1 ->
  well_formed vm1.
Proof.
  intros Hwf. run_handler.
  change (Z.to_nat (Z.min 8 8)) with 8%nat.
  destruct (opcode instr); case_split;
    intros H; try discriminate H; injection H as <-;
    well_formed_steps.
  - (* PUSH *)
    apply well_formed_set_sp; [well_formed_steps|].
    pose proof (is_u64_wrap (sp vm + 8)) as Hu. unfold is_u64 in Hu.
    change (stack_size (set_stack l vm)) with (stack_size vm). lia.
  - (* POP *)
    pose proof (wf_sp _ Hwf) as Hsp. pose proof (wf_stack_size _ Hwf).
    apply (well_formed_set_reg (set_sp (u64 (sp vm - 8)) vm)).
    + apply well_formed_set_sp; [assumption|].
      unfold u64. rewrite wrap_small by lia. lia.
    + eapply is_u64_load; [|eassumption]. apply (wf_stack _ Hwf).
Qed.

(** Every instruction that returns leaves a well-formed machine well
    formed: sixteen registers holding 64-bit values, buffers of the sizes
    the machine was built with holding bytes, and a stack pointer inside
    the stack. *)
Theorem execute_instruction_well_formed instr vm vm' :
  well_formed vm ->
  execute_instruction pc_bits instr vm = Done tt vm' ->
  well_formed vm'.
Proof.
  intros Hwf. rewrite execute_instruction_dispatch.
  destruct (dispatch pc_bits instr vm) as [[] vm1|msg1 vm1|] eqn:Hd;
    try discriminate.
  intros H. injection H as <-. apply well_formed_set_pc.
  exact (dispatch_well_formed _ _ _ Hwf Hd).
Qed.

(** ** Undefined behaviour *)

Lemma u32_range x : 0 <= u32 x < 2 ^ 32.
Proof. unfold u32, wrap. apply Z.mod_pos_bound. lia. Qed.

Ltac expose_fields :=
  cbn
    [set_heap set_stack set_registers set_call_stack set_pc set_sp
     set_halt_flag heap stack heap_size stack_size registers call_stack
     pc sp fp halt_flag] in *.

Ltac small_u64 :=
  match goal with
  | H : context [u64 ?x] |- _ =>
      unfold u64 in H; rewrite (wrap_small 64 x) in H by lia
  end.

Lemma dispatch_undefined instr vm :
  well_formed vm ->
  stack_size vm + 8 < 2 ^ 64 ->
  operands_valid instr vm ->
  dispatch pc_bits instr vm = Undefined <->
  (opcode instr = SHL \/ opcode instr = SHR) /\
  64 <= reg vm (operand2 instr).
Proof.
  intros Hwf Hbig (H1 & H2 & Hd).
  pose proof (wf_registers_length _ Hwf) as Hlen.
  pose proof (wf_heap_length _ Hwf) as Hheap.
  pose proof (wf_stack_length _ Hwf) as Hstack.
  pose proof (wf_heap_size _ Hwf) as Hhs.
  pose proof (wf_sp _ Hwf) as Hsp.
  assert (H15 : (15 < length (registers vm))%nat)
    by (rewrite Hlen; unfold NUM_REGISTERS; lia).
  unfold reg. run_handler.
  change (Z.to_nat (Z.min 8 8)) with 8%nat.
  destruct (opcode instr) eqn:Hop; case_split;
    try (split; [discriminate | intros [[?|?] _]; discriminate]);
    try match goal with
    | H : registers vm !! _ = None |- _ =>
        apply lookup_ge_None in H; lia
    | H : decide _ = right ?n |- _ =>
        exfalso; apply n; expose_fields; rewrite ?length_insert; lia
    end.
  all: repeat match goal with
    | H : (_ <? _) = true |- _ => apply Z.ltb_lt in H
    | H : (_ <? _) = false |- _ => apply Z.ltb_ge in H
    | H : (_ >? _) = false |- _ => rewrite Z.gtb_ltb in H; apply Z.ltb_ge in H
    end.
  all: try (split; [discriminate | intros [_ ?]; simpl in *; lia]).
  all: try (split; [intros _; split; [auto | simpl; lia] | reflexivity]).
  - (* LOAD *)
    exfalso. pose proof (u32_range z) as Hr.
    small_u64.
    destruct (load_bytes_in_range 8 (heap vm) (Z.to_nat (u32 z))) as [v Hv];
      [lia | congruence].
  - (* STORE *)
    exfalso. pose proof (u32_range z) as Hr.
    small_u64.
    destruct (store_bytes_in_range 8 (heap vm) (Z.to_nat (u32 z)) z0)
      as (h' & Hv & _); [lia | congruence].
  - (* PUSH *)
    exfalso. small_u64.
    destruct (store_bytes_in_range 8 (stack vm) (Z.to_nat (sp vm)) z)
      as (h' & Hv & _); [lia | congruence].
  - (* POP *)
    exfalso. expose_fields. small_u64.
    destruct (load_bytes_in_range 8 (stack vm) (Z.to_nat (sp vm - 8)))
      as [v Hv]; [lia | congruence].
Qed.

(** On a well-formed machine whose instruction names existing registers,
    the bounds checks of the handlers leave one way into behaviour that
    C++ does not define: [SHL] or [SHR] with a shift count of 64 or more.
    No memory access, stack access or register access is out of range. *)
Theorem execute_instruction_undefined instr vm :
  well_formed vm ->
  stack_size vm + 8 < 2 ^ 64 ->
  operands_valid instr vm ->
  execute_instruction pc_bits instr vm = Undefined <->
  (opcode instr = SHL \/ opcode instr = SHR) /\
  64 <= reg vm (operand2 instr).
Proof.
  intros Hwf Hbig Hv. rewrite <- (dispatch_undefined instr vm Hwf Hbig Hv).
  rewrite execute_instruction_dispatch.
  destruct (dispatch pc_bits instr vm) as [[] vm1|msg1 vm1|];
    split; first [discriminate | reflexivity].
Qed.
End Handlers.

(** ** The run loop *)

Section Run.
Variable pc_bits : Z.

Lemma fetch_None program vm :
  0 <= pc vm ->
  fetch program vm = None ->
  halt_flag vm = true \/ Z.of_nat (length program) <= pc vm.
Proof.
  intros Hpc. unfold fetch. destruct (halt_flag vm); [auto|].
  destruct (Z.ltb_spec (pc vm) (Z.of_nat (length program))) as [Hlt|Hge];
    [|auto].
  intros H. apply lookup_ge_None in H. lia.
Qed.

Lemma execute_instruction_pc instr vm vm' :
  0 <= pc_bits ->
  execute_instruction pc_bits instr vm = Done tt vm' ->
  0 <= pc vm' < 2 ^ pc_bits.
Proof.
  intros Hbits. rewrite execute_instruction_dispatch.
  destruct (dispatch pc_bits instr vm) as [[] vm1|msg1 vm1|];
    try discriminate.
  intros H. injection H as <-. simpl. unfold wrap.
  apply Z.mod_pos_bound. lia.
Qed.

Lemma run_loop_exit fuel : forall program vm r,
  0 <= pc_bits ->
  0 <= pc vm ->
  run_loop pc_bits fuel program vm = Some r ->
  match r with
  | Done _ vm' =>
      halt_flag vm' = true \/ Z.of_nat (length program) <= pc vm'
  | Throw msg vm' =>
      exists instr,
        fetch program vm' = Some instr /\
        execute_instruction pc_bits instr vm' = Throw msg vm' /\
        throws_with (opcode instr) msg
  | Undefined => True
  end.
Proof.
  induction fuel as [|fuel IH]; intros program vm r Hbits Hpc; simpl.
  - destruct (fetch program vm) eqn:Hf; [discriminate|].
    intros H. injection H as <-. exact (fetch_None _ _ Hpc Hf).
  - destruct (fetch program vm) as [instr|] eqn:Hf.
    + destruct (execute_instruction pc_bits instr vm) as [[] vm1|msg vm1|] eqn:He.
      * apply IH; [exact Hbits|].
        apply (execute_instruction_pc _ _ _ Hbits He).
      * intros H. injection H as <-.
        destruct (dispatch_throw _ _ _ _ _
                    (execute_instruction_throws _ _ _ _ _ He)) as [-> Hm].
        exists instr. auto.
      * intros H. injection H as <-. exact I.
    + intros H. injection H as <-. exact (fetch_None _ _ Hpc Hf).
Qed.

(** [run] returns only once the machine has halted or [pc_] has left the
    program; when it throws, the machine is as it was before the
    instruction at [pc_], which is the one that threw. *)
Theorem run_exit fuel program vm r :
  0 <= pc_bits ->
  run pc_bits fuel program vm = Some r ->
  match r with
  | Done _ vm' =>
      halt_flag vm' = true \/ Z.of_nat (length program) <= pc vm'
  | Throw msg vm' =>
      exists instr,
        fetch program vm' = Some instr /\
        execute_instruction pc_bits instr vm' = Throw msg vm' /\
        throws_with (opcode instr) msg
  | Undefined => True
  end.
Proof.
  intros Hbits. unfold run. apply run_loop_exit; [exact Hbits|].
  simpl. lia.
Qed.

(** Fuel only bounds the number of iterations: a run that ends within
    [fuel] iterations ends the same way with more. *)
Lemma run_loop_more_fuel fuel : forall k program vm r,
  run_loop pc_bits fuel program vm = Some r ->
  run_loop pc_bits (fuel + k) program vm = Some r.
Proof.
  induction fuel as [|fuel IH]; intros k program vm r; simpl.
  - destruct (fetch program vm) eqn:Hf; [discriminate|].
    intros H. destruct k; simpl; rewrite Hf; exact H.
  - destruct (fetch program vm) as [instr|] eqn:Hf; [|auto].
    destruct (execute_instruction pc_bits instr vm) as [[] vm1|msg vm1|];
      [apply IH | auto | auto].
Qed.

(** ** Snapshots *)

(** [get_state] captures the registers, [pc_], [sp_], [fp_] and the halt
    flag, and nothing else: restoring a snapshot taken before a [CALL]
    resets [pc_] but leaves the return address on the call stack, so the
    machine is not the one the snapshot was taken of. *)
Theorem set_state_keeps_call_stack instr vm vm' :
  opcode instr = CALL ->
  execute_instruction pc_bits instr vm = Done tt vm' ->
  get_state (set_state (get_state vm) vm') = get_state vm /\
  call_stack (set_state (get_state vm) vm') = call_stack vm ++ [pc vm] /\
  heap (set_state (get_state vm) vm') = heap vm' /\
  stack (set_state (get_state vm) vm') = stack vm' /\
  set_state (get_state vm) vm' <> vm.
Proof.
  intros Hop. rewrite execute_instruction_dispatch. unfold dispatch.
  rewrite Hop. unfold execute_call, bind, gets, modify.
  intros H. injection H as <-.
  split; [reflexivity|]. split; [reflexivity|].
  split; [reflexivity|]. split; [reflexivity|].
  intros Heq. apply (f_equal call_stack) in Heq. simpl in Heq.
  apply (f_equal length) in Heq. rewrite length_app in Heq. simpl in Heq. lia.
Qed.
End Run.

(** ** The allocator *)






Lemma push_then_pop_witness :
  exists vm1 vm2,
    push 258 8 (init 16 16) = Done tt vm1 /\
    pop 8 vm1 = Done 258 vm2 /\
    sp vm2 = 0.
Proof.
  destruct (push_then_pop 258 8 (init 16 16)) as (Hfit & _).
  - reflexivity.
  - simpl. lia.
  - reflexivity.
  - lia.
  - destruct Hfit as (vm1 & vm2 & Hpush & _ & Hpop & _ & Hsp & _).
    + discriminate.
    + exists vm1, vm2. split; [exact Hpush|]. split; [exact Hpop | exact Hsp].
Defined.

Lemma write_then_read_register_witness :
  exists vm',
    write_register 3 7 (init 16 16) = Done tt vm' /\
    read_register 3 vm' = Done 7 vm'.
Proof.
  destruct (write_then_read_register 3 7 (init 16 16)) as (_ & _ & H).
  - reflexivity.
  - destruct H as (vm' & Hw & Hr & _).
    + unfold NUM_REGISTERS. lia.
    + exists vm'. split; [exact Hw | exact Hr].
Defined.

Lemma execute_instruction_throw_witness :
  execute_instruction 64 (mkInstr RET 0 0 0 0) (init 16 16)
    = Throw "Return from empty call stack" (init 16 16) /\
  throws_with RET "Return from empty call stack".
Proof.
  split.
  - reflexivity.
  - exact (proj2 (execute_instruction_throw 64 (mkInstr RET 0 0 0 0)
                    (init 16 16) "Return from empty call stack" (init 16 16)
                    eq_refl)).
Defined.

Lemma execute_instruction_well_formed_witness :
  well_formed (set_pc 1 (set_registers (<[0%nat := 5]> (registers (init 16 16)))
                           (init 16 16))).
Proof.
  apply (execute_instruction_well_formed 64 (mkInstr LOADIMM 0 0 0 5)
           (init 16 16)).
  - apply well_formed_init; lia.
  - reflexivity.
Defined.

Lemma execute_instruction_undefined_witness :
  execute_instruction 64 (mkInstr SHL 0 1 2 0)
    (set_registers (<[2%nat := 64]> (registers (init 16 16))) (init 16 16))
  = Undefined.
Proof.
  apply (execute_instruction_undefined 64).
  - apply well_formed_set_reg; [apply well_formed_init; lia|].
    unfold is_u64. lia.
  - reflexivity.
  - unfold operands_valid. simpl. lia.
  - split; [left; reflexivity|]. vm_compute. discriminate.
Defined.

Lemma run_exit_witness :
  exists vm',
    run 64 2 [mkInstr LOADIMM 0 0 0 5; mkInstr HALT 0 0 0 0] (init 16 16)
      = Some (Done tt vm') /\
    (halt_flag vm' = true \/ 2 <= pc vm').
Proof.
  eexists. split; [reflexivity|].
  apply (run_exit 64 2 [mkInstr LOADIMM 0 0 0 5; mkInstr HALT 0 0 0 0]
           (init 16 16) (Done tt _)).
  - lia.
  - reflexivity.
Defined.

Lemma set_state_keeps_call_stack_witness :
  exists vm',
    execute_instruction 64 (mkInstr CALL 0 0 0 7) (init 16 16) = Done tt vm' /\
    call_stack (set_state (get_state (init 16 16)) vm') = [0] /\
    set_state (get_state (init 16 16)) vm' <> init 16 16.
Proof.
  eexists. split; [reflexivity|].
  destruct (set_state_keeps_call_stack 64 (mkInstr CALL 0 0 0 7) (init 16 16) _
              eq_refl eq_refl) as (_ & Hcs & _ & _ & Hne).
  split; [exact Hcs | exact Hne].
Defined.


End VMFacts.

Module CompilerFacts.
Import Compiler.

(** ** Variable lookup *)

Section Lookup.
Variable Value : Type.

Lemma lookupVariable_unfold n (c : Compiler Value) :
  lookupVariable Value n c =
  Ok (match last (scope_stack Value c) with
      | Some top => scope_lookupVariable n top
      | None => UINT32_MAX
      end) c.
Proof.
  unfold lookupVariable, bind, gets, ret. simpl.
  destruct (last (scope_stack Value c)); reflexivity.
Qed.

(** C7, as the code has it.  [lookupVariable] consults the scope on top of
    the stack and no other: the result is the slot the top scope holds for
    the name, or [UINT32_MAX] when the top scope does not bind it, whatever
    the scopes below bind; on an empty stack it is [UINT32_MAX]. *)
Theorem lookupVariable_top_scope_only n (c : Compiler Value) below top :
  scope_stack Value c = below ++ [top] ->
  lookupVariable Value n c = Ok (scope_lookupVariable n top) c /\
  (forall slot, variables top !! n = Some slot ->
     lookupVariable Value n c = Ok slot c) /\
  (variables top !! n = None ->
     lookupVariable Value n c = Ok UINT32_MAX c) /\
  (forall c', scope_stack Value c' = [] ->
     lookupVariable Value n c' = Ok UINT32_MAX c').
Proof.
  intros Hss. rewrite lookupVariable_unfold, Hss, last_snoc.
  split; [reflexivity|]. unfold scope_lookupVariable. split; [|split].
  - intros slot Hs. rewrite Hs. reflexivity.
  - intros Hn. rewrite Hn. reflexivity.
  - intros c' He. rewrite lookupVariable_unfold, He. reflexivity.
Qed.

End Lookup.

Lemma lookupVariable_top_scope_only_witness :
  lookupVariable unit "x"
    (set_scope_stack unit
       [new_FunctionScope "f" ["x"]; new_FunctionScope "g" ["y"; "x"]]
       (new_Compiler unit))
  = Ok 1
      (set_scope_stack unit
         [new_FunctionScope "f" ["x"]; new_FunctionScope "g" ["y"; "x"]]
         (new_Compiler unit)).
Proof.
  destruct (lookupVariable_top_scope_only unit "x"
              (set_scope_stack unit
                 [new_FunctionScope "f" ["x"]; new_FunctionScope "g" ["y"; "x"]]
                 (new_Compiler unit))
              [new_FunctionScope "f" ["x"]] (new_FunctionScope "g" ["y"; "x"]))
    as (_ & Hslot & _).
  - reflexivity.
  - apply Hslot. vm_compute. reflexivity.
Defined.

(** C7 with a top-down scan does not hold.  With [x] bound in the enclosing
    function scope and an empty scope on top (what [visitForLoop] pushes),
    a top-down scan finds slot 0, and [lookupVariable] returns
    [UINT32_MAX]. *)
Lemma lookupVariable_misses_enclosing_scope :
  scope_stack unit
    (set_scope_stack unit
       [new_FunctionScope "f" ["x"]; new_FunctionScope "for_loop" []]
       (new_Compiler unit)) <> [] /\
  lookup_top_down "x"
    [new_FunctionScope "f" ["x"]; new_FunctionScope "for_loop" []] = 0 /\
  lookupVariable unit "x"
    (set_scope_stack unit
       [new_FunctionScope "f" ["x"]; new_FunctionScope "for_loop" []]
       (new_Compiler unit))
  = Ok UINT32_MAX
      (set_scope_stack unit
         [new_FunctionScope "f" ["x"]; new_FunctionScope "for_loop" []]
         (new_Compiler unit)) /\
  lookupVariable unit "x"
    (set_scope_stack unit
       [new_FunctionScope "f" ["x"]; new_FunctionScope "for_loop" []]
       (new_Compiler unit))
  <> Ok (lookup_top_down "x"
           [new_FunctionScope "f" ["x"]; new_FunctionScope "for_loop" []])
        (set_scope_stack unit
           [new_FunctionScope "f" ["x"]; new_FunctionScope "for_loop" []]
           (new_Compiler unit)).
Proof.
  split; [discriminate|]. split; [vm_compute; reflexivity|].
  split; [vm_compute; reflexivity|].
  vm_compute. intros H. discriminate H.
Qed.

(** ** Function epilogues *)

Section Epilogue.
Variable Value : Type.
Variable MAX_REGISTERS : Z.

Lemma stable_ret {A} (a : A) : stable Value (ret Value a).
Proof. intros c a' c' HP H. injection H as _ <-. exact HP. Qed.

Lemma stable_throw {A} msg : stable Value (throw Value (A := A) msg).
Proof. intros c a c' _ H. discriminate H. Qed.

Lemma stable_gets {A} (f : Compiler Value -> A) : stable Value (gets Value f).
Proof. intros c a c' HP H. injection H as _ <-. exact HP. Qed.

Lemma stable_bind {A B} (m : C Value A) (k : A -> C Value B) :
  stable Value m -> (forall a, stable Value (k a)) -> stable Value (bind Value m k).
Proof.
  intros Hm Hk c b c' HP H. unfold bind in H.
  destruct (m c) as [a c1|msg] eqn:Hmc; [|discriminate H].
  exact (Hk a c1 b c' (Hm c a c1 HP Hmc) H).
Qed.

(** A state update that leaves the module alone. *)
Lemma stable_modify f :
  (forall c, current_module Value (f c) = current_module Value c) ->
  stable Value (modify Value f).
Proof.
  intros Hf c a c' HP H. injection H as _ <-.
  unfold all_return in *. rewrite Hf. exact HP.
Qed.

Lemma stable_emit op ops : stable Value (emit Value op ops).
Proof. apply stable_modify. reflexivity. Qed.

Lemma stable_allocateRegister : stable Value (allocateRegister Value MAX_REGISTERS).
Proof.
  apply stable_bind; [apply stable_gets|]. intros r.
  destruct (r <? MAX_REGISTERS).
  - apply stable_modify. reflexivity.
  - apply stable_throw.
Qed.

Lemma stable_genLabel : stable Value (genLabel Value).
Proof.
  apply stable_bind; [apply stable_gets|]. intros l.
  apply stable_bind; [apply stable_modify; reflexivity|]. intros _.
  apply stable_ret.
Qed.

Lemma stable_markLabel l : stable Value (markLabel Value l).
Proof. apply stable_modify. reflexivity. Qed.

Lemma stable_lookupVariable n : stable Value (lookupVariable Value n).
Proof.
  apply stable_bind; [apply stable_gets|]. intros ss.
  destruct (last ss); apply stable_ret.
Qed.

Lemma stable_allocateVariable n : stable Value (allocateVariable Value n).
Proof.
  apply stable_bind; [apply stable_gets|]. intros ss.
  destruct (last ss) as [top|]; [|apply stable_throw].
  destruct (scope_allocateVariable n top) as [slot top'].
  apply stable_bind; [apply stable_modify; reflexivity|]. intros _.
  apply stable_ret.
Qed.

Lemma stable_pushScope s : stable Value (pushScope Value s).
Proof. apply stable_modify. reflexivity. Qed.

Lemma stable_popScope : stable Value (popScope Value).
Proof. apply stable_modify. reflexivity. Qed.

Lemma stable_last_register : stable Value (last_register Value).
Proof.
  apply stable_bind; [apply stable_gets|]. intros r. apply stable_ret.
Qed.

Lemma stable_binaryOpToOpCode op : stable Value (binaryOpToOpCode Value op).
Proof.
  unfold binaryOpToOpCode.
  repeat match goal with
  | |- context [String.eqb ?a ?b] => destruct (String.eqb a b)
  end; first [apply stable_ret | apply stable_throw].
Qed.

Lemma stable_unaryOpToOpCode op : stable Value (unaryOpToOpCode Value op).
Proof.
  unfold unaryOpToOpCode.
  repeat match goal with
  | |- context [String.eqb ?a ?b] => destruct (String.eqb a b)
  end; first [apply stable_ret | apply stable_throw].
Qed.

Lemma stable_for_each visit nodes :
  Forall (fun n => stable Value (visit n)) nodes ->
  stable Value (for_each Value visit nodes).
Proof.
  induction 1 as [|n nodes Hn _ IH]; simpl.
  - apply stable_ret.
  - apply stable_bind; [exact Hn | intros _; exact IH].
Qed.

Lemma stable_visit_arguments visit args :
  Forall (fun n => stable Value (visit n)) args ->
  forall regs, stable Value (visit_arguments Value visit args regs).
Proof.
  induction 1 as [|n args Hn _ IH]; intros regs; simpl.
  - apply stable_ret.
  - apply stable_bind; [exact Hn | intros _].
    apply stable_bind; [apply stable_last_register | intros r; apply IH].
Qed.

Create HintDb stable.
#[local] Hint Resolve stable_ret stable_throw stable_gets stable_emit
  stable_allocateRegister stable_genLabel stable_markLabel
  stable_lookupVariable stable_allocateVariable stable_pushScope
  stable_popScope stable_last_register stable_binaryOpToOpCode
  stable_unaryOpToOpCode : stable.

(** Splits a sequence of binds and closes the steps that are helpers. *)
Ltac stable_steps :=
  repeat first
    [ solve [ auto with stable ]
    | apply stable_bind; [ | intros ? ]
    | apply stable_for_each
    | apply stable_visit_arguments ].

(** The epilogue of [visitFunctionDef]: whatever the body emitted, the
    bytecode that is registered ends with [Return]. *)
Lemma stable_visitFunctionDef visit fname params body :
  Forall (fun n => stable Value (visit n)) body ->
  stable Value (visitFunctionDef Value visit fname params body).
Proof.
  intros Hbody. unfold visitFunctionDef, visitBlock.
  apply stable_bind; [apply stable_pushScope | intros _].
  apply stable_bind; [apply stable_for_each; exact Hbody | intros _].
  intros c a c' HP H. unfold bind, gets, modify, emit, popScope, ret in H.
  simpl in H.
  assert (Hreg : forall code (m : Compiler Value),
            all_return Value m -> ends_with_return code ->
            Forall (fun f => ends_with_return (bytecode f))
              (functions Value (current_module Value m) ++
               [mkFunction fname (Z.of_nat (length params)) params code])).
  { intros code m Hm Hcode. apply Forall_app. split; [exact Hm|].
    constructor; [exact Hcode | constructor]. }
  destruct (lacks_return (current_bytecode Value c)) eqn:Hlack;
    simpl in H; injection H as _ <-; unfold all_return; simpl;
    apply Hreg; try exact HP.
  - exists (mkInstr Return []). split; [apply last_snoc | reflexivity].
  - unfold lacks_return in Hlack.
    destruct (last (current_bytecode Value c)) as [i|] eqn:Hlast;
      [|discriminate Hlack].
    exists i. split; [exact Hlast|].
    apply bool_decide_eq_false in Hlack.
    destruct (decide (opcode i = Return)) as [Heq|Hne]; [exact Heq|].
    contradiction.
Qed.

(** A literal grows the constant pool, not the list of functions. *)
Lemma stable_visitLiteral value :
  stable Value (visitLiteral Value MAX_REGISTERS value).
Proof.
  intros c u c' HP H.
  unfold visitLiteral, addConstant, allocateRegister, emit, bind, gets,
    modify, throw in H.
  simpl in H.
  destruct (current_register Value c <? MAX_REGISTERS); [|discriminate H].
  injection H as _ <-. exact HP.
Qed.

(** Every registered function ends with [Return], whatever is compiled. *)
Lemma stable_visitNode : forall node, stable Value (visitNode Value MAX_REGISTERS node).
Proof.
  fix IH 1. intros node.
  assert (Hall : forall nodes,
            Forall (fun n => stable Value (visitNode Value MAX_REGISTERS n)) nodes).
  { intros nodes. induction nodes; constructor; [apply IH | assumption]. }
  destruct node; simpl;
    unfold visitProgram, visitBlock, visitBinaryOp, visitUnaryOp,
      visitIdentifier, visitAssignment, visitIfStatement, visitWhileLoop,
      visitForLoop, visitFunctionCall, visitReturnStatement,
      visitArrayLiteral, visitIndexAccess;
    try apply stable_visitLiteral;
    try (apply stable_visitFunctionDef, Hall);
    repeat first
      [ apply IH
      | apply Hall
      | progress stable_steps
      | match goal with
        | |- stable _ (if ?b then _ else _) => destruct b
        | |- stable _ (match ?o with Some _ => _ | None => _ end) => destruct o
        end ].
Qed.

(** A call of [compile] that returns has lowered the tree, and returns
    what [finalize] made of the module. *)
Lemma compile_Ok finalize root c m c' :
  compile Value MAX_REGISTERS finalize root c = Ok m c' ->
  exists c1,
    visitNode Value MAX_REGISTERS root
      (set_module Value (mkModule Value [] []) c) = Ok tt c1 /\
    finalize (current_module Value c1) = inr m /\
    c' = set_module Value m c1.
Proof.
  unfold compile.
  destruct (visitNode Value MAX_REGISTERS root
              (set_module Value (mkModule Value [] []) c))
    as [[] c1|msg]; [|discriminate].
  destruct (finalize (current_module Value c1)) as [msg|m0] eqn:Hf;
    [discriminate|].
  intros H. injection H as <- <-. exists c1. auto.
Qed.

(** What [compile] registers: whatever state the compiler is in when
    [compile] is called, and whatever [finalize] does, the final
    instruction of every function of the module that is handed to
    [finalize] is [Return]. *)
Theorem compiled_functions_end_with_return finalize root c m c' :
  compile Value MAX_REGISTERS finalize root c = Ok m c' ->
  exists lowered,
    finalize lowered = inr m /\
    forall f, f ∈ functions Value lowered ->
    exists i, last (bytecode f) = Some i /\ opcode i = Return.
Proof.
  intros H. apply compile_Ok in H as (c1 & Hv & Hf & _).
  exists (current_module Value c1). split; [exact Hf|]. intros f Hin.
  assert (Hall : all_return Value c1).
  { apply (stable_visitNode root
             (set_module Value (mkModule Value [] []) c) tt c1); [|exact Hv].
    unfold all_return. simpl. constructor. }
  unfold all_return in Hall. rewrite Forall_forall in Hall.
  exact (Hall f Hin).
Qed.

End Epilogue.

Lemma compiled_functions_end_with_return_witness :
  exists m c,
    compile unit 256 inr
      (Program [FunctionDef "f" [] []; FunctionDef "g" ["x"]
                  [ReturnStatement (Some (Identifier "x"))]])
      (new_Compiler unit) = Ok m c /\
    exists lowered,
      inr lowered = inr (A := string) m /\
      forall f, f ∈ functions unit lowered ->
        exists i, last (bytecode f) = Some i /\ opcode i = Return.
Proof.
  eexists _, _. split.
  - vm_compute. reflexivity.
  - eapply (compiled_functions_end_with_return unit 256 inr
              (Program [FunctionDef "f" [] []; FunctionDef "g" ["x"]
                          [ReturnStatement (Some (Identifier "x"))]])
              (new_Compiler unit)).
    vm_compute. reflexivity.
Defined.

(** C1 at [function f(x) { if (x) {} else { return; } }], compiled by a
    compiler that has compiled nothing.  The bytecode of [f] ends with the
    [Return] of the else branch, so nothing is appended; the [Jump] that
    leaves the then branch names the label marked after that [Return], at
    index 5 of a five-instruction vector: the path 0, 1, 2, 5 leaves the
    function without executing [Return].  This is the module that
    [compile] hands to [finalize]. *)
Lemma compile_if_else_return_falls_off_end :
  forall finalize, exists c f,
    compile unit 256 finalize
      (Program
         [FunctionDef "f" ["x"]
            [IfStatement (Identifier "x") []
               (Some [ReturnStatement None])]]) (new_Compiler unit)
    = match finalize (current_module unit c) with
      | inr m => Ok m (set_module unit m c)
      | inl msg => Err ("Compilation error: " ++ msg)
      end /\
    functions unit (current_module unit c) = [f] /\
    bytecode f =
      [mkInstr LoadVar [0]; mkInstr JumpIfFalse [0; 0]; mkInstr Jump [1];
       mkInstr LoadConst [0]; mkInstr Return []] /\
    lacks_return (bytecode f) = false /\
    label_positions unit c !! 1 = Some 5 /\
    path (label_positions unit c) (bytecode f) 0 [1; 2; 5]%nat = true /\
    bytecode f !! 5%nat = None.
Proof.
  intros finalize.
  assert (Hlower : exists c,
            visitNode unit 256
              (Program
                 [FunctionDef "f" ["x"]
                    [IfStatement (Identifier "x") []
                       (Some [ReturnStatement None])]])
              (set_module unit (mkModule unit [] []) (new_Compiler unit))
            = Ok tt c /\
            functions unit (current_module unit c) =
              [mkFunction "f" 1 ["x"]
                 [mkInstr LoadVar [0]; mkInstr JumpIfFalse [0; 0];
                  mkInstr Jump [1]; mkInstr LoadConst [0];
                  mkInstr Return []]] /\
            label_positions unit c !! 1 = Some 5 /\
            path (label_positions unit c)
              [mkInstr LoadVar [0]; mkInstr JumpIfFalse [0; 0];
               mkInstr Jump [1]; mkInstr LoadConst [0]; mkInstr Return []]
              0 [1; 2; 5]%nat = true).
  { eexists. split; [vm_compute; reflexivity|].
    repeat split; vm_compute; reflexivity. }
  destruct Hlower as (c & Hv & Hfs & Hl & Hp).
  exists c, (mkFunction "f" 1 ["x"]
               [mkInstr LoadVar [0]; mkInstr JumpIfFalse [0; 0];
                mkInstr Jump [1]; mkInstr LoadConst [0]; mkInstr Return []]).
  split; [unfold compile; rewrite Hv; reflexivity|].
  split; [exact Hfs|]. split; [reflexivity|]. split; [reflexivity|].
  split; [exact Hl|]. split; [exact Hp | reflexivity].
Qed.

(** ** Running the lowering monad backwards

    What a helper that returned has done to the compiler. *)

Section Steps.
Variable Value : Type.
Variable MAX_REGISTERS : Z.

Lemma bind_Ok {A B} (m : C Value A) (k : A -> C Value B) c b c' :
  bind Value m k c = Ok b c' ->
  exists a c1, m c = Ok a c1 /\ k a c1 = Ok b c'.
Proof.
  unfold bind. destruct (m c) as [a c1|msg] eqn:Hm; [|discriminate].
  intros H. exists a, c1. split; [reflexivity | exact H].
Qed.

Lemma ret_Ok {A} (a b : A) (c c' : Compiler Value) :
  ret Value a c = Ok b c' -> b = a /\ c' = c.
Proof. intros H. injection H as <- <-. split; reflexivity. Qed.

Lemma gets_Ok {A} (f : Compiler Value -> A) c b c' :
  gets Value f c = Ok b c' -> b = f c /\ c' = c.
Proof. intros H. injection H as <- <-. split; reflexivity. Qed.

Lemma modify_Ok f (c : Compiler Value) u c' :
  modify Value f c = Ok u c' -> c' = f c.
Proof. intros H. injection H as _ <-. reflexivity. Qed.

Lemma emit_Ok op ops (c : Compiler Value) u c' :
  emit Value op ops c = Ok u c' ->
  c' = set_bytecode Value (current_bytecode Value c ++ [mkInstr op ops]) c.
Proof. intros H. injection H as _ <-. reflexivity. Qed.

Lemma allocateRegister_Ok (c : Compiler Value) u c' :
  allocateRegister Value MAX_REGISTERS c = Ok u c' ->
  current_register Value c < MAX_REGISTERS /\
  c' = set_register Value (current_register Value c + 1) c.
Proof.
  unfold allocateRegister, bind, gets, modify, throw.
  destruct (Z.ltb_spec (current_register Value c) MAX_REGISTERS) as [Hlt|Hge];
    [|discriminate].
  intros H. injection H as _ <-. split; [assumption | reflexivity].
Qed.

Lemma genLabel_Ok (c : Compiler Value) l c' :
  genLabel Value c = Ok l c' ->
  l = next_label Value c /\
  c' = set_next_label Value (u32 (next_label Value c + 1)) c.
Proof. intros H. injection H as <- <-. split; reflexivity. Qed.

Lemma markLabel_Ok l (c : Compiler Value) u c' :
  markLabel Value l c = Ok u c' ->
  c' = set_label_positions Value
         (<[l := Z.of_nat (length (current_bytecode Value c))]>
            (label_positions Value c)) c.
Proof. intros H. injection H as _ <-. reflexivity. Qed.

Lemma lookupVariable_Ok n (c : Compiler Value) v c' :
  lookupVariable Value n c = Ok v c' -> c' = c.
Proof.
  unfold lookupVariable, bind, gets, ret.
  destruct (last (scope_stack Value c)); intros H; injection H as _ <-;
    reflexivity.
Qed.

Lemma allocateVariable_Ok n (c : Compiler Value) v c' :
  allocateVariable Value n c = Ok v c' ->
  exists top,
    last (scope_stack Value c) = Some top /\
    c' = set_scope_stack Value
           (removelast (scope_stack Value c) ++
              [snd (scope_allocateVariable n top)]) c.
Proof.
  unfold allocateVariable, bind, gets, modify, ret, throw.
  destruct (last (scope_stack Value c)) as [top|]; [|discriminate].
  destruct (scope_allocateVariable n top) as [slot top'] eqn:Ha.
  intros H. injection H as _ <-. exists top. rewrite Ha. split; reflexivity.
Qed.

Lemma pushScope_Ok s (c : Compiler Value) u c' :
  pushScope Value s c = Ok u c' ->
  c' = set_scope_stack Value (scope_stack Value c ++ [s]) c.
Proof. intros H. injection H as _ <-. reflexivity. Qed.

Lemma popScope_Ok (c : Compiler Value) u c' :
  popScope Value c = Ok u c' ->
  c' = set_scope_stack Value (removelast (scope_stack Value c)) c.
Proof. intros H. injection H as _ <-. reflexivity. Qed.

Lemma last_register_Ok (c : Compiler Value) r c' :
  last_register Value c = Ok r c' -> c' = c.
Proof. intros H. injection H as _ <-. reflexivity. Qed.

Lemma binaryOpToOpCode_Ok op (c : Compiler Value) opc c' :
  binaryOpToOpCode Value op c = Ok opc c' ->
  c' = c /\ opc <> Jump /\ opc <> JumpIfFalse.
Proof.
  unfold binaryOpToOpCode, ret, throw.
  repeat match goal with
  | |- context [if ?b then _ else _] => destruct b
  end; intros H; try discriminate H; injection H as <- <-;
    (split; [reflexivity | split; discriminate]).
Qed.

Lemma unaryOpToOpCode_Ok op (c : Compiler Value) opc c' :
  unaryOpToOpCode Value op c = Ok opc c' ->
  c' = c /\ opc <> Jump /\ opc <> JumpIfFalse.
Proof.
  unfold unaryOpToOpCode, ret, throw.
  repeat match goal with
  | |- context [if ?b then _ else _] => destruct b
  end; intros H; try discriminate H; injection H as <- <-;
    (split; [reflexivity | split; discriminate]).
Qed.

End Steps.

(** Takes a run [H : m c = Ok a c'] apart, helper by helper; the visits of
    sub-trees are left as hypotheses. *)
Ltac run_step :=
  match goal with
  | H : @bind _ _ _ _ _ _ = Ok _ _ |- _ =>
      apply bind_Ok in H; destruct H as (? & ? & ? & H)
  | H : @ret _ _ _ _ = Ok _ _ |- _ =>
      apply ret_Ok in H; destruct H as [? ?]; subst
  | H : @gets _ _ _ _ = Ok _ _ |- _ =>
      apply gets_Ok in H; destruct H as [? ?]; subst
  | H : @throw _ _ _ _ = Ok _ _ |- _ => discriminate H
  | H : emit _ _ _ _ = Ok _ _ |- _ => apply emit_Ok in H; subst
  | H : modify _ _ _ = Ok _ _ |- _ => apply modify_Ok in H; subst
  | H : allocateRegister _ _ _ = Ok _ _ |- _ =>
      apply allocateRegister_Ok in H; destruct H as [? ?]; subst
  | H : genLabel _ _ = Ok _ _ |- _ =>
      apply genLabel_Ok in H; destruct H as [? ?]; subst
  | H : markLabel _ _ _ = Ok _ _ |- _ => apply markLabel_Ok in H; subst
  | H : lookupVariable _ _ _ = Ok _ _ |- _ =>
      apply lookupVariable_Ok in H; subst
  | H : allocateVariable _ _ _ = Ok _ _ |- _ =>
      apply allocateVariable_Ok in H; destruct H as (? & ? & ?); subst
  | H : pushScope _ _ _ = Ok _ _ |- _ => apply pushScope_Ok in H; subst
  | H : popScope _ _ = Ok _ _ |- _ => apply popScope_Ok in H; subst
  | H : last_register _ _ = Ok _ _ |- _ => apply last_register_Ok in H; subst
  | H : binaryOpToOpCode _ _ _ = Ok _ _ |- _ =>
      apply binaryOpToOpCode_Ok in H; destruct H as (? & ? & ?); subst
  | H : unaryOpToOpCode _ _ _ = Ok _ _ |- _ =>
      apply unaryOpToOpCode_Ok in H; destruct H as (? & ? & ?); subst
  | H : (if ?b then _ else _) _ = Ok _ _ |- _ => destruct b eqn:?
  | H : (let (_, _) := ?p in _) _ = Ok _ _ |- _ => destruct p eqn:?
  | H : match ?o with Some _ => _ | None => _ end _ = Ok _ _ |- _ =>
      destruct o eqn:?
  end.

Ltac run_steps := repeat run_step.

Ltac unfold_visitors H :=
  unfold visitProgram, visitBlock, visitFunctionDef, visitBinaryOp,
    visitUnaryOp, visitLiteral, visitIdentifier, visitAssignment,
    visitIfStatement, visitWhileLoop, visitForLoop, visitFunctionCall,
    visitReturnStatement, visitArrayLiteral, visitIndexAccess in H;
  unfold visitBlock in H.

Ltac expose_compiler :=
  cbn [current_module current_bytecode current_register next_label
       label_positions scope_stack set_module set_bytecode set_register
       set_next_label set_label_positions set_scope_stack] in *.

(** ** Registers *)

Section Registers.
Variable Value : Type.
Variable MAX_REGISTERS : Z.

Lemma allocated_refl (c : Compiler Value) : allocated MAX_REGISTERS 0 c c.
Proof. split; [simpl; lia | lia]. Qed.

Lemma allocated_trans j k (c1 c2 c3 : Compiler Value) :
  allocated MAX_REGISTERS j c1 c2 -> allocated MAX_REGISTERS k c2 c3 ->
  allocated MAX_REGISTERS (j + k) c1 c3.
Proof.
  intros [H1 B1] [H2 B2]. split; [lia|]. intros Hpos.
  destruct k as [|k]; [|apply B2; lia].
  rewrite H2. simpl. rewrite Z.add_0_r. apply B1. lia.
Qed.

Lemma allocated_for_each visit nodes :
  Forall (fun n => forall c c',
            visit n c = Ok tt c' ->
            allocated MAX_REGISTERS (registers_used n) c c') nodes ->
  forall c c',
    for_each Value visit nodes c = Ok tt c' ->
    allocated MAX_REGISTERS (sum_nodes registers_used nodes) c c'.
Proof.
  induction 1 as [|n nodes Hn _ IH]; intros c c' H; simpl in H.
  - run_steps. apply allocated_refl.
  - run_steps. destruct x. simpl.
    eapply allocated_trans; [apply Hn; eassumption | apply IH; assumption].
Qed.

Lemma allocated_visit_arguments visit args :
  Forall (fun n => forall c c',
            visit n c = Ok tt c' ->
            allocated MAX_REGISTERS (registers_used n) c c') args ->
  forall regs c rs c',
    visit_arguments Value visit args regs c = Ok rs c' ->
    allocated MAX_REGISTERS (sum_nodes registers_used args) c c'.
Proof.
  induction 1 as [|n args Hn _ IH]; intros regs c rs c' H; simpl in H.
  - run_steps. apply allocated_refl.
  - run_steps. destruct x. simpl.
    eapply allocated_trans; [apply Hn; eassumption | eapply IH; eassumption].
Qed.


Lemma visitNode_allocated : forall node c c',
  visitNode Value MAX_REGISTERS node c = Ok tt c' ->
  allocated MAX_REGISTERS (registers_used node) c c'.
Proof.
  fix IH 1. intros node.
  assert (Hall : forall nodes,
            Forall (fun n => forall c c',
                      visitNode Value MAX_REGISTERS n c = Ok tt c' ->
                      allocated MAX_REGISTERS (registers_used n) c c') nodes).
  { intros nodes. induction nodes; constructor; [apply IH | assumption]. }
  destruct node; intros c c' H; simpl in H; unfold_visitors H; run_steps;
    repeat match goal with
    | x : unit |- _ => destruct x
    end;
    repeat match goal with
    | H : visitNode _ _ _ _ = Ok tt _ |- _ => apply IH in H
    | H : for_each _ _ _ _ = Ok tt _ |- _ =>
        apply (allocated_for_each _ _ (Hall _)) in H
    | H : visit_arguments _ _ _ _ _ = Ok _ _ |- _ =>
        apply (allocated_visit_arguments _ _ (Hall _)) in H
    end;
    unfold allocated in *; expose_compiler; cbn [registers_used];
    try lia.
Qed.

(** Registers are never released.  Compiling a tree leaves
    [current_register_] higher by exactly the number of its literals,
    identifiers, calls and array literals, whatever lies between them
    (function boundaries included); and the counter never passes
    [MAX_REGISTERS], so a tree with more such nodes than registers are left
    does not compile. *)
Theorem registers_never_released node c c' :
  visitNode Value MAX_REGISTERS node c = Ok tt c' ->
  current_register Value c' =
    current_register Value c + Z.of_nat (registers_used node) /\
  ((0 < registers_used node)%nat ->
   current_register Value c' <= MAX_REGISTERS).
Proof. apply visitNode_allocated. Qed.

End Registers.

(** ** Relations that every step keeps *)

Section Relation.
Variable Value : Type.
Variable R : Compiler Value -> Compiler Value -> Prop.
Hypothesis R_refl : forall c, R c c.
Hypothesis R_trans : forall c1 c2 c3, R c1 c2 -> R c2 c3 -> R c1 c3.

Lemma related_for_each visit nodes :
  Forall (fun n => forall c c', visit n c = Ok tt c' -> R c c') nodes ->
  forall c c', for_each Value visit nodes c = Ok tt c' -> R c c'.
Proof.
  induction 1 as [|n nodes Hn _ IH]; intros c c' H; simpl in H.
  - run_steps. apply R_refl.
  - run_steps. destruct x.
    eapply R_trans; [apply Hn; eassumption | apply IH; assumption].
Qed.

Lemma related_visit_arguments visit args :
  Forall (fun n => forall c c', visit n c = Ok tt c' -> R c c') args ->
  forall regs c rs c',
    visit_arguments Value visit args regs c = Ok rs c' -> R c c'.
Proof.
  induction 1 as [|n args Hn _ IH]; intros regs c rs c' H; simpl in H.
  - run_steps. apply R_refl.
  - run_steps. destruct x.
    eapply R_trans; [apply Hn; eassumption | eapply IH; eassumption].
Qed.

End Relation.

(** ** Scopes *)

Section Scopes.
Variable Value : Type.
Variable MAX_REGISTERS : Z.

Lemma same_scopes_refl (c : Compiler Value) : same_scopes c c.
Proof. split; reflexivity. Qed.

Lemma same_scopes_trans (c1 c2 c3 : Compiler Value) :
  same_scopes c1 c2 -> same_scopes c2 c3 -> same_scopes c1 c3.
Proof. intros [H1 H1'] [H2 H2']. split; congruence. Qed.

Lemma removelast_snoc {A} (l : list A) x : removelast (l ++ [x]) = l.
Proof. apply removelast_last. Qed.

Lemma length_removelast_snoc {A} (l : list A) top x :
  last l = Some top -> length (removelast l ++ [x]) = length l.
Proof.
  intros Hl. destruct l as [|a l] using rev_ind; [discriminate|].
  rewrite removelast_last, !length_app. reflexivity.
Qed.

Lemma visitNode_same_scopes : forall node c c',
  visitNode Value MAX_REGISTERS node c = Ok tt c' -> same_scopes c c'.
Proof.
  fix IH 1. intros node.
  assert (Hall : forall nodes,
            Forall (fun n => forall c c',
                      visitNode Value MAX_REGISTERS n c = Ok tt c' ->
                      same_scopes c c') nodes).
  { intros nodes. induction nodes; constructor; [apply IH | assumption]. }
  destruct node; intros c c' H; simpl in H; unfold_visitors H; run_steps;
    repeat match goal with
    | x : unit |- _ => destruct x
    end;
    repeat match goal with
    | H : visitNode _ _ _ _ = Ok tt _ |- _ => apply IH in H
    | H : for_each _ _ _ _ = Ok tt _ |- _ =>
        apply (related_for_each _ _ same_scopes_refl same_scopes_trans
                 _ _ (Hall _)) in H
    | H : visit_arguments _ _ _ _ _ = Ok _ _ |- _ =>
        apply (related_visit_arguments _ _ same_scopes_refl same_scopes_trans
                 _ _ (Hall _)) in H
    end;
    unfold same_scopes in *; expose_compiler;
    repeat match goal with
    | H : _ /\ _ |- _ => destruct H
    end;
    rewrite ?removelast_snoc in *;
    try (split; congruence).
  split; [|assumption].
  erewrite length_removelast_snoc by eassumption. assumption.
Qed.

(** A visit that returns leaves the scope stack as deep as it found it and
    everything below the top scope untouched: every [pushScope] of
    [visitFunctionDef] and [visitForLoop] is matched by its [popScope], and
    only an assignment changes a scope, the top one. *)
Theorem scopes_balanced node c c' :
  visitNode Value MAX_REGISTERS node c = Ok tt c' ->
  length (scope_stack Value c') = length (scope_stack Value c) /\
  removelast (scope_stack Value c') = removelast (scope_stack Value c) /\
  (match node with
   | FunctionDef _ _ _ | ForLoop _ _ _ _ => True
   | _ => False
   end -> scope_stack Value c' = scope_stack Value c).
Proof.
  intros H. destruct (visitNode_same_scopes _ _ _ H) as [Hl Hr].
  split; [exact Hl|]. split; [exact Hr|].
  destruct node; intros Hn; try contradiction;
    simpl in H; unfold_visitors H; run_steps;
    repeat match goal with
    | x : unit |- _ => destruct x
    end;
    repeat match goal with
    | H : visitNode _ _ _ _ = Ok tt _ |- _ => apply visitNode_same_scopes in H
    | H : for_each _ _ _ _ = Ok tt _ |- _ =>
        apply (related_for_each _ _ same_scopes_refl same_scopes_trans
                 _ _ (proj2 (Forall_forall _ _)
                        (fun n _ => visitNode_same_scopes n))) in H
    end;
    unfold same_scopes in *; expose_compiler;
    repeat match goal with
    | H : _ /\ _ |- _ => destruct H
    end;
    rewrite ?removelast_snoc in *; congruence.
Qed.

Lemma without_scope vname c :
  scope_stack Value c = [] ->
  visitNode Value MAX_REGISTERS (Identifier vname) c
    = Err ("Undefined variable: " ++ vname) /\
  forall value,
    visitNode Value MAX_REGISTERS (Assignment vname value) c =
    match visitNode Value MAX_REGISTERS value c with
    | Ok _ _ => Err "No active scope for variable allocation"
    | Err msg => Err msg
    end.
Proof.
  intros Hempty. split.
  - simpl. unfold visitIdentifier, lookupVariable, bind, gets, ret, throw.
    rewrite Hempty. reflexivity.
  - intros value. simpl. unfold visitAssignment. unfold bind at 1.
    destruct (visitNode Value MAX_REGISTERS value c) as [[] c1|msg] eqn:Hv;
      [|reflexivity].
    destruct (visitNode_same_scopes _ _ _ Hv) as [Hl _].
    rewrite Hempty in Hl. apply length_zero_iff_nil in Hl.
    unfold last_register, lookupVariable, allocateVariable, bind, gets, ret,
      throw.
    rewrite Hl. cbn [last]. cbv beta. rewrite Z.eqb_refl. cbv beta.
    rewrite Hl. reflexivity.
Qed.

(** Outside every function and [for] loop there are no variables: with an
    empty scope stack an identifier is undefined, and an assignment whose
    right-hand side compiles fails for want of a scope. *)
Theorem no_variables_without_scope vname c :
  scope_stack Value c = [] ->
  visitNode Value MAX_REGISTERS (Identifier vname) c
    = Err ("Undefined variable: " ++ vname) /\
  forall value,
    visitNode Value MAX_REGISTERS (Assignment vname value) c =
    match visitNode Value MAX_REGISTERS value c with
    | Ok _ _ => Err "No active scope for variable allocation"
    | Err msg => Err msg
    end.
Proof. apply without_scope. Qed.

Lemma top_level_for_each stmts : forall c c',
  scope_stack Value c = [] ->
  for_each Value (visitNode Value MAX_REGISTERS) stmts c = Ok tt c' ->
  scope_stack Value c' = [] /\
  Forall (fun s => match s with
                   | Assignment _ _ | Identifier _ => False
                   | _ => True
                   end) stmts.
Proof.
  induction stmts as [|s stmts IH]; intros c c' Hempty H; simpl in H.
  - run_steps. split; [exact Hempty | constructor].
  - run_steps. destruct x.
    assert (Hempty1 : scope_stack Value x0 = []).
    { destruct (visitNode_same_scopes _ _ _ H0) as [Hl _].
      rewrite Hempty in Hl. apply length_zero_iff_nil in Hl. exact Hl. }
    destruct (IH _ _ Hempty1 H) as [He Hf]. split; [exact He|].
    constructor; [|exact Hf].
    destruct s; try exact I.
    + destruct (without_scope vname c Hempty) as [Hi _]. congruence.
    + destruct (without_scope vname c Hempty) as [_ Ha].
      rewrite Ha in H0. destruct (visitNode Value MAX_REGISTERS s c);
        discriminate H0.
Qed.

(** With a scope on the stack an assignment of a literal compiles, at the
    top level as anywhere else. *)
Lemma assignment_with_scope vname value c :
  scope_stack Value c <> [] ->
  current_register Value c < MAX_REGISTERS ->
  exists c',
    visitNode Value MAX_REGISTERS (Program [Assignment vname (Literal value)]) c
      = Ok tt c' /\
    scope_stack Value c' <> [].
Proof.
  intros Hscope Hreg.
  destruct (last (scope_stack Value c)) as [top|] eqn:Htop;
    [|apply last_None in Htop; contradiction].
  cbn [visitNode]. unfold visitProgram. cbn [for_each visitNode].
  unfold visitAssignment. cbn [visitNode].
  unfold visitLiteral, addConstant, allocateRegister,
    last_register, lookupVariable, allocateVariable, emit, bind, gets,
    modify, ret, throw.
  cbn [current_register set_bytecode set_module set_register
       current_module current_bytecode next_label label_positions
       scope_stack].
  destruct (Z.ltb_spec (current_register Value c) MAX_REGISTERS); [|lia].
  cbn [current_register set_bytecode set_module set_register
       current_module current_bytecode next_label label_positions
       scope_stack].
  rewrite Htop.
  destruct (scope_lookupVariable vname top =? UINT32_MAX).
  - simpl. rewrite Htop.
    destruct (scope_allocateVariable vname top) as [slot top'].
    eexists. split; [reflexivity|]. simpl.
    intros Hnil. apply app_eq_nil in Hnil as [_ Hnil]. discriminate Hnil.
  - eexists. split; [reflexivity|]. exact Hscope.
Qed.

(** Called on a compiler whose scope stack is empty, as the constructor
    leaves it and as every call that returns leaves it again, [compile]
    accepts a program only if none of its top-level statements is an
    assignment or an identifier, and ends with the scope stack empty:
    variables exist inside functions and [for] loops only.  A scope that is
    on the stack when [compile] is called ([compile] does not reset
    [scope_stack_]) makes a top-level assignment compile. *)
Theorem compiled_program_top_level finalize stmts c m c' :
  scope_stack Value c = [] ->
  compile Value MAX_REGISTERS finalize (Program stmts) c = Ok m c' ->
  scope_stack Value c' = [] /\
  Forall (fun s => match s with
                   | Assignment _ _ | Identifier _ => False
                   | _ => True
                   end) stmts /\
  forall vname value c0,
    scope_stack Value c0 <> [] ->
    current_register Value c0 < MAX_REGISTERS ->
    exists c1,
      visitNode Value MAX_REGISTERS
        (Program [Assignment vname (Literal value)])
        (set_module Value (mkModule Value [] []) c0) = Ok tt c1 /\
      compile Value MAX_REGISTERS finalize
        (Program [Assignment vname (Literal value)]) c0
      = match finalize (current_module Value c1) with
        | inr m1 => Ok m1 (set_module Value m1 c1)
        | inl msg => Err ("Compilation error: " ++ msg)
        end.
Proof.
  intros Hempty H. apply compile_Ok in H as (c1 & Hv & _ & ->).
  simpl in Hv. unfold visitProgram in Hv.
  destruct (top_level_for_each stmts
              (set_module Value (mkModule Value [] []) c) c1 Hempty Hv)
    as [He Hf].
  split; [exact He|]. split; [exact Hf|].
  intros vname value c0 Hscope Hreg.
  destruct (assignment_with_scope vname value
              (set_module Value (mkModule Value [] []) c0) Hscope Hreg)
    as (c2 & Hv2 & _).
  exists c2. split; [exact Hv2|]. unfold compile. rewrite Hv2. reflexivity.
Qed.

End Scopes.

(** ** Bytecode in flight *)

Lemma carried_code_refl p : carried_code p p.
Proof. exists []. rewrite app_nil_r. split; reflexivity. Qed.

Lemma carried_code_trans p q r :
  carried_code p q -> carried_code q r -> carried_code p r.
Proof.
  intros (fs1 & H1 & P1) (fs2 & H2 & P2). exists (fs1 ++ fs2). split.
  - rewrite H2, H1, app_assoc. reflexivity.
  - destruct fs1 as [|f fs1]; simpl; [|exact P1].
    destruct fs2 as [|g fs2]; etrans; eassumption.
Qed.

Lemma carried_code_emit p fs code i :
  carried_code p (fs, code) -> carried_code p (fs, code ++ [i]).
Proof.
  intros H. apply (carried_code_trans _ _ _ H).
  exists []. simpl. rewrite app_nil_r. split; [reflexivity|].
  apply prefix_app_r. reflexivity.
Qed.

Lemma carried_code_register p fs code n k ps code' :
  carried_code p (fs, code) ->
  carried_code p (fs ++ [mkFunction n k ps code], code').
Proof.
  intros H. apply (carried_code_trans _ _ _ H).
  exists [mkFunction n k ps code]. split; reflexivity.
Qed.

Section InFlight.
Variable Value : Type.
Variable MAX_REGISTERS : Z.

Lemma carried_refl (c : Compiler Value) : carried c c.
Proof. apply carried_code_refl. Qed.

Lemma carried_trans (c1 c2 c3 : Compiler Value) :
  carried c1 c2 -> carried c2 c3 -> carried c1 c3.
Proof. apply carried_code_trans. Qed.

Ltac carried_steps :=
  repeat match goal with
  | H : addConstant _ _ _ = _ |- _ =>
      unfold addConstant in H; injection H as <- <-
  end;
  unfold carried, registerFunction in *; expose_compiler;
  cbn [functions constants] in *;
  repeat match goal with
  | |- carried_code ?p ?p => apply carried_code_refl
  | H : carried_code ?p ?q |- carried_code ?p ?q => exact H
  | |- carried_code _ (_, _ ++ [_]) => apply carried_code_emit
  | |- carried_code _ (_ ++ [_], _) => apply carried_code_register
  | H : carried_code ?q ?r |- carried_code ?p ?r =>
      apply (carried_code_trans p q r); [clear H | exact H]
  end.

Lemma visitNode_carried : forall node c c',
  visitNode Value MAX_REGISTERS node c = Ok tt c' -> carried c c'.
Proof.
  fix IH 1. intros node.
  assert (Hall : forall nodes,
            Forall (fun n => forall c c',
                      visitNode Value MAX_REGISTERS n c = Ok tt c' ->
                      carried c c') nodes).
  { intros nodes. induction nodes; constructor; [apply IH | assumption]. }
  destruct node; intros c c' H; simpl in H; unfold_visitors H; run_steps;
    repeat match goal with
    | x : unit |- _ => destruct x
    end;
    repeat match goal with
    | H : visitNode _ _ _ _ = Ok tt _ |- _ => apply IH in H
    | H : for_each _ _ _ _ = Ok tt _ |- _ =>
        apply (related_for_each _ _ carried_refl carried_trans
                 _ _ (Hall _)) in H
    | H : visit_arguments _ _ _ _ _ = Ok _ _ |- _ =>
        apply (related_visit_arguments _ _ carried_refl carried_trans
                 _ _ (Hall _)) in H
    end;
    carried_steps.
Qed.

Lemma visitFunctionDef_Ok fname params body c c' :
  visitNode Value MAX_REGISTERS (FunctionDef fname params body) c = Ok tt c' ->
  exists c1 code,
    for_each Value (visitNode Value MAX_REGISTERS) body
      (set_scope_stack Value
         (scope_stack Value c ++ [new_FunctionScope fname params]) c)
      = Ok tt c1 /\
    current_bytecode Value c1 `prefix_of` code /\
    current_bytecode Value c' = [] /\
    functions Value (current_module Value c') =
      functions Value (current_module Value c1) ++
        [mkFunction fname (Z.of_nat (length params)) params code].
Proof.
  intros H. simpl in H. unfold_visitors H. run_steps;
    repeat match goal with
    | x : unit |- _ => destruct x
    end;
    eexists _, _; (split; [eassumption|]);
    unfold registerFunction; expose_compiler; cbn [functions];
    (split; [|split; reflexivity]).
  - rewrite <- app_assoc. apply prefix_app_r. reflexivity.
  - reflexivity.
Qed.

(** [visitFunctionDef] does not start from an empty bytecode.  A function
    definition that compiles registers at least one function, the last one
    under its own name; the instructions that were in flight when the
    definition was reached are the beginning of the first function
    registered; and the bytecode in flight is empty afterwards. *)
Theorem function_takes_code_in_flight fname params body c c' :
  visitNode Value MAX_REGISTERS (FunctionDef fname params body) c = Ok tt c' ->
  current_bytecode Value c' = [] /\
  exists f fs g,
    functions Value (current_module Value c') =
      functions Value (current_module Value c) ++ f :: fs /\
    current_bytecode Value c `prefix_of` bytecode f /\
    last (f :: fs) = Some g /\
    name g = fname /\ parameters g = params.
Proof.
  intros H. pose proof (visitNode_carried _ _ _ H) as (fs & Hfs & Hpre).
  destruct (visitFunctionDef_Ok _ _ _ _ _ H)
    as (c1 & code & Hbody & _ & Hempty & Hreg).
  split; [exact Hempty|].
  apply (related_for_each _ _ carried_refl carried_trans) in Hbody;
    [|apply Forall_forall; intros n _; apply visitNode_carried].
  destruct Hbody as (fs0 & Hfs0 & _).
  cbn [fst snd] in *. expose_compiler.
  rewrite Hfs0, <- app_assoc in Hreg. rewrite Hreg in Hfs.
  apply app_inv_head in Hfs. subst fs.
  destruct (fs0 ++ [mkFunction fname (Z.of_nat (length params)) params code])
    as [|f fs] eqn:Hsplit.
  { apply (f_equal length) in Hsplit. rewrite length_app in Hsplit.
    simpl in Hsplit. lia. }
  exists f, fs, (mkFunction fname (Z.of_nat (length params)) params code).
  split; [exact Hreg|]. split; [exact Hpre|].
  split; [|split; reflexivity].
  rewrite <- Hsplit. apply last_snoc.
Qed.

End InFlight.

(** ** Labels *)

Lemma jumps_marked_nil pending labels : jumps_marked pending labels [].
Proof. intros i l Hi. apply elem_of_nil in Hi. contradiction. Qed.

Lemma jumps_marked_snoc pending labels code i :
  jumps_marked pending labels code ->
  (forall l, jump_label i = Some l ->
             is_Some (labels !! l) \/ l ∈ pending) ->
  jumps_marked pending labels (code ++ [i]).
Proof.
  intros Hc Hi j l Hj Hl. apply elem_of_app in Hj as [Hj|Hj].
  - exact (Hc j l Hj Hl).
  - apply list_elem_of_singleton in Hj as ->. exact (Hi l Hl).
Qed.

Lemma jumps_marked_weaken pending pending' (labels labels' : gmap Z Z) code :
  (forall l, is_Some (labels !! l) \/ l ∈ pending ->
             is_Some (labels' !! l) \/ l ∈ pending') ->
  jumps_marked pending labels code -> jumps_marked pending' labels' code.
Proof. intros Hw Hc i l Hi Hl. apply Hw. exact (Hc i l Hi Hl). Qed.

Lemma labels_marked_weaken pending pending' (labels labels' : gmap Z Z)
    code fs :
  (forall l, is_Some (labels !! l) \/ l ∈ pending ->
             is_Some (labels' !! l) \/ l ∈ pending') ->
  labels_marked pending labels code fs ->
  labels_marked pending' labels' code fs.
Proof.
  intros Hw [Hc Hf]. split.
  - exact (jumps_marked_weaken _ _ _ _ _ Hw Hc).
  - intros f Hin. exact (jumps_marked_weaken _ _ _ _ _ Hw (Hf f Hin)).
Qed.

Lemma labels_marked_mono pending pending' labels code fs :
  pending ⊆ pending' ->
  labels_marked pending labels code fs ->
  labels_marked pending' labels code fs.
Proof.
  intros Hsub. apply labels_marked_weaken. intros l [H|H]; [left; exact H|].
  right. exact (Hsub l H).
Qed.

(** [markLabel]: a pending label becomes a marked one. *)
Lemma labels_marked_mark pending labels code fs l p :
  labels_marked (pending ∪ {[l]}) labels code fs ->
  labels_marked pending (<[l := p]> labels) code fs.
Proof.
  apply labels_marked_weaken. intros l' [H|H].
  - left. destruct (decide (l = l')) as [->|Hne].
    + rewrite lookup_insert_eq. eauto.
    + rewrite lookup_insert_ne by exact Hne. exact H.
  - destruct (decide (l = l')) as [->|Hne].
    + left. rewrite lookup_insert_eq. eauto.
    + right. apply elem_of_union in H as [H|H]; [exact H|].
      apply elem_of_singleton in H. congruence.
Qed.

(** [emit] of an instruction that is no jump. *)
Lemma labels_marked_emit pending labels code fs i :
  jump_label i = None ->
  labels_marked pending labels code fs ->
  labels_marked pending labels (code ++ [i]) fs.
Proof.
  intros Hi [Hc Hf]. split; [|exact Hf].
  apply jumps_marked_snoc; [exact Hc|]. intros l Hl. congruence.
Qed.

(** [emit] of a jump to a label that is marked or pending. *)
Lemma labels_marked_jump pending labels code fs i l :
  jump_label i = Some l ->
  is_Some (labels !! l) \/ l ∈ pending ->
  labels_marked pending labels code fs ->
  labels_marked pending labels (code ++ [i]) fs.
Proof.
  intros Hi Hl [Hc Hf]. split; [|exact Hf].
  apply jumps_marked_snoc; [exact Hc|]. intros l' Hl'. congruence.
Qed.

(** The end of [visitFunctionDef]: the bytecode in flight becomes a
    function. *)
Lemma labels_marked_register pending labels code fs n k ps :
  labels_marked pending labels code fs ->
  labels_marked pending labels [] (fs ++ [mkFunction n k ps code]).
Proof.
  intros [Hc Hf]. split; [apply jumps_marked_nil|].
  intros f Hin. apply elem_of_app in Hin as [Hin|Hin].
  - exact (Hf f Hin).
  - apply list_elem_of_singleton in Hin as ->. exact Hc.
Qed.

Lemma jump_label_other op ops :
  op <> Jump -> op <> JumpIfFalse -> jump_label (mkInstr op ops) = None.
Proof. intros H1 H2. unfold jump_label. destruct op; simpl; congruence. Qed.

(** ** Where the jumps lead *)

Section Measured.
Variable Value : Type.
Variable R : nat -> Compiler Value -> Compiler Value -> Prop.
Variable allowed : ASTNode Value -> bool.
Variable measure : ASTNode Value -> nat.
Hypothesis R_refl : forall c, R 0%nat c c.
Hypothesis R_trans : forall j k c1 c2 c3,
  R j c1 c2 -> R k c2 c3 -> R (j + k)%nat c1 c3.

Lemma measured_for_each visit nodes :
  Forall (fun n => allowed n = true -> forall c c',
            visit n c = Ok tt c' -> R (measure n) c c') nodes ->
  forallb allowed nodes = true ->
  forall c c',
    for_each Value visit nodes c = Ok tt c' ->
    R (sum_nodes measure nodes) c c'.
Proof.
  induction 1 as [|n nodes Hn _ IH]; intros Hall c c' H; simpl in H.
  - run_steps. apply R_refl.
  - simpl in Hall. apply andb_prop in Hall as [Ha Hall].
    run_steps. destruct x. simpl.
    eapply R_trans; [apply Hn; eassumption | apply IH; assumption].
Qed.

Lemma measured_visit_arguments visit args :
  Forall (fun n => allowed n = true -> forall c c',
            visit n c = Ok tt c' -> R (measure n) c c') args ->
  forallb allowed args = true ->
  forall regs c rs c',
    visit_arguments Value visit args regs c = Ok rs c' ->
    R (sum_nodes measure args) c c'.
Proof.
  induction 1 as [|n args Hn _ IH]; intros Hall regs c rs c' H; simpl in H.
  - run_steps. apply R_refl.
  - simpl in Hall. apply andb_prop in Hall as [Ha Hall].
    run_steps. destruct x. simpl.
    eapply R_trans; [apply Hn; eassumption | eapply IH; eassumption].
Qed.

End Measured.

Section Targets.
Variable Value : Type.
Variable MAX_REGISTERS : Z.

Lemma target_within_longer (labels labels' : gmap Z Z) code code' l :
  labels' !! l = labels !! l ->
  (length code <= length code')%nat ->
  target_within labels code l -> target_within labels' code' l.
Proof.
  intros Hl Hlen (pos & Hpos & Hrange). exists pos.
  split; [congruence | lia].
Qed.

Lemma local_jumps_refl (c : Compiler Value) : local_jumps 0 c c.
Proof.
  intros _ _. split; [simpl; lia|]. split; [reflexivity|].
  split; [reflexivity|]. exists []. split; [rewrite app_nil_r; reflexivity|].
  intros i l Hi. apply elem_of_nil in Hi. contradiction.
Qed.

Lemma local_jumps_trans j k (c1 c2 c3 : Compiler Value) :
  local_jumps j c1 c2 -> local_jumps k c2 c3 -> local_jumps (j + k) c1 c3.
Proof.
  intros H1 H2 H0 Hk.
  destruct H1 as (N1 & F1 & L1 & a1 & B1 & J1); [exact H0 | lia |].
  destruct H2 as (N2 & F2 & L2 & a2 & B2 & J2); [lia | lia |].
  split; [lia|]. split; [congruence|]. split.
  { intros l Hl. rewrite L2 by lia. apply L1. exact Hl. }
  exists (a1 ++ a2). split; [rewrite B2, B1, app_assoc; reflexivity|].
  intros i l Hi Hjump. apply elem_of_app in Hi as [Hi|Hi].
  - destruct (J1 i l Hi Hjump) as [Hl Ht]. split; [lia|].
    eapply target_within_longer; [apply L2; lia | | exact Ht].
    rewrite B2, length_app. lia.
  - destruct (J2 i l Hi Hjump) as [Hl Ht]. split; [lia | exact Ht].
Qed.

Lemma local_jumps_sum j k n (c1 c2 c3 : Compiler Value) :
  local_jumps j c1 c2 -> local_jumps k c2 c3 -> n = (j + k)%nat ->
  local_jumps n c1 c3.
Proof. intros H1 H2 ->. exact (local_jumps_trans _ _ _ _ _ H1 H2). Qed.

(** Steps that hand out and mark no label and emit no jump. *)
Lemma local_jumps_step (c c' : Compiler Value) added :
  next_label Value c' = next_label Value c ->
  label_positions Value c' = label_positions Value c ->
  functions Value (current_module Value c') =
    functions Value (current_module Value c) ->
  current_bytecode Value c' = current_bytecode Value c ++ added ->
  Forall (fun i => jump_label i = None) added ->
  local_jumps 0 c c'.
Proof.
  intros Hn Hl Hf Hb Hadded _ _. split; [simpl; lia|].
  split; [exact Hf|]. split; [intros l _; rewrite Hl; reflexivity|].
  exists added. split; [exact Hb|]. intros i l Hi Hjump.
  rewrite Forall_forall in Hadded. rewrite (Hadded i Hi) in Hjump.
  discriminate Hjump.
Qed.

Ltac no_jumps :=
  cbn [app];
  repeat (constructor;
          [first [reflexivity | apply jump_label_other; assumption]|]);
  constructor.

Ltac plain_step :=
  first
    [ apply local_jumps_refl
    | eapply (local_jumps_step _ _ []);
        [reflexivity | reflexivity | reflexivity
        | cbn; rewrite ?app_nil_r; reflexivity | constructor]
    | eapply local_jumps_step;
        [reflexivity | reflexivity | reflexivity
        | cbn; rewrite <- ?app_assoc; reflexivity | no_jumps] ].

(** From the state [a] to the state of the goal: through the sub-trees, in
    their order, and the steps between them. *)
Ltac local_chain :=
  first
    [ solve [plain_step]
    | match goal with
      | H : local_jumps _ ?a ?b |- local_jumps _ ?a _ =>
          eapply local_jumps_sum; [exact H | clear H; local_chain |]
      | H : local_jumps _ ?s ?b |- local_jumps _ ?a _ =>
          eapply (local_jumps_sum 0 _ _ a s);
            [solve [plain_step]
            | eapply local_jumps_sum; [exact H | clear H; local_chain |]
            |]
      end ].

#[warnings="-notation-for-abbreviation"] Local Notation labelled c :=
  (set_next_label Value (u32 (next_label Value c + 1)) c).
#[warnings="-notation-for-abbreviation"] Local Notation emitted i c :=
  (set_bytecode Value (current_bytecode Value c ++ [i]) c).
#[warnings="-notation-for-abbreviation"] Local Notation marked_at l c :=
  (set_label_positions Value
     (<[l := Z.of_nat (length (current_bytecode Value c))]>
        (label_positions Value c)) c).

Lemma next_label_fits x : 0 <= x -> x + 1 < 2 ^ 32 -> u32 (x + 1) = x + 1.
Proof. intros H0 H1. unfold u32, wrap. apply Z.mod_small. lia. Qed.

(** Takes the run of a sub-tree apart, given that the counter does not
    wrap in it. *)
Ltac enter H N F L a B J :=
  destruct H as (N & F & L & a & B & J);
  [expose_compiler; rewrite ?next_label_fits by lia; lia ..|];
  expose_compiler; rewrite ?next_label_fits in N, L, J by lia;
  let Hlen := fresh "Hlen" in
  pose proof (f_equal length B) as Hlen;
  rewrite ?length_app in Hlen; cbn [length] in Hlen.

Ltac lookups :=
  repeat first
    [ rewrite lookup_insert_eq
    | rewrite lookup_insert_ne by lia
    | match goal with
      | L : forall l, l < _ -> label_positions _ ?c !! l = _
        |- context [label_positions _ ?c !! _] => rewrite L by lia
      end ].

Ltac own_jump Hjump :=
  simpl in Hjump; injection Hjump as <-;
  split; [lia|]; unfold target_within; eexists;
  split; [lookups; reflexivity | rewrite ?length_app; cbn [length]; lia].

Ltac sub_jump J i l Hi Hjump :=
  let Hr := fresh "Hr" in
  let pos := fresh "pos" in
  let Hpos := fresh "Hpos" in
  let Hb := fresh "Hb" in
  destruct (J i l Hi Hjump) as [Hr (pos & Hpos & Hb)];
  split; [lia|]; exists pos;
  split; [lookups; exact Hpos | rewrite ?length_app; cbn [length]; lia].

(** [visitIfStatement]: the condition, the jump past the first branch, the
    first branch, the jump past the second, the second. *)
Lemma local_jumps_if k1 k2 k3 (c c1 c2 c3 : Compiler Value) r :
  local_jumps k1 c c1 ->
  local_jumps k2
    (emitted (mkInstr JumpIfFalse [r; next_label Value c1]) (labelled c1))
    c2 ->
  local_jumps k3
    (marked_at (next_label Value c1)
       (emitted (mkInstr Jump [next_label Value c2]) (labelled c2)))
    c3 ->
  local_jumps (k1 + k2 + k3 + 2) c (marked_at (next_label Value c2) c3).
Proof.
  intros H1 H2 H3 H0 Hk.
  enter H1 N1 F1 L1 a1 B1 J1.
  enter H2 N2 F2 L2 a2 B2 J2.
  enter H3 N3 F3 L3 a3 B3 J3.
  split; [lia|]. split; [congruence|]. split.
  { intros l Hl. lookups. reflexivity. }
  exists (a1 ++ [mkInstr JumpIfFalse [r; next_label Value c1]] ++ a2 ++
          [mkInstr Jump [next_label Value c2]] ++ a3).
  split.
  { rewrite B3, B2, B1, <- !app_assoc. reflexivity. }
  intros i l Hi Hjump.
  rewrite !elem_of_app, !list_elem_of_singleton in Hi.
  destruct Hi as [Hi|[->|[Hi|[->|Hi]]]].
  - sub_jump J1 i l Hi Hjump.
  - own_jump Hjump.
  - sub_jump J2 i l Hi Hjump.
  - own_jump Hjump.
  - sub_jump J3 i l Hi Hjump.
Qed.

(** [visitWhileLoop] and the loop of [visitForLoop]: the condition, the
    jump out, the body, the jump back. *)
Lemma local_jumps_loop k1 k2 (c c1 c2 : Compiler Value) r :
  local_jumps k1 (marked_at (next_label Value c) (labelled c)) c1 ->
  local_jumps k2
    (emitted (mkInstr JumpIfFalse [r; next_label Value c1]) (labelled c1))
    c2 ->
  local_jumps (k1 + k2 + 2) c
    (marked_at (next_label Value c1)
       (emitted (mkInstr Jump [next_label Value c]) c2)).
Proof.
  intros H1 H2 H0 Hk.
  enter H1 N1 F1 L1 a1 B1 J1.
  enter H2 N2 F2 L2 a2 B2 J2.
  split; [lia|]. split; [congruence|]. split.
  { intros l Hl. lookups. reflexivity. }
  exists (a1 ++ [mkInstr JumpIfFalse [r; next_label Value c1]] ++ a2 ++
          [mkInstr Jump [next_label Value c]]).
  split.
  { rewrite B2, B1, <- !app_assoc. reflexivity. }
  intros i l Hi Hjump.
  rewrite !elem_of_app, !list_elem_of_singleton in Hi.
  destruct Hi as [Hi|[->|[Hi| ->]]].
  - sub_jump J1 i l Hi Hjump.
  - own_jump Hjump.
  - sub_jump J2 i l Hi Hjump.
  - own_jump Hjump.
Qed.

Lemma visitNode_local_jumps : forall node c c',
  no_functions node = true ->
  visitNode Value MAX_REGISTERS node c = Ok tt c' ->
  local_jumps (labels_used node) c c'.
Proof.
  fix IH 1. intros node.
  assert (Hall : forall nodes,
            Forall (fun n => no_functions n = true -> forall c c',
                      visitNode Value MAX_REGISTERS n c = Ok tt c' ->
                      local_jumps (labels_used n) c c') nodes).
  { intros nodes. induction nodes; constructor; [|assumption].
    intros Hn c c'. apply IH. exact Hn. }
  destruct node; intros c c' Hnf H; simpl in H; unfold_visitors H;
    cbn [no_functions] in Hnf;
    repeat match goal with
    | H : _ && _ = true |- _ => apply andb_prop in H as [? ?]
    end;
    run_steps;
    repeat match goal with
    | x : unit |- _ => destruct x
    end;
    repeat match goal with
    | H : visitNode _ _ _ _ = Ok tt _ |- _ => apply IH in H; [|assumption]
    | H : for_each _ _ _ _ = Ok tt _ |- _ =>
        apply (measured_for_each _ _ _ _ local_jumps_refl local_jumps_trans
                 _ _ (Hall _)) in H; [|assumption]
    | H : visit_arguments _ _ _ _ _ = Ok _ _ |- _ =>
        apply (measured_visit_arguments _ _ _ _ local_jumps_refl
                 local_jumps_trans _ _ (Hall _)) in H; [|assumption]
    end;
    repeat match goal with
    | H : addConstant _ _ _ = _ |- _ =>
        unfold addConstant in H; injection H as <- <-
    end;
    try discriminate;
    cbn [labels_used].
  all: try (local_chain; first [reflexivity | lia]).
  - eapply (local_jumps_sum _ 0);
      [eapply local_jumps_if; eassumption | apply local_jumps_refl | lia].
  - eapply (local_jumps_sum _ 0);
      [eapply local_jumps_if; first [eassumption | apply local_jumps_refl]
      | apply local_jumps_refl | lia].
  - eapply (local_jumps_sum _ 0);
      [eapply local_jumps_loop; eassumption | apply local_jumps_refl | lia].
  - eapply local_jumps_sum; [plain_step | |].
    1: eapply local_jumps_sum; [eassumption | |].
    1: eapply local_jumps_sum;
         [eapply local_jumps_loop;
            [eassumption | eapply local_jumps_trans; eassumption]
         | plain_step |].
    all: first [reflexivity | lia].
Qed.

(** A tree without function definitions keeps the jumps in range. *)
Lemma local_jumps_in_range k (c c' : Compiler Value) :
  local_jumps k c c' -> keeps_in_range k c c'.
Proof.
  intros H H0 Hk. destruct (H H0 Hk) as (N & F & L & added & B & J).
  split; [exact N|]. intros [Hcode Hfs]. split.
  - intros i l Hi Hjump. rewrite B in Hi.
    apply elem_of_app in Hi as [Hi|Hi].
    + destruct (Hcode i l Hi Hjump) as [Hl Ht]. split; [lia|].
      eapply target_within_longer; [apply L; exact Hl | | exact Ht].
      rewrite B, length_app. lia.
    + destruct (J i l Hi Hjump) as [Hl Ht]. split; [lia | exact Ht].
  - intros f Hf i l Hi Hjump. rewrite F in Hf.
    destruct (Hfs f Hf i l Hi Hjump) as [Hl Ht]. split; [lia|].
    eapply target_within_longer; [apply L; exact Hl | | exact Ht]. lia.
Qed.

Lemma keeps_in_range_refl (c : Compiler Value) : keeps_in_range 0 c c.
Proof. intros _ _. split; [simpl; lia | auto]. Qed.

Lemma keeps_in_range_trans j k (c1 c2 c3 : Compiler Value) :
  keeps_in_range j c1 c2 -> keeps_in_range k c2 c3 ->
  keeps_in_range (j + k) c1 c3.
Proof.
  intros H1 H2 H0 Hk.
  destruct H1 as [N1 R1]; [exact H0 | lia |].
  destruct H2 as [N2 R2]; [lia | lia |].
  split; [lia | auto].
Qed.

Lemma keeps_in_range_sum j k n (c1 c2 c3 : Compiler Value) :
  keeps_in_range j c1 c2 -> keeps_in_range k c2 c3 -> n = (j + k)%nat ->
  keeps_in_range n c1 c3.
Proof. intros H1 H2 ->. exact (keeps_in_range_trans _ _ _ _ _ H1 H2). Qed.

(** The end of [visitFunctionDef]: the bytecode in flight, with the
    [LoadConst] and [Return] it may lack, becomes a function. *)
Lemma keeps_in_range_register (c c' : Compiler Value) n k ps extra :
  next_label Value c' = next_label Value c ->
  label_positions Value c' = label_positions Value c ->
  functions Value (current_module Value c') =
    functions Value (current_module Value c) ++
    [mkFunction n k ps (current_bytecode Value c ++ extra)] ->
  current_bytecode Value c' = [] ->
  Forall (fun i => jump_label i = None) extra ->
  keeps_in_range 0 c c'.
Proof.
  intros Hn Hl Hf Hb Hextra _ _. split; [simpl; lia|].
  intros [Hcode Hfs]. split.
  - rewrite Hb. intros i l Hi. apply elem_of_nil in Hi. contradiction.
  - rewrite Hf, Hn, Hl. intros f Hin i l Hi Hjump.
    apply elem_of_app in Hin as [Hin|Hin]; [exact (Hfs f Hin i l Hi Hjump)|].
    apply list_elem_of_singleton in Hin as ->. cbn [bytecode] in *.
    apply elem_of_app in Hi as [Hi|Hi].
    + destruct (Hcode i l Hi Hjump) as [Hlt Ht]. split; [exact Hlt|].
      eapply target_within_longer; [reflexivity | | exact Ht].
      rewrite length_app. lia.
    + rewrite Forall_forall in Hextra. rewrite (Hextra i Hi) in Hjump.
      discriminate Hjump.
Qed.

Ltac range_step :=
  first
    [ apply keeps_in_range_refl
    | apply local_jumps_in_range; solve [plain_step]
    | eapply (keeps_in_range_register _ _ _ _ _ []);
        [reflexivity | reflexivity
        | cbn; rewrite ?app_nil_r; reflexivity | reflexivity | constructor]
    | eapply keeps_in_range_register;
        [reflexivity | reflexivity
        | cbn; rewrite <- ?app_assoc; reflexivity | reflexivity | no_jumps] ].

Ltac range_chain :=
  first
    [ solve [range_step]
    | match goal with
      | H : keeps_in_range _ ?a ?b |- keeps_in_range _ ?a _ =>
          eapply keeps_in_range_sum; [exact H | clear H; range_chain |]
      | H : keeps_in_range _ ?s ?b |- keeps_in_range _ ?a _ =>
          eapply (keeps_in_range_sum 0 _ _ a s);
            [solve [range_step]
            | eapply keeps_in_range_sum; [exact H | clear H; range_chain |]
            |]
      end ].

Lemma visitNode_keeps_in_range : forall node c c',
  functions_outside_branches node = true ->
  visitNode Value MAX_REGISTERS node c = Ok tt c' ->
  keeps_in_range (labels_used node) c c'.
Proof.
  fix IH 1. intros node.
  assert (Hall : forall nodes,
            Forall (fun n => functions_outside_branches n = true ->
                      forall c c',
                      visitNode Value MAX_REGISTERS n c = Ok tt c' ->
                      keeps_in_range (labels_used n) c c') nodes).
  { intros nodes. induction nodes; constructor; [|assumption].
    intros Hn c c'. apply IH. exact Hn. }
  destruct node; intros c c' Hwn H;
    try (apply local_jumps_in_range;
         exact (visitNode_local_jumps _ _ _ Hwn H));
    simpl in H; unfold_visitors H;
    cbn [functions_outside_branches] in Hwn;
    repeat match goal with
    | H : _ && _ = true |- _ => apply andb_prop in H as [? ?]
    end;
    run_steps;
    repeat match goal with
    | x : unit |- _ => destruct x
    end;
    repeat match goal with
    | H : visitNode _ _ _ _ = Ok tt _ |- _ => apply IH in H; [|assumption]
    | H : for_each _ _ _ _ = Ok tt _ |- _ =>
        apply (measured_for_each _ _ _ _ keeps_in_range_refl
                 keeps_in_range_trans _ _ (Hall _)) in H; [|assumption]
    | H : visit_arguments _ _ _ _ _ = Ok _ _ |- _ =>
        apply (measured_visit_arguments _ _ _ _ keeps_in_range_refl
                 keeps_in_range_trans _ _ (Hall _)) in H; [|assumption]
    end;
    repeat match goal with
    | H : addConstant _ _ _ = _ |- _ =>
        unfold addConstant in H; injection H as <- <-
    end;
    try discriminate;
    cbn [labels_used].
  all: range_chain; first [reflexivity | lia].
Qed.

End Targets.

Section Labels.
Variable Value : Type.
Variable MAX_REGISTERS : Z.

Lemma keeps_labels_refl (c : Compiler Value) : keeps_labels c c.
Proof. split; auto. Qed.

Lemma keeps_labels_trans (c1 c2 c3 : Compiler Value) :
  keeps_labels c1 c2 -> keeps_labels c2 c3 -> keeps_labels c1 c3.
Proof. intros [G1 H1] [G2 H2]. split; auto. Qed.

(** Goals [is_Some (labels !! l)], from the insertions and the steps that
    lie before. *)
Ltac marked :=
  repeat match goal with
  | |- is_Some (<[?l := _]> _ !! ?l) => rewrite lookup_insert_eq; eauto
  | |- is_Some (<[_ := _]> _ !! _) =>
      apply lookup_insert_is_Some'; right
  | H : forall l, is_Some (_ !! l) -> is_Some (?labels !! l)
    |- is_Some (?labels !! _) => apply H; clear H
  | H : is_Some ?x |- is_Some ?x => exact H
  end.

(** Goals [l ∈ pending ∪ {[l1]} ∪ {[l2]}]. *)
Ltac in_pending :=
  repeat first
    [ assumption
    | apply elem_of_union_r, elem_of_singleton_2; reflexivity
    | apply elem_of_union_l ].

(** Goals [labels_marked ...], backwards from the last step to the
    first. *)
Ltac marked_steps :=
  repeat match goal with
  | |- labels_marked _ (<[_ := _]> _) _ _ => apply labels_marked_mark
  | |- labels_marked _ _ (_ ++ [mkInstr Jump [_]]) _ =>
      eapply labels_marked_jump;
        [reflexivity | first [right; solve [in_pending] | left; solve [marked]] |]
  | |- labels_marked _ _ (_ ++ [mkInstr JumpIfFalse [_; _]]) _ =>
      eapply labels_marked_jump;
        [reflexivity | first [right; solve [in_pending] | left; solve [marked]] |]
  | |- labels_marked _ _ (_ ++ [mkInstr _ _]) _ =>
      apply labels_marked_emit;
        [first [reflexivity | apply jump_label_other; assumption] |]
  | |- labels_marked _ _ [] (_ ++ [_]) => apply labels_marked_register
  | H : forall p, labels_marked p _ _ _ -> labels_marked p ?L ?B ?F
    |- labels_marked _ ?L ?B ?F => apply H; clear H
  | Hp : labels_marked ?U ?L ?B ?F |- labels_marked ?U' ?L ?B ?F =>
      apply (labels_marked_mono U U'); [intros ? ?; solve [in_pending] | exact Hp]
  end.

Lemma visitNode_keeps_labels : forall node c c',
  visitNode Value MAX_REGISTERS node c = Ok tt c' -> keeps_labels c c'.
Proof.
  fix IH 1. intros node.
  assert (Hall : forall nodes,
            Forall (fun n => forall c c',
                      visitNode Value MAX_REGISTERS n c = Ok tt c' ->
                      keeps_labels c c') nodes).
  { intros nodes. induction nodes; constructor; [apply IH | assumption]. }
  destruct node; intros c c' H; simpl in H; unfold_visitors H; run_steps;
    repeat match goal with
    | x : unit |- _ => destruct x
    end;
    repeat match goal with
    | H : visitNode _ _ _ _ = Ok tt _ |- _ => apply IH in H
    | H : for_each _ _ _ _ = Ok tt _ |- _ =>
        apply (related_for_each _ _ keeps_labels_refl keeps_labels_trans
                 _ _ (Hall _)) in H
    | H : visit_arguments _ _ _ _ _ = Ok _ _ |- _ =>
        apply (related_visit_arguments _ _ keeps_labels_refl
                 keeps_labels_trans _ _ (Hall _)) in H
    end;
    repeat match goal with
    | H : addConstant _ _ _ = _ |- _ =>
        unfold addConstant in H; injection H as <- <-
    end;
    unfold keeps_labels, registerFunction in *; expose_compiler;
    cbn [functions constants] in *;
    repeat match goal with
    | H : _ /\ _ |- _ => destruct H
    end;
    (split; [intros ? ?; solve [marked] | intros ? ?; marked_steps]).
Qed.

(** Where the jumps of the compiled functions lead.  If every jump of
    the bytecode that is in flight when [compile] is called names a label
    with a recorded position (on a compiler that has compiled nothing there
    is no such bytecode), then in the module that [compile] hands to
    [finalize] every [Jump] and [JumpIfFalse] of every function names a
    label for which [markLabel] has recorded a position.  If moreover no
    function definition stands inside an [if], a [while] or a [for], no
    bytecode is in flight and [next_label_] does not wrap during the
    compilation, that position is an index of the bytecode of the function
    that holds the jump, or its size. *)
Theorem compiled_jumps_are_marked finalize root c m c' :
  (forall i l, i ∈ current_bytecode Value c -> jump_label i = Some l ->
               is_Some (label_positions Value c !! l)) ->
  compile Value MAX_REGISTERS finalize root c = Ok m c' ->
  exists lowered,
    finalize lowered = inr m /\
    (forall f i l,
       f ∈ functions Value lowered ->
       i ∈ bytecode f ->
       jump_label i = Some l ->
       is_Some (label_positions Value c' !! l)) /\
    (functions_outside_branches root = true ->
     current_bytecode Value c = [] ->
     0 <= next_label Value c ->
     next_label Value c + Z.of_nat (labels_used root) < 2 ^ 32 ->
     forall f i l,
       f ∈ functions Value lowered ->
       i ∈ bytecode f ->
       jump_label i = Some l ->
       exists pos,
         label_positions Value c' !! l = Some pos /\
         0 <= pos <= Z.of_nat (length (bytecode f))).
Proof.
  intros Hflight H. apply compile_Ok in H as (c1 & Hv & Hfin & ->).
  exists (current_module Value c1). split; [exact Hfin|]. split.
  - intros f i l Hf Hi Hl.
    destruct (visitNode_keeps_labels _ _ _ Hv) as [_ Hk].
    destruct (Hk ∅) as [_ Hfs].
    + split.
      * intros j k Hj Hk'. left. exact (Hflight j k Hj Hk').
      * intros g Hg. simpl in Hg. apply elem_of_nil in Hg. contradiction.
    + destruct (Hfs f Hf i l Hi Hl) as [Hm|Hp]; [exact Hm|].
      apply elem_of_empty in Hp. contradiction.
  - intros Hout Hempty H0 Hfit f i l Hf Hi Hl.
    destruct (visitNode_keeps_in_range _ _ _ _ _ Hout Hv) as [_ Hr];
      [exact H0 | exact Hfit |].
    destruct Hr as [_ Hfs].
    + split.
      * cbn. rewrite Hempty. intros j k Hj.
        apply elem_of_nil in Hj. contradiction.
      * intros g Hg. simpl in Hg. apply elem_of_nil in Hg. contradiction.
    + destruct (Hfs f Hf i l Hi Hl) as [_ Ht]. exact Ht.
Qed.

End Labels.

(** A function defined inside a branch takes the jump over that branch
    with it, and the label of that jump is marked later, in the bytecode of
    the enclosing function: in [function f() { if (c) { function g() {} 1;
    2; 3; 4 } }] the bytecode of [g] has four instructions, and its
    [JumpIfFalse] names the label 0, whose position is 5. *)
Lemma nested_function_jumps_out :
  exists m c g,
    compile unit 256 inr
      (FunctionDef "f" []
         [IfStatement (Literal tt)
            [FunctionDef "g" [] []; Literal tt; Literal tt; Literal tt;
             Literal tt] None])
      (new_Compiler unit) = Ok m c /\
    functions unit m !! 0%nat = Some g /\
    name g = "g" /\
    bytecode g = [mkInstr LoadConst [0]; mkInstr JumpIfFalse [0; 0];
                  mkInstr LoadConst [0]; mkInstr Return []] /\
    label_positions unit c !! 0 = Some 5.
Proof.
  eexists _, _, _. split; [vm_compute; reflexivity|].
  repeat split; reflexivity.
Qed.


(** ** Operators *)

Section Operators.
Variable Value : Type.

Ltac table_row :=
  match goal with
  | |- context [String.eqb ?a ?b] =>
      destruct (String.eqb_spec a b) as [->|_];
        [ let H := fresh in
          intros H; injection H as <- <-; split;
            [reflexivity | simpl; repeat first [left; reflexivity | right]]
        | ]
  end.

Lemma binaryOpToOpCode_table op (c : Compiler Value) opc c' :
  binaryOpToOpCode Value op c = Ok opc c' ->
  c' = c /\
  In (op, opc)
     [("+", Add); ("-", Sub); ("*", Mul); ("/", Div); ("%", Mod);
      ("==", Equal); ("!=", NotEqual); ("<", Less); ("<=", LessEqual);
      (">", Greater); (">=", GreaterEqual); ("&&", And); ("||", Or)]%string.
Proof.
  unfold binaryOpToOpCode, ret, throw. repeat table_row. discriminate.
Qed.

Lemma unaryOpToOpCode_table op (c : Compiler Value) opc c' :
  unaryOpToOpCode Value op c = Ok opc c' ->
  c' = c /\ In (op, opc) [("-", Neg); ("!", Not)]%string.
Proof.
  unfold unaryOpToOpCode, ret, throw. repeat table_row. discriminate.
Qed.

Ltac table_rows H :=
  simpl in H;
  repeat (destruct H as [H|H]; [injection H as <- <-|]);
  try contradiction.

(** The operator tables are one-to-one: [binaryOpToOpCode] and
    [unaryOpToOpCode] change nothing, two operators with the same opcode
    are the same operator, and no opcode stands for both a binary and a
    unary operator (binary [-] is [Sub], unary [-] is [Neg]). *)
Theorem operators_are_distinct op1 op2 opc1 opc2 (c c1 c2 : Compiler Value) :
  (binaryOpToOpCode Value op1 c = Ok opc1 c1 ->
   binaryOpToOpCode Value op2 c = Ok opc2 c2 ->
   c1 = c /\ (opc1 = opc2 <-> op1 = op2)) /\
  (unaryOpToOpCode Value op1 c = Ok opc1 c1 ->
   unaryOpToOpCode Value op2 c = Ok opc2 c2 ->
   c1 = c /\ (opc1 = opc2 <-> op1 = op2)) /\
  (binaryOpToOpCode Value op1 c = Ok opc1 c1 ->
   unaryOpToOpCode Value op2 c = Ok opc2 c2 ->
   opc1 <> opc2).
Proof.
  split; [|split]; intros H1 H2.
  - apply binaryOpToOpCode_table in H1 as [-> T1].
    apply binaryOpToOpCode_table in H2 as [_ T2].
    split; [reflexivity|].
    table_rows T1; table_rows T2; split; first [reflexivity | discriminate].
  - apply unaryOpToOpCode_table in H1 as [-> T1].
    apply unaryOpToOpCode_table in H2 as [_ T2].
    split; [reflexivity|].
    table_rows T1; table_rows T2; split; first [reflexivity | discriminate].
  - apply binaryOpToOpCode_table in H1 as [-> T1].
    apply unaryOpToOpCode_table in H2 as [_ T2].
    table_rows T1; table_rows T2; discriminate.
Qed.

End Operators.

Lemma registers_never_released_witness :
  exists c',
    visitNode unit 256 (BinaryOp "+" (Literal tt) (Literal tt))
      (new_Compiler unit) = Ok tt c' /\
    current_register unit c' = 2.
Proof.
  eexists. split.
  - vm_compute. reflexivity.
  - apply (registers_never_released unit 256
             (BinaryOp "+" (Literal tt) (Literal tt)) (new_Compiler unit)).
    vm_compute. reflexivity.
Defined.

Lemma scopes_balanced_witness :
  exists c',
    visitNode unit 256
      (ForLoop (Literal tt) (Literal tt) (Literal tt)
         [Assignment "i" (Literal tt)])
      (new_Compiler unit) = Ok tt c' /\
    scope_stack unit c' = scope_stack unit (new_Compiler unit).
Proof.
  eexists. split.
  - vm_compute. reflexivity.
  - apply (scopes_balanced unit 256
             (ForLoop (Literal tt) (Literal tt) (Literal tt)
                [Assignment "i" (Literal tt)]) (new_Compiler unit)).
    + vm_compute. reflexivity.
    + exact I.
Defined.

Lemma no_variables_without_scope_witness :
  visitNode unit 256 (Identifier "x") (new_Compiler unit)
    = Err "Undefined variable: x".
Proof.
  apply (no_variables_without_scope unit 256 "x" (new_Compiler unit)).
  reflexivity.
Defined.

Lemma compiled_program_top_level_witness :
  exists m c,
    compile unit 256 inr
      (Program [FunctionDef "f" ["x"] [ReturnStatement (Some (Identifier "x"))]])
      (new_Compiler unit) = Ok m c /\
    scope_stack unit c = [].
Proof.
  eexists _, _. split.
  - vm_compute. reflexivity.
  - eapply (compiled_program_top_level unit 256 inr
              [FunctionDef "f" ["x"] [ReturnStatement (Some (Identifier "x"))]]
              (new_Compiler unit)).
    + reflexivity.
    + vm_compute. reflexivity.
Defined.

Lemma function_takes_code_in_flight_witness :
  exists c',
    visitNode unit 256 (FunctionDef "f" [] [])
      (set_bytecode unit [mkInstr LoadConst [0]] (new_Compiler unit))
      = Ok tt c' /\
    current_bytecode unit c' = [].
Proof.
  eexists. split.
  - vm_compute. reflexivity.
  - apply (function_takes_code_in_flight unit 256 "f" [] []
             (set_bytecode unit [mkInstr LoadConst [0]] (new_Compiler unit))).
    vm_compute. reflexivity.
Defined.

Lemma compiled_jumps_are_marked_witness :
  exists m c,
    compile unit 256 inr
      (FunctionDef "f" [] [IfStatement (Literal tt) [] None])
      (new_Compiler unit) = Ok m c /\
    is_Some (label_positions unit c !! 1) /\
    exists pos, label_positions unit c !! 1 = Some pos /\ 0 <= pos <= 5.
Proof.
  eexists _, _. split.
  - vm_compute. reflexivity.
  - edestruct (compiled_jumps_are_marked unit 256 inr
                 (FunctionDef "f" [] [IfStatement (Literal tt) [] None])
                 (new_Compiler unit))
      as (lowered & Hfin & Hmarked & Hrange).
    + intros i l Hi. apply elem_of_nil in Hi. contradiction.
    + vm_compute. reflexivity.
    + injection Hfin as ->. split.
      * apply (Hmarked
                 (mkFunction "f" 0 []
                    [mkInstr LoadConst [0]; mkInstr JumpIfFalse [0; 0];
                     mkInstr Jump [1]; mkInstr LoadConst [0];
                     mkInstr Return []])
                 (mkInstr Jump [1]) 1).
        -- apply list_elem_of_here.
        -- do 2 apply list_elem_of_further. apply list_elem_of_here.
        -- reflexivity.
      * apply (Hrange eq_refl eq_refl ltac:(simpl; lia) ltac:(simpl; lia)
                 (mkFunction "f" 0 []
                    [mkInstr LoadConst [0]; mkInstr JumpIfFalse [0; 0];
                     mkInstr Jump [1]; mkInstr LoadConst [0];
                     mkInstr Return []])
                 (mkInstr Jump [1]) 1).
        -- apply list_elem_of_here.
        -- do 2 apply list_elem_of_further. apply list_elem_of_here.
        -- reflexivity.
Defined.

Lemma operators_are_distinct_witness :
  Sub <> Neg.
Proof.
  apply (operators_are_distinct unit "-" "-" Sub Neg
           (new_Compiler unit) (new_Compiler unit) (new_Compiler unit));
    reflexivity.
Defined.

End CompilerFacts.

(* --------------------------------------------------------------------- *)
(** ** Loops *)
(* --------------------------------------------------------------------- *)

Section LoopFacts.
Context {S : Type}.
Variables (cond : S -> bool) (body : S -> option (ctl S)).
Variables (measure : S -> nat) (Inv Post : S -> Prop).

(** A loop whose body keeps [Inv] and decreases [measure] returns once the
    fuel covers the measure, in a state that satisfies [Post]: the one a
    [break] leaves, or one in which the condition fails. *)
Lemma loop_total :
  (forall s, Inv s -> cond s = true ->
     (0 < measure s)%nat /\
     exists r, body s = Some r /\
       match r with
       | Continue s' => Inv s' /\ (measure s' < measure s)%nat
       | Break s' => Post s'
       end) ->
  (forall s, Inv s -> cond s = false -> Post s) ->
  forall fuel s, Inv s -> (measure s <= fuel)%nat ->
  exists s', loop fuel cond body s = Some s' /\ Post s'.
Proof.
  intros Hbody Hexit fuel.
  induction fuel as [|fuel IH]; intros s HI Hm; simpl;
    destruct (cond s) eqn:Hc; eauto.
  - destruct (Hbody s HI Hc) as [Hpos _]. lia.
  - destruct (Hbody s HI Hc) as (_ & r & Hr & Hstep). rewrite Hr.
    destruct r as [s'|s'].
    + destruct Hstep as [HI' Hlt]. apply IH; [exact HI' | lia].
    + eauto.
Qed.

(** Loops with pointwise equal conditions and bodies are equal. *)
Lemma loop_ext cond' body' :
  (forall s, cond s = cond' s) -> (forall s, body s = body' s) ->
  forall fuel s, loop fuel cond body s = loop fuel cond' body' s.
Proof.
  intros Hc Hb fuel.
  induction fuel as [|fuel IH]; intros s; simpl; rewrite <- Hc, <- ?Hb.
  - reflexivity.
  - destruct (cond s); [|reflexivity].
    destruct (body s) as [[s'|s']|]; auto.
Qed.

(** More fuel does not change what a loop returns. *)
Lemma loop_more_fuel : forall fuel fuel' s r,
  loop fuel cond body s = Some r -> (fuel <= fuel')%nat ->
  loop fuel' cond body s = Some r.
Proof.
  induction fuel as [|fuel IH]; intros fuel' s r; simpl;
    destruct (cond s) eqn:Hc; try discriminate; intros H Hle.
  - destruct fuel'; simpl; rewrite Hc; exact H.
  - destruct fuel' as [|fuel']; [lia|]. simpl. rewrite Hc.
    destruct (body s) as [[s'|s']|]; try discriminate.
    + apply IH; [exact H | lia].
    + exact H.
  - destruct fuel'; simpl; rewrite Hc; exact H.
Qed.

Lemma loop_agree fuel fuel' s r r' :
  loop fuel cond body s = Some r -> loop fuel' cond body s = Some r' ->
  r = r'.
Proof.
  intros H H'.
  apply (loop_more_fuel _ (Nat.max fuel fuel')) in H; [|lia].
  apply (loop_more_fuel _ (Nat.max fuel fuel')) in H'; [|lia].
  congruence.
Qed.

End LoopFacts.

(* --------------------------------------------------------------------- *)
(** ** The lexer *)
(* --------------------------------------------------------------------- *)

Module LexerFacts.
Import Lexer.

Lemma get_None_iff s : forall i,
  String.get i s = None <-> (String.length s <= i)%nat.
Proof.
  induction s as [|c s IH]; intros i; simpl.
  - split; [lia | reflexivity].
  - destruct i as [|i]; simpl.
    + split; [discriminate | lia].
    + rewrite IH. lia.
Qed.

Lemma char_at_outside s i : (String.length s <= i)%nat -> char_at s i = NUL.
Proof.
  intros H. unfold char_at. apply get_None_iff in H. rewrite H. reflexivity.
Qed.

Lemma char_at_inside s i : char_at s i <> NUL -> (i < String.length s)%nat.
Proof.
  intros H. destruct (Nat.lt_ge_cases i (String.length s)) as [Hlt|Hge].
  - exact Hlt.
  - elim H. apply char_at_outside. exact Hge.
Qed.

Lemma in_source_true lx :
  in_source lx = true <-> (position lx < String.length (source lx))%nat.
Proof. unfold in_source. apply Nat.ltb_lt. Qed.

Lemma in_source_false lx :
  in_source lx = false <-> (String.length (source lx) <= position lx)%nat.
Proof. unfold in_source. apply Nat.ltb_ge. Qed.

(** [peek()] is the character after the current one, NUL past the end. *)
Lemma peek_char_at lx : peek lx = char_at (source lx) (S (position lx)).
Proof.
  unfold peek. rewrite Nat.add_1_r.
  destruct (Nat.leb_spec (String.length (source lx)) (S (position lx))) as [H|H].
  - symmetry. apply char_at_outside. exact H.
  - reflexivity.
Qed.

Lemma advance_source lx : source (advance lx) = source lx.
Proof.
  unfold advance. destruct (in_source lx); [|reflexivity].
  destruct (Ascii.eqb (current lx) LF); reflexivity.
Qed.

Lemma advance_position lx :
  in_source lx = true -> position (advance lx) = S (position lx).
Proof.
  intros H. unfold advance. rewrite H.
  destruct (Ascii.eqb (current lx) LF); reflexivity.
Qed.

Lemma advance_at_end lx : in_source lx = false -> advance lx = lx.
Proof. intros H. unfold advance. rewrite H. reflexivity. Qed.

Lemma advance_position_le lx : (position lx <= position (advance lx))%nat.
Proof.
  destruct (in_source lx) eqn:H.
  - rewrite advance_position by exact H. lia.
  - rewrite advance_at_end by exact H. lia.
Qed.

Lemma advance_remaining lx :
  in_source lx = true -> (remaining (advance lx) < remaining lx)%nat.
Proof.
  intros H. unfold remaining. rewrite advance_source, advance_position by exact H.
  apply in_source_true in H. lia.
Qed.

Lemma in_source_remaining lx : in_source lx = true -> (0 < remaining lx)%nat.
Proof. intros H. apply in_source_true in H. unfold remaining. lia. Qed.

Lemma extends_refl lx : extends lx lx.
Proof. split; [reflexivity | lia]. Qed.

Lemma extends_trans a b c : extends a b -> extends b c -> extends a c.
Proof. intros [H1 H2] [H3 H4]. split; [congruence | lia]. Qed.

Lemma extends_advance lx : extends lx (advance lx).
Proof. split; [apply advance_source | apply advance_position_le]. Qed.

Lemma extends_advance_r a b : extends a b -> extends a (advance b).
Proof. intros H. exact (extends_trans _ _ _ H (extends_advance b)). Qed.

Lemma extends_remaining a b : extends a b -> (remaining b <= remaining a)%nat.
Proof. intros [Hs Hp]. unfold remaining. rewrite Hs. lia. Qed.

Create HintDb lexer.
#[local] Hint Resolve extends_refl extends_advance extends_advance_r : lexer.

Lemma moved_remaining a b :
  in_source a = true -> source b = source a ->
  (position a < position b)%nat -> (remaining b < remaining a)%nat.
Proof.
  intros Hin Hs Hp. apply in_source_true in Hin. unfold remaining.
  rewrite Hs. lia.
Qed.

(** A loop over a state that holds the lexer ([lexer_of]), which consumes
    input at every turn and never breaks: it returns, having only moved
    forward, in a state in which its condition fails. *)
Lemma advancing_loop {A : Type} (lexer_of : A -> Lexer) (test : A -> bool)
    (step : A -> A) (s0 : A) :
  (forall s, in_source (lexer_of s) = true ->
     source (lexer_of (step s)) = source (lexer_of s) /\
     (position (lexer_of s) < position (lexer_of (step s)))%nat) ->
  forall fuel, (remaining (lexer_of s0) <= fuel)%nat ->
  exists s',
    loop fuel (fun s => in_source (lexer_of s) && test s)
         (fun s => Some (Continue (step s))) s0 = Some s' /\
    extends (lexer_of s0) (lexer_of s') /\
    in_source (lexer_of s') && test s' = false /\
    (in_source (lexer_of s0) && test s0 = true ->
     (position (lexer_of s0) < position (lexer_of s'))%nat).
Proof.
  intros Hstep fuel Hfuel.
  apply (loop_total _ _ (fun s => remaining (lexer_of s))
           (fun s => extends (lexer_of s0) (lexer_of s) /\
                     (s = s0 \/
                      (position (lexer_of s0) < position (lexer_of s))%nat))
           (fun s' => extends (lexer_of s0) (lexer_of s') /\
                      in_source (lexer_of s') && test s' = false /\
                      (in_source (lexer_of s0) && test s0 = true ->
                       (position (lexer_of s0) < position (lexer_of s'))%nat))).
  - intros s [[Hsrc Hle] Hmoved] Hc. apply andb_true_iff in Hc as [Hin _].
    destruct (Hstep s Hin) as [Hs Hp].
    split; [apply in_source_remaining; exact Hin|].
    eexists. split; [reflexivity|]. simpl.
    split; [split; [split|]|].
    + congruence.
    + lia.
    + right. lia.
    + apply moved_remaining; assumption.
  - intros s [Hext Hmoved] Hc. split; [exact Hext|]. split; [exact Hc|].
    intros Hc0. destruct Hmoved as [->|Hlt]; [congruence | exact Hlt].
  - split; [apply extends_refl | left; reflexivity].
  - exact Hfuel.
Qed.

Lemma advance_moves lx :
  in_source lx = true ->
  source (advance lx) = source lx /\
  (position lx < position (advance lx))%nat.
Proof.
  intros H. rewrite advance_source, advance_position by exact H.
  split; [reflexivity | lia].
Qed.

Lemma advance_twice_moves lx :
  in_source lx = true ->
  source (advance (advance lx)) = source lx /\
  (position lx < position (advance (advance lx)))%nat.
Proof.
  intros H. rewrite !advance_source.
  pose proof (advance_position_le (advance lx)) as Hle.
  rewrite advance_position in Hle by exact H.
  split; [reflexivity | lia].
Qed.

(** [scan_while] returns: it has consumed the characters that satisfy the
    predicate, at least one when the current character does. *)
Lemma scan_while_spec pred lx v :
  exists lx' v',
    scan_while pred (lx, v) = Some (lx', v') /\
    extends lx lx' /\
    (in_source lx && pred (current lx) = true ->
     (position lx < position lx')%nat).
Proof.
  unfold scan_while.
  destruct (advancing_loop (A := Lexer * string) fst
              (fun s => pred (current (fst s)))
              (fun s => let (lx, v) := s in
                        (advance lx, push_back v (current lx)))
              (lx, v)) with (fuel := remaining lx)
    as ([lx' v'] & Hloop & Hext & _ & Hmoved).
  - intros [l w] Hin. simpl in *. apply advance_moves. exact Hin.
  - simpl. lia.
  - exists lx', v'. simpl in *. split; [|split; assumption].
    rewrite <- Hloop. apply loop_ext.
    + reflexivity.
    + intros [l w]. reflexivity.
Qed.

(** The loop that skips the text of a [/* ... */] comment returns. *)
Lemma block_comment_loop lx : forall fuel, (remaining lx <= fuel)%nat ->
  exists lx',
    loop fuel in_source
      (fun lx =>
         if Ascii.eqb (current lx) "*" && Ascii.eqb (peek lx) "/"
         then Some (Break (advance (advance lx)))
         else Some (Continue (advance lx))) lx = Some lx' /\
    extends lx lx'.
Proof.
  intros fuel Hfuel.
  apply (loop_total _ _ remaining (extends lx) (extends lx)).
  - intros s Hext Hin. split; [apply in_source_remaining; exact Hin|].
    destruct (Ascii.eqb (current s) "*" && Ascii.eqb (peek s) "/");
      (eexists; split; [reflexivity|]); cbn beta iota.
    + auto with lexer.
    + split; [auto with lexer | apply advance_remaining; exact Hin].
  - auto.
  - apply extends_refl.
  - exact Hfuel.
Qed.

(** The loop that skips to the end of a [//] comment returns. *)
Lemma line_comment_loop lx : forall fuel, (remaining lx <= fuel)%nat ->
  exists lx',
    loop fuel (fun lx => in_source lx && negb (Ascii.eqb (current lx) LF))
      (fun lx => Some (Continue (advance lx))) lx = Some lx' /\
    extends lx lx'.
Proof.
  intros fuel Hfuel.
  destruct (advancing_loop (fun lx => lx)
              (fun lx => negb (Ascii.eqb (current lx) LF)) advance lx)
    with (fuel := fuel) as (lx' & Hloop & Hext & _).
  - intros s Hin. apply advance_moves. exact Hin.
  - exact Hfuel.
  - exists lx'. split; assumption.
Qed.

(** [skipWhitespaceAndComments] returns, having only moved forward. *)
Lemma skipWhitespaceAndComments_spec lx :
  exists lx', skipWhitespaceAndComments lx = Some lx' /\ extends lx lx'.
Proof.
  unfold skipWhitespaceAndComments.
  apply (loop_total _ _ remaining (extends lx) (extends lx));
    [| auto | apply extends_refl | lia].
  intros s Hext Hin. split; [apply in_source_remaining; exact Hin|].
  destruct (isspace (current s)).
  { eexists. split; [reflexivity|]. cbn beta iota.
    split; [auto with lexer | apply advance_remaining; exact Hin]. }
  destruct (advance_twice_moves s Hin) as [Hsrc Hpos].
  destruct (Ascii.eqb (current s) "/" && Ascii.eqb (peek s) "/").
  { destruct (line_comment_loop (advance (advance s))
                (remaining (advance (advance s)))) as (l & Hl & Hle);
      [lia|].
    rewrite Hl. eexists. split; [reflexivity|]. cbn beta iota.
    assert (Hfin : extends (advance (advance s))
                     (if in_source l then advance l else l)).
    { destruct (in_source l); auto with lexer. }
    destruct Hfin as [Hs2 Hp2]. split.
    - eapply extends_trans; [exact Hext|]. split; [congruence | lia].
    - apply moved_remaining; [exact Hin | congruence | lia]. }
  destruct (Ascii.eqb (current s) "/" && Ascii.eqb (peek s) "*").
  { destruct (block_comment_loop (advance (advance s))
                (remaining (advance (advance s)))) as (l & Hl & Hs2 & Hp2);
      [lia|].
    rewrite Hl. eexists. split; [reflexivity|]. cbn beta iota. split.
    - eapply extends_trans; [exact Hext|]. split; [congruence | lia].
    - apply moved_remaining; [exact Hin | congruence | lia]. }
  eexists. split; [reflexivity | exact Hext].
Qed.

(** ** Every scanner consumes input *)

Lemma progress_intro lx0 lx (r : Token * Lexer) :
  extends lx0 lx ->
  in_source lx = true ->
  source (snd r) = source lx ->
  (position lx < position (snd r))%nat ->
  type (fst r) <> END_OF_FILE ->
  progress lx0 r.
Proof.
  intros [Hs Hp] Hin Hs' Hp' Ht. split; [|split; [congruence|]].
  - apply in_source_true in Hin. apply in_source_true. rewrite <- Hs. lia.
  - split; [lia | exact Ht].
Qed.

Lemma makeToken_progress lx0 lx t v :
  extends lx0 lx -> in_source lx = true -> t <> END_OF_FILE ->
  progress lx0 (makeToken lx t v).
Proof.
  intros Hext Hin Ht. destruct (advance_moves lx Hin) as [Hs Hp].
  apply (progress_intro lx0 lx); assumption.
Qed.

Lemma makeToken_advance_progress lx0 lx t v :
  extends lx0 lx -> in_source lx = true -> t <> END_OF_FILE ->
  progress lx0 (makeToken (advance lx) t v).
Proof.
  intros Hext Hin Ht. destruct (advance_twice_moves lx Hin) as [Hs Hp].
  apply (progress_intro lx0 lx); assumption.
Qed.

Lemma scanCharacter_progress lx0 lx :
  extends lx0 lx -> in_source lx = true ->
  progress lx0 (scanCharacter lx).
Proof.
  intros Hext Hin. destruct (advance_moves lx Hin) as [Hs Hp].
  assert (Hrest : exists l v,
            scanCharacter lx = (mkToken CHAR v (line lx) (column lx), l) /\
            extends (advance lx) l).
  { unfold scanCharacter.
    destruct (in_source (advance lx) && Ascii.eqb (current (advance lx)) "\");
      [|destruct (in_source (advance lx))];
      match goal with
      | |- context [if ?b then advance ?l else ?l] =>
          destruct b; eexists _, _; (split; [reflexivity|]); auto with lexer
      end. }
  destruct Hrest as (l & v & -> & Hs2 & Hp2).
  apply (progress_intro lx0 lx); simpl;
    [assumption | assumption | congruence | lia | discriminate].
Qed.

Lemma scanString_progress lx0 lx :
  extends lx0 lx -> in_source lx = true ->
  exists r, scanString lx = Some r /\ progress lx0 r.
Proof.
  intros Hext Hin. destruct (advance_moves lx Hin) as [Hs Hp].
  unfold scanString.
  destruct (advancing_loop (A := Lexer * string) fst
              (fun s => negb (Ascii.eqb (current (fst s)) DQUOTE))
              (fun s =>
                 if Ascii.eqb (current (fst s)) "\"
                    && negb (Ascii.eqb (peek (fst s)) NUL)
                 then (advance (advance (fst s)),
                       push_back (snd s)
                         (unescape DQUOTE (current (advance (fst s)))))
                 else (advance (fst s), push_back (snd s) (current (fst s))))
              (advance lx, EmptyString)) with (fuel := remaining (advance lx))
    as ([l v] & Hloop & [Hs2 Hp2] & _).
  - intros [l w] Hl. simpl in *.
    destruct (Ascii.eqb (current l) "\" && negb (Ascii.eqb (peek l) NUL)); simpl.
    + apply advance_twice_moves. exact Hl.
    + apply advance_moves. exact Hl.
  - simpl. lia.
  - erewrite loop_ext; [rewrite Hloop | reflexivity |].
    + eexists. split; [reflexivity|]. simpl in *.
      assert (Hfin : extends l (if in_source l then advance l else l)).
      { destruct (in_source l); auto with lexer. }
      destruct Hfin as [Hs3 Hp3].
      apply (progress_intro lx0 lx); simpl;
        [assumption | assumption | congruence | lia | discriminate].
    + intros [l' w]. simpl.
      destruct (Ascii.eqb (current l') "\" && negb (Ascii.eqb (peek l') NUL));
        reflexivity.
Qed.

Lemma scanNumber_progress lx0 lx :
  extends lx0 lx -> in_source lx = true -> isdigit (current lx) = true ->
  exists r, scanNumber lx = Some r /\ progress lx0 r.
Proof.
  intros Hext Hin Hdigit. unfold scanNumber.
  destruct (Ascii.eqb (current lx) "0" &&
            (Ascii.eqb (peek lx) "x" || Ascii.eqb (peek lx) "X")).
  - destruct (advance_twice_moves lx Hin) as [Hs Hp].
    match goal with
    | |- context [scan_while ?p (?l, ?v)] =>
        destruct (scan_while_spec p l v) as (l1 & v1 & -> & [Hs1 Hp1] & _)
    end.
    eexists. split; [reflexivity|].
    apply (progress_intro lx0 lx); simpl;
      [assumption | assumption | congruence | lia | discriminate].
  - destruct (scan_while_spec isdigit lx EmptyString)
      as (l1 & v1 & -> & [Hs1 Hp1] & Hmoved).
    assert (Hlt : (position lx < position l1)%nat).
    { apply Hmoved. rewrite Hin, Hdigit. reflexivity. }
    match goal with
    | |- context [if ?b then _ else Some (mkToken NUMBER _ _ _, _)] =>
        destruct b
    end.
    + match goal with
      | |- context [scan_while ?p (?l, ?v)] =>
          destruct (scan_while_spec p l v) as (l2 & v2 & -> & [Hs2 Hp2] & _)
      end.
      pose proof (extends_advance l1) as [Hs1' Hp1'].
      match goal with
      | |- context [if ?b then _ else Some (mkToken FLOAT _ _ _, _)] =>
          destruct b
      end.
      * match goal with
        | |- context [if ?b then (advance ?l, ?v) else (?l, ?w)] =>
            assert (Hsign : exists l3 v3,
                      (if b then (advance l, v) else (l, w)) = (l3, v3) /\
                      extends l l3)
              by (destruct b; eexists _, _; split;
                  try reflexivity; auto with lexer)
        end.
        destruct Hsign as (l3 & v3 & -> & [Hs3 Hp3]).
        pose proof (extends_advance l2) as [Hs2' Hp2'].
        destruct (scan_while_spec isdigit l3 v3)
          as (l4 & v4 & -> & [Hs4 Hp4] & _).
        eexists. split; [reflexivity|].
        apply (progress_intro lx0 lx); simpl;
          [assumption | assumption | congruence | lia | discriminate].
      * eexists. split; [reflexivity|].
        apply (progress_intro lx0 lx); simpl;
          [assumption | assumption | congruence | lia | discriminate].
    + eexists. split; [reflexivity|].
      apply (progress_intro lx0 lx); simpl;
        [assumption | assumption | congruence | lia | discriminate].
Qed.

Lemma find_keywords_not_eof v t : find v keywords = Some t -> t <> END_OF_FILE.
Proof.
  unfold keywords. simpl.
  repeat match goal with
  | |- context [String.eqb ?a ?b] => destruct (String.eqb a b)
  end; intros H; try discriminate H; injection H as <-; discriminate.
Qed.

Lemma scanIdentifier_progress lx0 lx :
  extends lx0 lx -> in_source lx = true ->
  isalpha (current lx) || Ascii.eqb (current lx) "_" = true ->
  exists r, scanIdentifier lx = Some r /\ progress lx0 r.
Proof.
  intros Hext Hin Hstart. unfold scanIdentifier.
  destruct (scan_while_spec (fun c => isalnum c || Ascii.eqb c "_") lx EmptyString)
    as (l1 & v1 & -> & [Hs1 Hp1] & Hmoved).
  assert (Hlt : (position lx < position l1)%nat).
  { apply Hmoved. rewrite Hin. simpl. unfold isalnum.
    apply orb_true_iff in Hstart as [Ha|Hu]; rewrite ?Ha, ?Hu;
      [reflexivity | apply orb_true_r]. }
  destruct (find v1 keywords) as [t|] eqn:Hfind;
    (eexists; split; [reflexivity|]);
    apply (progress_intro lx0 lx); simpl; try assumption; try lia.
  - exact (find_keywords_not_eof v1 t Hfind).
  - discriminate.
Qed.

(** [nextToken] returns: either the [END_OF_FILE] token, at the end of the
    input, or another token, and then it has consumed input. *)
Lemma nextToken_spec lx :
  exists r, nextToken lx = Some r /\ (at_eof lx r \/ progress lx r).
Proof.
  unfold nextToken.
  destruct (skipWhitespaceAndComments_spec lx) as (lx1 & -> & Hext).
  destruct (in_source lx1) eqn:Hin; cbn [negb].
  2:{ eexists. split; [reflexivity|]. left. repeat split; simpl; try apply Hext.
      exact Hin. }
  cbv zeta.
  repeat match goal with
  | |- exists r, (if ?b then _ else _) = Some r /\ _ => destruct b eqn:?
  end;
  try (eexists; split; [reflexivity|]; right;
       first [ apply makeToken_advance_progress
             | apply makeToken_progress
             | apply scanCharacter_progress ];
       solve [ assumption | discriminate ]).
  - destruct (scanString_progress lx lx1 Hext Hin) as (r & Hr & Hp).
    exists r. split; [exact Hr | right; exact Hp].
  - destruct (scanNumber_progress lx lx1 Hext Hin) as (r & Hr & Hp);
      [assumption|].
    exists r. split; [exact Hr | right; exact Hp].
  - destruct (scanIdentifier_progress lx lx1 Hext Hin) as (r & Hr & Hp);
      [assumption|].
    exists r. split; [exact Hr | right; exact Hp].
Qed.

(** ** [tokenize] *)

Lemma bool_decide_not_eof t :
  bool_decide (type t <> END_OF_FILE) = false -> type t = END_OF_FILE.
Proof.
  intros H. apply bool_decide_eq_false in H.
  destruct (decide (type t = END_OF_FILE)) as [Heq|Hne]; [exact Heq|].
  contradiction.
Qed.

(** The loop of [tokenize] returns from every state of the lexer: the
    tokens before the last are not [END_OF_FILE], the last one is. *)
Lemma tokenize_from_total lx :
  exists tokens eof,
    tokenize_from lx = Some (tokens ++ [eof]) /\
    type eof = END_OF_FILE /\
    value eof = EmptyString /\
    Forall (fun t => type t <> END_OF_FILE) tokens.
Proof.
  unfold tokenize_from.
  destruct (nextToken_spec lx) as ([token lx1] & -> & Hfirst).
  destruct (loop_total
    (fun s : list Token * Token * Lexer =>
       bool_decide (type (snd (fst s)) <> END_OF_FILE))
    (fun s =>
       let '(tokens, token, lx) := s in
       match nextToken lx with
       | Some (token', lx') => Some (Continue (tokens ++ [token], token', lx'))
       | None => None
       end)
    (fun s => (remaining (snd s) +
               if bool_decide (type (snd (fst s)) <> END_OF_FILE)
               then 1 else 0)%nat)
    (fun s => source (snd s) = source lx1 /\
              Forall (fun t => type t <> END_OF_FILE) (fst (fst s)) /\
              (type (snd (fst s)) = END_OF_FILE ->
               value (snd (fst s)) = EmptyString))
    (fun s => type (snd (fst s)) = END_OF_FILE /\
              value (snd (fst s)) = EmptyString /\
              Forall (fun t => type t <> END_OF_FILE) (fst (fst s))))
    with (fuel := S (String.length (source lx1))) (s := (@nil Token, token, lx1))
    as ([[tokens eof] lx'] & -> & Ht & Hv & Hall).
  - intros [[tokens tok] l] (Hsrc & Hall & Hval) Hc. simpl in *.
    rewrite Hc. split; [lia|].
    apply bool_decide_eq_true in Hc.
    destruct (nextToken_spec l) as ([tok' l'] & -> & Hnext).
    eexists. split; [reflexivity|]. simpl.
    assert (Hall' : Forall (fun t => type t <> END_OF_FILE) (tokens ++ [tok])).
    { apply Forall_app. split; [exact Hall|]. constructor; [exact Hc|constructor]. }
    destruct Hnext as [(Htok & Hext & Hend) | (Hin & Hs & Hp & Hne)]; simpl in *.
    + subst tok'. simpl.
      pose proof (extends_remaining l l' Hext) as Hrem.
      destruct Hext as [Hs _].
      split; [split; [congruence | split; [exact Hall' | reflexivity]] | lia].
    + rewrite bool_decide_eq_true_2 by exact Hne.
      pose proof (moved_remaining l l' Hin Hs Hp) as Hrem.
      split; [split; [congruence | split; [exact Hall' |]] | lia].
      intros Heq. contradiction.
  - intros [[tokens tok] l] (Hsrc & Hall & Hval) Hc. simpl in *.
    apply bool_decide_not_eof in Hc. auto.
  - simpl. repeat split; [constructor|].
    destruct Hfirst as [(Htok & _) | (_ & _ & _ & Hne)]; simpl in *.
    + subst token. reflexivity.
    + intros Heq. contradiction.
  - simpl. unfold remaining. destruct (bool_decide _); lia.
  - exists tokens, eof. simpl in *. auto.
Qed.

(** Before a character that is neither white space nor a slash there is
    nothing to skip. *)
Lemma skip_nothing lx :
  in_source lx = true ->
  isspace (current lx) = false ->
  Ascii.eqb (current lx) "/" = false ->
  skipWhitespaceAndComments lx = Some lx.
Proof.
  intros Hin Hspace Hslash. unfold skipWhitespaceAndComments.
  pose proof (in_source_remaining lx Hin) as Hrem.
  destruct (remaining lx) as [|fuel]; [lia|].
  cbn [loop]. rewrite Hin. cbv beta zeta. rewrite Hspace, Hslash.
  reflexivity.
Qed.

Lemma unknown_byte_not_skipped c :
  unknown_byte c = true -> isspace c = false /\ Ascii.eqb c "/" = false.
Proof.
  destruct c as [b0 b1 b2 b3 b4 b5 b6 b7];
    destruct b0, b1, b2, b3, b4, b5, b6, b7; intros H;
    first [ discriminate H | split; reflexivity ].
Qed.

(** At a byte that no rule matches, [nextToken] skips nothing, emits the
    [ERROR] token for that byte, and consumes it. *)
Lemma nextToken_unknown_byte lx :
  in_source lx = true ->
  unknown_byte (current lx) = true ->
  nextToken lx =
    Some (mkToken ERROR (String (current lx) EmptyString) (line lx) (column lx),
          advance lx).
Proof.
  intros Hin Hunknown.
  destruct (unknown_byte_not_skipped _ Hunknown) as [Hspace Hslash].
  unfold nextToken. rewrite skip_nothing by assumption.
  rewrite Hin. cbn [negb]. cbv zeta.
  clear Hspace Hslash. revert Hunknown.
  generalize (advance lx) (line lx) (column lx) (scanString lx)
    (scanCharacter lx) (scanNumber lx) (scanIdentifier lx) (peek lx).
  intros lx' l c s1 s2 s3 s4 p.
  destruct (current lx) as [b0 b1 b2 b3 b4 b5 b6 b7];
    destruct b0, b1, b2, b3, b4, b5, b6, b7; intros Hunknown;
    first [ discriminate Hunknown | reflexivity ].
Qed.

(** ** The tokens of [tokenize] are those of [nextToken] *)

Lemma nextToken_source lx token lx' :
  nextToken lx = Some (token, lx') -> source lx' = source lx.
Proof.
  intros H. destruct (nextToken_spec lx) as (r & Hr & Hcase).
  rewrite Hr in H. injection H as ->.
  destruct Hcase as [(_ & [Hs _] & _) | (_ & Hs & _)]; exact Hs.
Qed.

Lemma token_stream_deterministic lx ts :
  token_stream lx ts -> forall ts', token_stream lx ts' -> ts = ts'.
Proof.
  induction 1 as [lx token lx' Hn Ht | lx token lx' rest Hn Ht _ IH];
    intros ts' H'; inversion H' as [? t2 l2 Hn2 Ht2 | ? t2 l2 r2 Hn2 Ht2 Hr2];
    subst; rewrite Hn in Hn2; injection Hn2 as <- <-;
    try contradiction.
  - reflexivity.
  - f_equal. apply IH. exact Hr2.
Qed.

Lemma in_hand_stream lx token lx' ts :
  nextToken lx = Some (token, lx') -> in_hand token lx' ts ->
  token_stream lx ts.
Proof.
  intros Hn [[Ht ->] | (Ht & rest & -> & Hrest)].
  - exact (stream_end _ _ _ Hn Ht).
  - exact (stream_next _ _ _ _ Hn Ht Hrest).
Qed.

Lemma tokenize_loop_stream : forall fuel tokens token lx tokens' token' lx',
  loop fuel
    (fun s : list Token * Token * Lexer =>
       bool_decide (type (snd (fst s)) <> END_OF_FILE))
    (fun s =>
       let '(tokens, token, lx) := s in
       match nextToken lx with
       | Some (token', lx') => Some (Continue (tokens ++ [token], token', lx'))
       | None => None
       end)
    (tokens, token, lx) = Some (tokens', token', lx') ->
  exists ts, tokens' ++ [token'] = tokens ++ ts /\ in_hand token lx ts.
Proof.
  induction fuel as [|fuel IH]; intros tokens token lx tokens' token' lx';
    simpl; destruct (bool_decide (type token <> END_OF_FILE)) eqn:Hc;
    try discriminate.
  - intros H. injection H as <- <- <-. apply bool_decide_not_eof in Hc.
    exists [token]. split; [reflexivity | left; auto].
  - destruct (nextToken lx) as [[t2 l2]|] eqn:Hn; [|discriminate].
    intros H. apply IH in H as (ts & Heq & Hts).
    apply bool_decide_eq_true in Hc.
    exists (token :: ts). split.
    + rewrite Heq, <- app_assoc. reflexivity.
    + right. split; [exact Hc|]. exists ts. split; [reflexivity|].
      exact (in_hand_stream _ _ _ _ Hn Hts).
  - intros H. injection H as <- <- <-. apply bool_decide_not_eof in Hc.
    exists [token]. split; [reflexivity | left; auto].
Qed.

(** What [tokenize] returns is the stream of tokens that [nextToken]
    yields, call after call. *)
Lemma tokenize_from_stream lx ts :
  tokenize_from lx = Some ts <-> token_stream lx ts.
Proof.
  assert (Hsound : forall l ts', tokenize_from l = Some ts' ->
                                 token_stream l ts').
  { intros l ts'. unfold tokenize_from.
    destruct (nextToken l) as [[token l1]|] eqn:Hn; [|discriminate].
    match goal with
    | |- context [loop ?f ?c ?b ?s] => destruct (loop f c b s) as [[[tokens' token'] l']|] eqn:Hloop
    end; [|discriminate].
    intros H. injection H as <-.
    apply tokenize_loop_stream in Hloop as (ts0 & Heq & Hts).
    rewrite Heq. exact (in_hand_stream _ _ _ _ Hn Hts). }
  split; [apply Hsound|].
  intros Hstream.
  destruct (tokenize_from_total lx) as (tokens & eof & Htok & _).
  rewrite Htok. f_equal.
  exact (token_stream_deterministic _ _ (Hsound _ _ Htok) _ Hstream).
Qed.

Lemma scans_source src tokens lx : scans src tokens lx -> source lx = src.
Proof.
  induction 1 as [|tokens lx token lx' _ IH Hn _]; [reflexivity|].
  rewrite (nextToken_source _ _ _ Hn). exact IH.
Qed.

(** The tokens collected so far, followed by those still to come. *)
Lemma scans_stream src tokens lx :
  scans src tokens lx ->
  forall rest, token_stream lx rest ->
               token_stream (new_Lexer src) (tokens ++ rest).
Proof.
  induction 1 as [|tokens lx token lx' _ IH Hn Ht]; intros rest Hrest.
  - exact Hrest.
  - rewrite <- app_assoc. apply IH.
    exact (stream_next _ _ _ _ Hn Ht Hrest).
Qed.

Lemma scans_tokenize src tokens lx rest :
  scans src tokens lx -> tokenize_from lx = Some rest ->
  tokenize src = Some (tokens ++ rest).
Proof.
  intros Hscans Hrest. unfold tokenize. apply tokenize_from_stream.
  apply (scans_stream _ _ _ Hscans). apply tokenize_from_stream. exact Hrest.
Qed.

(** [nextToken] looks at its lexer through [skipWhitespaceAndComments]. *)
Lemma nextToken_skipped lx lx1 :
  skipWhitespaceAndComments lx = skipWhitespaceAndComments lx1 ->
  nextToken lx = nextToken lx1.
Proof. intros H. unfold nextToken. rewrite H. reflexivity. Qed.

(** C9.  Lexing is total: for every input, [tokenize] returns a token
    sequence whose last element is the [END_OF_FILE] token and which holds
    no other [END_OF_FILE] token; the sequence is the one that the
    successive calls of [nextToken] yield.  Whenever the loop of [tokenize]
    calls [nextToken] and, white space and comments skipped, the lexer
    stands at a byte that matches no token rule, the token returned is an
    [ERROR] token whose lexeme is that byte, exactly that byte is consumed,
    and scanning continues behind it: the result of [tokenize] is the
    tokens collected before, this [ERROR] token, and the tokens of the
    rest of the source. *)
Theorem lexing_is_total src :
  (exists tokens eof,
      tokenize src = Some (tokens ++ [eof]) /\
      type eof = END_OF_FILE /\
      value eof = EmptyString /\
      Forall (fun t => type t <> END_OF_FILE) tokens) /\
  (forall ts, tokenize src = Some ts <-> token_stream (new_Lexer src) ts) /\
  (forall collected lx lx1,
      scans src collected lx ->
      skipWhitespaceAndComments lx = Some lx1 ->
      in_source lx1 = true ->
      unknown_byte (current lx1) = true ->
      let error :=
        mkToken ERROR (String (current lx1) EmptyString)
          (line lx1) (column lx1) in
      nextToken lx = Some (error, advance lx1) /\
      source (advance lx1) = src /\
      position (advance lx1) = S (position lx1) /\
      scans src (collected ++ [error]) (advance lx1) /\
      exists rest,
        tokenize_from (advance lx1) = Some rest /\
        tokenize src = Some (collected ++ error :: rest)).
Proof.
  split; [|split].
  - unfold tokenize. apply tokenize_from_total.
  - intros ts. unfold tokenize. apply tokenize_from_stream.
  - intros collected lx lx1 Hscans Hskip Hin Hunknown error.
    destruct (unknown_byte_not_skipped _ Hunknown) as [Hspace Hslash].
    assert (Hnext : nextToken lx = Some (error, advance lx1)).
    { rewrite (nextToken_skipped lx lx1).
      - apply nextToken_unknown_byte; assumption.
      - rewrite Hskip. symmetry. apply skip_nothing; assumption. }
    assert (Hscans' : scans src (collected ++ [error]) (advance lx1)).
    { apply (scans_next _ _ _ _ _ Hscans Hnext). discriminate. }
    split; [exact Hnext|]. split; [|split; [|split]].
    + exact (scans_source _ _ _ Hscans').
    + apply advance_position. exact Hin.
    + exact Hscans'.
    + destruct (tokenize_from_total (advance lx1)) as (tokens & eof & Htok & _).
      exists (tokens ++ [eof]). split; [exact Htok|].
      rewrite (scans_tokenize _ _ _ _ Hscans' Htok), <- app_assoc.
      reflexivity.
Qed.

(** ** Comments that are never closed *)

Lemma advance_bound lx :
  (position lx <= String.length (source lx))%nat ->
  (position (advance lx) <= String.length (source (advance lx)))%nat.
Proof.
  intros H. rewrite advance_source. destruct (in_source lx) eqn:Hin.
  - rewrite advance_position by exact Hin. apply in_source_true in Hin. lia.
  - rewrite advance_at_end by exact Hin. exact H.
Qed.

(** Without a [*/] ahead, the loop that skips the text of a comment runs
    to the end of the source. *)
Lemma block_comment_loop_unclosed lx : forall fuel,
  (remaining lx <= fuel)%nat ->
  (position lx <= String.length (source lx))%nat ->
  unclosed (source lx) (position lx) ->
  exists lx',
    loop fuel in_source
      (fun lx =>
         if Ascii.eqb (current lx) "*" && Ascii.eqb (peek lx) "/"
         then Some (Break (advance (advance lx)))
         else Some (Continue (advance lx))) lx = Some lx' /\
    source lx' = source lx /\
    position lx' = String.length (source lx).
Proof.
  intros fuel Hfuel Hbound Hopen.
  apply (loop_total _ _ remaining
           (fun s => extends lx s /\
                     (position s <= String.length (source s))%nat)
           (fun s => source s = source lx /\
                     position s = String.length (source lx))).
  - intros s [[Hsrc Hpos] Hle] Hin.
    split; [apply in_source_remaining; exact Hin|].
    assert (Hno : Ascii.eqb (current s) "*" && Ascii.eqb (peek s) "/" = false).
    { apply not_true_is_false. intros Hc.
      apply andb_true_iff in Hc as [H1 H2].
      apply Ascii.eqb_eq in H1, H2. rewrite peek_char_at in H2.
      unfold current in H1. rewrite Hsrc in H1, H2.
      exact (Hopen (position s) Hpos (conj H1 H2)). }
    rewrite Hno. eexists. split; [reflexivity|]. cbn beta iota.
    split; [split|].
    + apply extends_advance_r. split; assumption.
    + apply advance_bound. exact Hle.
    + apply advance_remaining. exact Hin.
  - intros s [[Hsrc Hpos] Hle] Hin. split; [exact Hsrc|].
    apply in_source_false in Hin. rewrite Hsrc in *. lia.
  - split; [apply extends_refl | exact Hbound].
  - exact Hfuel.
Qed.

(** With a [*/] ahead that ends the source, the same loop stops behind
    it, at the end of the source. *)
Lemma block_comment_loop_closed lx : forall fuel,
  (remaining lx <= fuel)%nat ->
  closed_at_end (source lx) (position lx) ->
  exists lx',
    loop fuel in_source
      (fun lx =>
         if Ascii.eqb (current lx) "*" && Ascii.eqb (peek lx) "/"
         then Some (Break (advance (advance lx)))
         else Some (Continue (advance lx))) lx = Some lx' /\
    source lx' = source lx /\
    position lx' = String.length (source lx).
Proof.
  intros fuel Hfuel (e & Hfrom & Hstar & Hslash & Hlen & Hopen).
  apply (loop_total _ _ remaining
           (fun s => source s = source lx /\
                     (position lx <= position s <= e)%nat)
           (fun s => source s = source lx /\
                     position s = String.length (source lx))).
  - intros s (Hsrc & Hlo & Hhi) Hin.
    split; [apply in_source_remaining; exact Hin|].
    destruct (Nat.eq_dec (position s) e) as [Heq|Hne].
    + assert (Hyes : Ascii.eqb (current s) "*" && Ascii.eqb (peek s) "/" = true).
      { unfold current. rewrite peek_char_at, Hsrc, Heq, Hstar, Hslash.
        reflexivity. }
      rewrite Hyes. eexists. split; [reflexivity|]. cbn beta iota.
      rewrite !advance_source. split; [exact Hsrc|].
      rewrite advance_position.
      * rewrite advance_position by exact Hin. lia.
      * apply in_source_true.
        rewrite advance_source, advance_position, Hsrc by exact Hin. lia.
    + assert (Hno : Ascii.eqb (current s) "*" && Ascii.eqb (peek s) "/" = false).
      { apply not_true_is_false. intros Hc.
        apply andb_true_iff in Hc as [H1 H2].
        apply Ascii.eqb_eq in H1, H2. rewrite peek_char_at in H2.
        unfold current in H1. rewrite Hsrc in H1, H2.
        apply (Hopen (position s)); [lia | exact (conj H1 H2)]. }
      rewrite Hno. eexists. split; [reflexivity|]. cbn beta iota.
      rewrite advance_source, advance_position by exact Hin.
      split; [split; [exact Hsrc | lia]|].
      apply advance_remaining. exact Hin.
  - intros s (Hsrc & Hlo & Hhi) Hin.
    apply in_source_false in Hin. rewrite Hsrc in Hin. lia.
  - split; [reflexivity | lia].
  - exact Hfuel.
Qed.

(** When the loop over the text of a comment ends at the end of the source,
    [nextToken] returns [END_OF_FILE] and [tokenize] has nothing more to
    add. *)
Lemma comment_to_the_end lx lx' :
  current lx = "/"%char ->
  peek lx = "*"%char ->
  loop (remaining (advance (advance lx))) in_source
    (fun lx =>
       if Ascii.eqb (current lx) "*" && Ascii.eqb (peek lx) "/"
       then Some (Break (advance (advance lx)))
       else Some (Continue (advance lx))) (advance (advance lx)) = Some lx' ->
  in_source lx' = false ->
  nextToken lx =
    Some (mkToken END_OF_FILE EmptyString (line lx') (column lx'), lx') /\
  tokenize_from lx =
    Some [mkToken END_OF_FILE EmptyString (line lx') (column lx')].
Proof.
  intros Hslash Hstar Hloop Hout.
  assert (Hin : in_source lx = true).
  { apply in_source_true, char_at_inside. fold (current lx).
    rewrite Hslash. discriminate. }
  assert (Hskip : skipWhitespaceAndComments lx = Some lx').
  { unfold skipWhitespaceAndComments.
    pose proof (in_source_remaining lx Hin) as Hrem.
    destruct (remaining lx) as [|fuel]; [lia|].
    cbn [loop]. rewrite Hin. cbv beta zeta. rewrite Hslash, Hstar.
    change (isspace "/") with false.
    change (Ascii.eqb "/" "/") with true.
    change (Ascii.eqb "*" "/") with false.
    change (Ascii.eqb "*" "*") with true.
    cbn [andb]. rewrite Hloop.
    destruct fuel; cbn [loop]; rewrite Hout; reflexivity. }
  assert (Hnext : nextToken lx =
            Some (mkToken END_OF_FILE EmptyString (line lx') (column lx'), lx')).
  { unfold nextToken. rewrite Hskip, Hout. reflexivity. }
  split; [exact Hnext|].
  unfold tokenize_from. rewrite Hnext. reflexivity.
Qed.

(** The lexer stands two characters further after the opener. *)
Lemma after_opener lx :
  current lx = "/"%char ->
  peek lx = "*"%char ->
  source (advance (advance lx)) = source lx /\
  position (advance (advance lx)) = (position lx + 2)%nat /\
  (position lx + 2 <= String.length (source lx))%nat.
Proof.
  intros Hslash Hstar.
  assert (Hin : in_source lx = true).
  { apply in_source_true, char_at_inside. fold (current lx).
    rewrite Hslash. discriminate. }
  assert (Hin2 : (S (position lx) < String.length (source lx))%nat).
  { apply char_at_inside. rewrite <- peek_char_at, Hstar. discriminate. }
  rewrite !advance_source. split; [reflexivity|]. split; [|lia].
  rewrite advance_position.
  - rewrite advance_position by exact Hin. lia.
  - apply in_source_true. rewrite advance_source, advance_position by exact Hin.
    exact Hin2.
Qed.

(** With the lexer at the opener of a comment that is never closed, or
    closed at the very end of the source, [nextToken] returns the
    [END_OF_FILE] token, having moved to the end of the source. *)
Lemma comment_opener_reaches_eof lx :
  current lx = "/"%char ->
  peek lx = "*"%char ->
  (unclosed (source lx) (position lx + 2) \/
   closed_at_end (source lx) (position lx + 2)) ->
  exists lx',
    nextToken lx =
      Some (mkToken END_OF_FILE EmptyString (line lx') (column lx'), lx') /\
    source lx' = source lx /\
    position lx' = String.length (source lx).
Proof.
  intros Hslash Hstar Hcomment.
  destruct (after_opener lx Hslash Hstar) as (Hsrc2 & Hpos2 & Hlen2).
  assert (Hloop : exists lx',
            loop (remaining (advance (advance lx))) in_source
              (fun lx =>
                 if Ascii.eqb (current lx) "*" && Ascii.eqb (peek lx) "/"
                 then Some (Break (advance (advance lx)))
                 else Some (Continue (advance lx)))
              (advance (advance lx)) = Some lx' /\
            source lx' = source (advance (advance lx)) /\
            position lx' = String.length (source (advance (advance lx)))).
  { destruct Hcomment as [Hopen|Hclosed].
    - apply block_comment_loop_unclosed;
        [lia | rewrite Hsrc2, Hpos2; exact Hlen2
             | rewrite Hsrc2, Hpos2; exact Hopen].
    - apply block_comment_loop_closed;
        [lia | rewrite Hsrc2, Hpos2; exact Hclosed]. }
  destruct Hloop as (lx' & Hloop & Hsrc & Hend).
  rewrite Hsrc2 in Hsrc, Hend.
  assert (Hout : in_source lx' = false).
  { apply in_source_false. rewrite Hsrc, Hend. lia. }
  destruct (comment_to_the_end lx lx' Hslash Hstar Hloop Hout) as [Hnext _].
  exists lx'. auto.
Qed.

(** [skipWhitespaceAndComments] is the loop of [skip_turn]. *)
Lemma skipWhitespaceAndComments_turns lx :
  skipWhitespaceAndComments lx = loop (remaining lx) in_source skip_turn lx.
Proof. reflexivity. Qed.

(** The loop of [skipWhitespaceAndComments] returns the same from every
    state it passes through. *)
Lemma skips_same lx lx1 :
  skips lx lx1 ->
  skipWhitespaceAndComments lx = skipWhitespaceAndComments lx1.
Proof.
  induction 1 as [|lx lx' lx1 Hin Hturn _ IH]; [reflexivity|].
  rewrite <- IH.
  destruct (skipWhitespaceAndComments_spec lx) as (r & Hr & _).
  destruct (skipWhitespaceAndComments_spec lx') as (r' & Hr' & _).
  rewrite Hr, Hr'. f_equal.
  rewrite skipWhitespaceAndComments_turns in Hr, Hr'.
  pose proof (in_source_remaining lx Hin) as Hrem.
  destruct (remaining lx) as [|fuel]; [lia|].
  cbn [loop] in Hr. rewrite Hin, Hturn in Hr.
  exact (loop_agree _ _ _ _ _ _ _ Hr Hr').
Qed.

Lemma skips_source lx lx1 : skips lx lx1 -> source lx1 = source lx.
Proof.
  intros H. pose proof (skips_same _ _ H) as Hsame.
  destruct (skipWhitespaceAndComments_spec lx) as (r & Hr & [Hs _]).
  destruct (skipWhitespaceAndComments_spec lx1) as (r1 & Hr1 & [Hs1 _]).
  rewrite Hr, Hr1 in Hsame. injection Hsame as <-. congruence.
Qed.

(** C10.  A comment opened with [/*] and never closed is consumed to the
    end of the source without a diagnostic.  Whenever the loop of
    [tokenize] calls [nextToken] and, white space and whole comments
    skipped, the lexer comes to the opener of a comment that is not closed,
    [nextToken] returns the [END_OF_FILE] token, having moved to the end of
    the source: the commented-out text yields no token, no [ERROR] token in
    particular, and [tokenize] returns the tokens collected before the
    comment followed by [END_OF_FILE].  This is what happens at a comment
    that is closed at the very end of the source. *)
Theorem unterminated_comment_reaches_eof src collected lx lx1 :
  scans src collected lx ->
  skips lx lx1 ->
  current lx1 = "/"%char ->
  peek lx1 = "*"%char ->
  (unclosed src (position lx1 + 2) \/
   closed_at_end src (position lx1 + 2)) ->
  exists lx',
    nextToken lx =
      Some (mkToken END_OF_FILE EmptyString (line lx') (column lx'), lx') /\
    source lx' = src /\
    position lx' = String.length src /\
    tokenize src =
      Some (collected ++
            [mkToken END_OF_FILE EmptyString (line lx') (column lx')]).
Proof.
  intros Hscans Hskips Hslash Hstar Hcomment.
  pose proof (scans_source _ _ _ Hscans) as Hsrc.
  pose proof (skips_source _ _ Hskips) as Hsrc1.
  rewrite Hsrc in Hsrc1.
  destruct (comment_opener_reaches_eof lx1 Hslash Hstar)
    as (lx' & Hnext1 & Hs & Hp).
  { rewrite Hsrc1. exact Hcomment. }
  rewrite Hsrc1 in Hs, Hp.
  assert (Hnext : nextToken lx =
            Some (mkToken END_OF_FILE EmptyString (line lx') (column lx'),
                  lx')).
  { rewrite (nextToken_skipped lx lx1 (skips_same _ _ Hskips)). exact Hnext1. }
  exists lx'. split; [exact Hnext|]. split; [exact Hs|]. split; [exact Hp|].
  apply (scans_tokenize _ _ _ _ Hscans).
  apply tokenize_from_stream. apply (stream_end _ _ _ Hnext). reflexivity.
Qed.

Lemma unterminated_comment_reaches_eof_witness :
  tokenize "a /* b" =
    Some [mkToken IDENTIFIER "a" 1 1; mkToken END_OF_FILE EmptyString 1 7].
Proof.
  destruct (unterminated_comment_reaches_eof "a /* b"
              [mkToken IDENTIFIER "a" 1 1]
              (mkLexer "a /* b" 1 1 2) (mkLexer "a /* b" 2 1 3))
    as (lx' & Hnext & _ & _ & Htok).
  - apply (scans_next "a /* b" [] (new_Lexer "a /* b")
             (mkToken IDENTIFIER "a" 1 1) (mkLexer "a /* b" 1 1 2)).
    + apply scans_first.
    + vm_compute. reflexivity.
    + discriminate.
  - apply (skips_turn _ (mkLexer "a /* b" 2 1 3)).
    + reflexivity.
    + vm_compute. reflexivity.
    + apply skips_here.
  - reflexivity.
  - reflexivity.
  - left. intros i Hi [Hstar Hslash]. simpl in Hi.
    do 6 (destruct i as [|i]; [first [lia | discriminate Hstar]|]).
    discriminate Hstar.
  - rewrite Htok.
    assert (Heof : nextToken (mkLexer "a /* b" 1 1 2) =
              Some (mkToken END_OF_FILE EmptyString 1 7,
                    mkLexer "a /* b" 6 1 7)) by (vm_compute; reflexivity).
    rewrite Heof in Hnext. injection Hnext as Hl Hc _.
    rewrite <- Hl, <- Hc. reflexivity.
Defined.

(** An unknown byte in the middle of a source: the [ERROR] token stands
    between the tokens before it and the tokens after it. *)
Lemma lexing_is_total_witness :
  exists rest,
    tokenize "a @ b" =
      Some ([mkToken IDENTIFIER "a" 1 1] ++ mkToken ERROR "@" 1 3 :: rest).
Proof.
  destruct (lexing_is_total "a @ b") as (_ & _ & Herror).
  destruct (Herror [mkToken IDENTIFIER "a" 1 1]
              (mkLexer "a @ b" 1 1 2) (mkLexer "a @ b" 2 1 3))
    as (_ & _ & _ & _ & rest & _ & Htok).
  - apply (scans_next "a @ b" [] (new_Lexer "a @ b")
             (mkToken IDENTIFIER "a" 1 1) (mkLexer "a @ b" 1 1 2)).
    + apply scans_first.
    + vm_compute. reflexivity.
    + discriminate.
  - vm_compute. reflexivity.
  - reflexivity.
  - reflexivity.
  - exists rest. exact Htok.
Defined.

(** The tokens of a source that ends inside a comment are those of the same
    source with the comment closed; only the column of [END_OF_FILE]
    differs. *)
Lemma unterminated_comment_like_closed :
  tokenize "a /* b" =
    Some [mkToken IDENTIFIER "a" 1 1; mkToken END_OF_FILE EmptyString 1 7] /\
  tokenize "a /* b */" =
    Some [mkToken IDENTIFIER "a" 1 1; mkToken END_OF_FILE EmptyString 1 10].
Proof. split; vm_compute; reflexivity. Qed.

Lemma lexing_error_token_example :
  tokenize "a @ b" =
    Some [mkToken IDENTIFIER "a" 1 1; mkToken ERROR "@" 1 3;
          mkToken IDENTIFIER "b" 1 5; mkToken END_OF_FILE EmptyString 1 6].
Proof. vm_compute. reflexivity. Qed.

(** ** Token positions *)

(** With the lexer at a [==] that nothing precedes on its way, the token
    carries the column of the second [=]: [advance()] runs before
    [makeToken] reads [column]. *)
Lemma nextToken_equal_equal lx :
  current lx = "="%char -> peek lx = "="%char ->
  nextToken lx =
    Some (mkToken EQUAL_EQUAL "==" (line lx) (column lx + 1),
          advance (advance lx)).
Proof.
  intros Hcur Hpeek.
  assert (Hin : in_source lx = true).
  { apply in_source_true, char_at_inside. fold (current lx).
    rewrite Hcur. discriminate. }
  unfold nextToken. rewrite skip_nothing; [| exact Hin | |];
    [| rewrite Hcur; reflexivity | rewrite Hcur; reflexivity].
  rewrite Hin. cbn [negb]. cbv zeta. rewrite Hcur, Hpeek.
  change (Some (makeToken (advance lx) EQUAL_EQUAL "==") =
          Some (mkToken EQUAL_EQUAL "==" (line lx) (column lx + 1),
                advance (advance lx))).
  unfold makeToken. do 3 f_equal.
  - unfold advance. rewrite Hin, Hcur. reflexivity.
  - unfold advance. rewrite Hin, Hcur. reflexivity.
Qed.

(** C6 at the inputs [==] and [a == b].  The token [==] starts in column 1
    (column 3 in the second input), where [line_column] places its first
    character, and [tokenize] reports column 2 (column 4). *)
Lemma two_character_operator_column :
  tokenize "==" =
    Some [mkToken EQUAL_EQUAL "==" 1 2; mkToken END_OF_FILE EmptyString 1 3] /\
  line_column "==" 0 1 1 = (1, 1) /\
  tokenize "a == b" =
    Some [mkToken IDENTIFIER "a" 1 1; mkToken EQUAL_EQUAL "==" 1 4;
          mkToken IDENTIFIER "b" 1 6; mkToken END_OF_FILE EmptyString 1 7] /\
  line_column "a == b" 2 1 1 = (1, 3).
Proof. repeat split; vm_compute; reflexivity. Qed.

(** ** Lines and columns *)

(** What holds before a loop and is kept by its body holds after it. *)
Lemma loop_invariant {S : Type} (cond : S -> bool) (body : S -> option (ctl S))
    (Inv : S -> Prop) :
  (forall s r, Inv s -> cond s = true -> body s = Some r ->
     match r with Continue s' | Break s' => Inv s' end) ->
  forall fuel s s', Inv s -> loop fuel cond body s = Some s' -> Inv s'.
Proof.
  intros Hbody fuel.
  induction fuel as [|fuel IH]; intros s s' HI; simpl;
    destruct (cond s) eqn:Hc; try discriminate;
    try (intros H; injection H as <-; exact HI).
  destruct (body s) as [[s1|s1]|] eqn:Hb; try discriminate.
  - apply IH. exact (Hbody s _ HI Hc Hb).
  - intros H. injection H as <-. exact (Hbody s _ HI Hc Hb).
Qed.

Lemma line_column_step s : forall i l c,
  (i < String.length s)%nat ->
  line_column s (S i) l c =
    (if Ascii.eqb (char_at s i) LF
     then ((line_column s i l c).1 + 1, 1)
     else ((line_column s i l c).1, (line_column s i l c).2 + 1)).
Proof.
  induction s as [|ch s IH]; intros i l c Hi; simpl in Hi; [lia|].
  destruct i as [|i].
  - simpl. unfold char_at. simpl.
    destruct (Ascii.eqb ch LF); destruct s; reflexivity.
  - change (line_column (String ch s) (S (S i)) l c)
      with (if Ascii.eqb ch LF then line_column s (S i) (l + 1) 1
            else line_column s (S i) l (c + 1)).
    change (line_column (String ch s) (S i) l c)
      with (if Ascii.eqb ch LF then line_column s i (l + 1) 1
            else line_column s i l (c + 1)).
    change (char_at (String ch s) (S i)) with (char_at s i).
    destruct (Ascii.eqb ch LF); apply IH; lia.
Qed.

(** [advance] keeps count. *)
Lemma tracked_advance lx : tracked lx -> tracked (advance lx).
Proof.
  intros [Hlc Hle]. unfold advance.
  destruct (in_source lx) eqn:Hin; [|split; assumption].
  apply in_source_true in Hin. unfold current.
  pose proof (line_column_step (source lx) (position lx) 1 1 Hin) as Hstep.
  destruct (Ascii.eqb (char_at (source lx) (position lx)) LF);
    (split; [|simpl; lia]); simpl; rewrite Hstep, <- Hlc; reflexivity.
Qed.

Lemma tracked_new_Lexer src : tracked (new_Lexer src).
Proof. split; simpl; [destruct src; reflexivity | lia]. Qed.

#[local] Hint Resolve tracked_advance : lexer.

Lemma tracked_skipWhitespaceAndComments lx lx' :
  tracked lx -> skipWhitespaceAndComments lx = Some lx' -> tracked lx'.
Proof.
  unfold skipWhitespaceAndComments. intros Ht.
  apply (loop_invariant _ _ tracked); [|exact Ht].
  intros s r Hs _.
  destruct (isspace (current s)).
  { intros H. injection H as <-. auto with lexer. }
  destruct (Ascii.eqb (current s) "/" && Ascii.eqb (peek s) "/").
  { destruct (loop _ _ _ (advance (advance s))) as [l|] eqn:Hl;
      [|discriminate].
    intros H. injection H as <-.
    assert (Hl' : tracked l).
    { revert Hl. apply (loop_invariant _ _ tracked); [|auto with lexer].
      intros s1 r1 Hs1 _ H1. injection H1 as <-. auto with lexer. }
    destruct (in_source l); auto with lexer. }
  destruct (Ascii.eqb (current s) "/" && Ascii.eqb (peek s) "*").
  { destruct (loop _ _ _ (advance (advance s))) as [l|] eqn:Hl;
      [|discriminate].
    intros H. injection H as <-.
    revert Hl. apply (loop_invariant _ _ tracked); [|auto with lexer].
    intros s1 r1 Hs1 _.
    destruct (Ascii.eqb (current s1) "*" && Ascii.eqb (peek s1) "/");
      intros H1; injection H1 as <-; auto with lexer. }
  intros H. injection H as <-. exact Hs.
Qed.

Lemma tracked_scan_while pred lx v lx' v' :
  tracked lx -> scan_while pred (lx, v) = Some (lx', v') -> tracked lx'.
Proof.
  unfold scan_while. intros Ht H.
  apply (loop_invariant _ _ (fun s => tracked (fst s)) ) in H; [exact H| |exact Ht].
  intros [l w] r Hl _ Hr. injection Hr as <-. simpl in *. auto with lexer.
Qed.

Lemma tracked_scanString lx tok lx' :
  tracked lx -> scanString lx = Some (tok, lx') -> tracked lx'.
Proof.
  unfold scanString. intros Ht.
  destruct (loop _ _ _ (advance lx, EmptyString)) as [[l v]|] eqn:Hl;
    [|discriminate].
  intros H. injection H as _ <-.
  apply (loop_invariant _ _ (fun s => tracked (fst s))) in Hl.
  - simpl in Hl. destruct (in_source l); auto with lexer.
  - intros [l1 w] r Hl1 _. simpl in Hl1.
    destruct (Ascii.eqb (current l1) "\" && negb (Ascii.eqb (peek l1) NUL));
      intros Hr; injection Hr as <-; simpl; auto with lexer.
  - simpl. auto with lexer.
Qed.

Lemma tracked_scanCharacter lx : tracked lx -> tracked (snd (scanCharacter lx)).
Proof.
  intros Ht. unfold scanCharacter.
  destruct (in_source (advance lx) && Ascii.eqb (current (advance lx)) "\").
  { match goal with
    | |- context [if ?b then _ else _] => destruct b
    end; simpl; auto with lexer. }
  destruct (in_source (advance lx));
    match goal with
    | |- context [if ?b then _ else _] => destruct b
    end; simpl; auto with lexer.
Qed.

Lemma tracked_scanIdentifier lx tok lx' :
  tracked lx -> scanIdentifier lx = Some (tok, lx') -> tracked lx'.
Proof.
  unfold scanIdentifier. intros Ht.
  destruct (scan_while _ (lx, EmptyString)) as [[l v]|] eqn:Hs;
    [|discriminate].
  apply tracked_scan_while in Hs; [|exact Ht].
  destruct (find v keywords); intros H; injection H as _ <-; exact Hs.
Qed.

Ltac scan_whiles :=
  repeat match goal with
  | |- context [scan_while ?p ?s] =>
      let l := fresh "l" in
      let v := fresh "v" in
      let Hs := fresh "Hs" in
      destruct (scan_while p s) as [[l v]|] eqn:Hs; [|discriminate];
      apply tracked_scan_while in Hs; [|solve [auto with lexer]]
  | |- context [if ?b then _ else _] => destruct b
  end.

Lemma tracked_scanNumber lx tok lx' :
  tracked lx -> scanNumber lx = Some (tok, lx') -> tracked lx'.
Proof.
  unfold scanNumber. intros Ht. cbv zeta.
  scan_whiles; intros H; injection H as _ <-; auto with lexer.
Qed.

Lemma find_keywords_one_character v t :
  find v keywords = Some t -> two_characters t = false.
Proof.
  unfold keywords, find.
  repeat match goal with
  | |- context [String.eqb ?a ?b] => destruct (String.eqb a b)
  end; intros H; first [discriminate H | injection H as <-; reflexivity].
Qed.

Lemma stamped_scanString lx tok lx' :
  scanString lx = Some (tok, lx') -> stamped lx tok.
Proof.
  unfold scanString.
  destruct (loop _ _ _ (advance lx, EmptyString)) as [[l v]|];
    [|discriminate].
  intros H. injection H as <- _. repeat split.
Qed.

Lemma stamped_scanCharacter lx : stamped lx (fst (scanCharacter lx)).
Proof.
  unfold scanCharacter.
  repeat match goal with
  | |- context [if ?b then _ else _] => destruct b
  end; repeat split.
Qed.

Lemma stamped_scanIdentifier lx tok lx' :
  scanIdentifier lx = Some (tok, lx') -> stamped lx tok.
Proof.
  unfold scanIdentifier.
  destruct (scan_while _ (lx, EmptyString)) as [[l v]|]; [|discriminate].
  destruct (find v keywords) as [t|] eqn:Hf; intros H; injection H as <- _;
    repeat split.
  exact (find_keywords_one_character _ _ Hf).
Qed.

Lemma stamped_scanNumber lx tok lx' :
  scanNumber lx = Some (tok, lx') -> stamped lx tok.
Proof.
  unfold scanNumber. cbv zeta.
  repeat match goal with
  | |- context [scan_while ?p ?s] =>
      destruct (scan_while p s) as [[? ?]|]; [|discriminate]
  | |- context [if ?b then _ else _] => destruct b
  end; intros H; injection H as <- _; repeat split.
Qed.

Lemma nextToken_tracked lx tok lx' :
  tracked lx ->
  nextToken lx = Some (tok, lx') ->
  tracked lx' /\
  exists start,
    skipWhitespaceAndComments lx = Some start /\
    (tline tok, tcolumn tok) =
      line_column (source lx)
        (position start + (if two_characters (type tok) then 1 else 0)) 1 1.
Proof.
  intros Ht. unfold nextToken.
  destruct (skipWhitespaceAndComments_spec lx) as (lx0 & Hskip & Hsrc & _).
  rewrite Hskip.
  pose proof (tracked_skipWhitespaceAndComments _ _ Ht Hskip) as Ht0.
  assert (Hone : forall t v l,
            two_characters t = false ->
            mkToken t v (line lx0) (column lx0) = tok -> l = lx' ->
            tracked l ->
            tracked lx' /\
            exists start,
              Some lx0 = Some start /\
              (tline tok, tcolumn tok) =
                line_column (source lx)
                  (position start +
                   (if two_characters (type tok) then 1 else 0)) 1 1).
  { intros t v l H2 <- <- Hl. split; [exact Hl|]. exists lx0.
    split; [reflexivity|]. simpl. rewrite H2, Nat.add_0_r, <- Hsrc.
    apply Ht0. }
  destruct (in_source lx0) eqn:Hin; cbn [negb].
  2:{ intros H. injection H as H1 H2.
      exact (Hone END_OF_FILE EmptyString lx0 eq_refl H1 H2 Ht0). }
  assert (Htwo : forall t v,
            two_characters t = true ->
            Some (makeToken (advance lx0) t v) = Some (tok, lx') ->
            tracked lx' /\
            exists start,
              Some lx0 = Some start /\
              (tline tok, tcolumn tok) =
                line_column (source lx)
                  (position start +
                   (if two_characters (type tok) then 1 else 0)) 1 1).
  { intros t v H2 H. unfold makeToken in H. injection H as <- <-.
    split; [auto with lexer|]. exists lx0. split; [reflexivity|].
    simpl. rewrite H2, <- Hsrc, Nat.add_1_r.
    rewrite <- (advance_position lx0 Hin), <- (advance_source lx0).
    apply tracked_advance. exact Ht0. }
  assert (Hscan : forall r,
            r = Some (tok, lx') ->
            (forall t l, r = Some (t, l) -> stamped lx0 t /\ tracked l) ->
            tracked lx' /\
            exists start,
              Some lx0 = Some start /\
              (tline tok, tcolumn tok) =
                line_column (source lx)
                  (position start +
                   (if two_characters (type tok) then 1 else 0)) 1 1).
  { intros r -> Hr. destruct (Hr tok lx' eq_refl) as [(Hl & Hc & H2) Hl'].
    split; [exact Hl'|]. exists lx0. split; [reflexivity|].
    rewrite H2, Nat.add_0_r, Hl, Hc, <- Hsrc. apply Ht0. }
  cbv zeta.
  repeat match goal with
  | |- (if ?b then _ else _) = Some _ -> _ => destruct b
  end;
  intros H;
  try match type of H with
  | Some (makeToken (advance lx0) _ _) = Some _ =>
      (eapply Htwo; [ | exact H]); reflexivity
  | Some (makeToken lx0 _ _) = Some _ =>
      unfold makeToken in H; injection H as H1 H2;
      (eapply Hone;
         [ | exact H1 | exact H2 | exact (tracked_advance _ Ht0)]);
      reflexivity
  | Some (mkToken ERROR _ _ _, _) = Some _ =>
      injection H as H1 H2;
      (eapply Hone;
         [ | exact H1 | exact H2 | exact (tracked_advance _ Ht0)]);
      reflexivity
  end.
  - apply (Hscan _ H). intros t l Hr. split.
    + exact (stamped_scanString _ _ _ Hr).
    + exact (tracked_scanString _ _ _ Ht0 Hr).
  - apply (Hscan _ H). intros t l Hr. injection Hr as Hr. split.
    + replace t with (fst (scanCharacter lx0)) by (rewrite Hr; reflexivity).
      apply stamped_scanCharacter.
    + replace l with (snd (scanCharacter lx0)) by (rewrite Hr; reflexivity).
      apply tracked_scanCharacter. exact Ht0.
  - apply (Hscan _ H). intros t l Hr. split.
    + exact (stamped_scanNumber _ _ _ Hr).
    + exact (tracked_scanNumber _ _ _ Ht0 Hr).
  - apply (Hscan _ H). intros t l Hr. split.
    + exact (stamped_scanIdentifier _ _ _ Hr).
    + exact (tracked_scanIdentifier _ _ _ Ht0 Hr).
Qed.

(** A token carries the line and column of its first character, unless it
    is one of the sixteen two-character operators, which carry those of
    their second character; and the lexer keeps count of lines and columns
    across [nextToken]. *)
Theorem token_position lx tok lx' :
  tracked lx ->
  nextToken lx = Some (tok, lx') ->
  tracked lx' /\
  exists start,
    skipWhitespaceAndComments lx = Some start /\
    (tline tok, tcolumn tok) =
      line_column (source lx)
        (position start + (if two_characters (type tok) then 1 else 0)) 1 1.
Proof. apply nextToken_tracked. Qed.

(** ** How many tokens *)

Lemma nextToken_consumes lx tok lx' :
  nextToken lx = Some (tok, lx') ->
  source lx' = source lx /\
  (position lx + (if bool_decide (type tok <> END_OF_FILE) then 1 else 0)
   <= position lx')%nat.
Proof.
  intros H. destruct (nextToken_spec lx) as (r & Hr & Hcases).
  rewrite H in Hr. injection Hr as <-.
  destruct Hcases as [(Htok & [Hs Hp] & _) | (_ & Hs & Hp & Hne)];
    simpl in *.
  - split; [exact Hs|]. rewrite Htok. simpl. lia.
  - split; [exact Hs|]. rewrite bool_decide_eq_true_2 by exact Hne. lia.
Qed.

Lemma tokenize_from_count lx tokens :
  tracked lx ->
  tokenize_from lx = Some tokens ->
  (length tokens <= remaining lx + 1)%nat.
Proof.
  intros Ht. unfold tokenize_from.
  destruct (nextToken lx) as [[token lx1]|] eqn:Hfirst; [|discriminate].
  destruct (loop _ _ _ (@nil Token, token, lx1)) as [[[toks tok] l]|] eqn:Hl;
    [|discriminate].
  intros H. injection H as <-.
  apply (loop_invariant _ _
           (fun s : list Token * Token * Lexer =>
              tracked (snd s) /\ source (snd s) = source lx /\
              (position lx + length (fst (fst s)) +
               (if bool_decide (type (snd (fst s)) <> END_OF_FILE)
                then 1 else 0) <= position (snd s))%nat)) in Hl.
  - simpl in Hl. destruct Hl as ([_ Hle] & Hs & Hcount).
    rewrite length_app. simpl. unfold remaining. rewrite Hs in Hle.
    destruct (bool_decide (type tok <> END_OF_FILE)); lia.
  - intros [[ts t] l0] r (Htr & Hs & Hcount) Hc. simpl in *.
    destruct (nextToken l0) as [[t' l']|] eqn:Hn; [|discriminate].
    intros Hr. injection Hr as <-. simpl.
    destruct (nextToken_tracked _ _ _ Htr Hn) as [Htr' _].
    destruct (nextToken_consumes _ _ _ Hn) as [Hs' Hp'].
    split; [exact Htr'|]. split; [congruence|].
    rewrite length_app. simpl. rewrite Hc in Hcount. lia.
  - simpl. destruct (nextToken_tracked _ _ _ Ht Hfirst) as [Htr' _].
    destruct (nextToken_consumes _ _ _ Hfirst) as [Hs' Hp'].
    split; [exact Htr'|]. split; [exact Hs'|]. lia.
Qed.

(** [tokenize] returns at most one token for every character of the
    source, and the [END_OF_FILE] token. *)
Theorem token_count src tokens :
  tokenize src = Some tokens ->
  (length tokens <= String.length src + 1)%nat.
Proof.
  intros H. apply tokenize_from_count in H; [|apply tracked_new_Lexer].
  unfold remaining in H. simpl in H. lia.
Qed.

(** ** Lexemes *)

Lemma substring_nothing s : forall n, substring n 0 s = EmptyString.
Proof. induction s as [|c s IH]; intros [|n]; simpl; auto. Qed.

Lemma substring_snoc s : forall n m,
  (n + m < String.length s)%nat ->
  substring n (S m) s =
    String.append (substring n m s) (String (char_at s (n + m)) EmptyString).
Proof.
  induction s as [|c s IH]; intros n m Hlt; simpl in Hlt; [lia|].
  destruct n as [|n].
  - destruct m as [|m].
    + simpl. rewrite substring_nothing. reflexivity.
    + change (substring 0 (S (S m)) (String c s))
        with (String c (substring 0 (S m) s)).
      change (substring 0 (S m) (String c s))
        with (String c (substring 0 m s)).
      rewrite (IH 0%nat m) by lia. reflexivity.
  - change (substring (S n) (S m) (String c s)) with (substring n (S m) s).
    change (substring (S n) m (String c s)) with (substring n m s).
    change (char_at (String c s) (S n + m)) with (char_at s (n + m)).
    apply IH. lia.
Qed.

Lemma scanned_refl lx :
  (position lx <= String.length (source lx))%nat ->
  scanned lx lx EmptyString.
Proof.
  intros H. split; [reflexivity|]. split; [lia|].
  rewrite Nat.sub_diag, substring_nothing. reflexivity.
Qed.

Lemma scanned_advance from lx v :
  scanned from lx v -> in_source lx = true ->
  scanned from (advance lx) (push_back v (current lx)).
Proof.
  intros (Hs & Hp & Hv) Hin. pose proof Hin as Hlt.
  apply in_source_true in Hlt. rewrite Hs in Hlt.
  split; [rewrite advance_source; exact Hs|].
  rewrite advance_position by exact Hin. split; [lia|].
  replace (S (position lx) - position from)%nat
    with (S (position lx - position from)) by lia.
  rewrite substring_snoc by lia. unfold push_back, current.
  rewrite Hv, Hs. do 3 f_equal. lia.
Qed.

Lemma scanned_scan_while pred from lx v lx' v' :
  scanned from lx v ->
  scan_while pred (lx, v) = Some (lx', v') ->
  scanned from lx' v'.
Proof.
  unfold scan_while. intros Hs H.
  apply (loop_invariant _ _ (fun s => scanned from (fst s) (snd s))) in H;
    [exact H | | exact Hs].
  intros [l w] r Hl Hc Hr. injection Hr as <-. simpl in *.
  apply andb_true_iff in Hc as [Hin _]. apply scanned_advance; assumption.
Qed.

(** The character [peek()] returned is the next one to be consumed. *)
Lemma peek_next lx c :
  in_source lx = true -> peek lx = c -> c <> NUL ->
  in_source (advance lx) = true /\ current (advance lx) = c.
Proof.
  intros Hin Hp Hc. rewrite peek_char_at in Hp. unfold current.
  rewrite advance_source, advance_position by exact Hin. split; [|exact Hp].
  apply in_source_true. rewrite advance_source, advance_position by exact Hin.
  apply char_at_inside. rewrite Hp. exact Hc.
Qed.

Lemma scanned_one from lx c :
  in_source lx = true -> current lx = c ->
  scanned from lx EmptyString ->
  scanned from (advance lx) (String c EmptyString).
Proof.
  intros Hin <- Hs. exact (scanned_advance _ _ _ Hs Hin).
Qed.

Lemma scanned_two from lx c1 c2 :
  in_source lx = true -> current lx = c1 -> peek lx = c2 -> c2 <> NUL ->
  scanned from lx EmptyString ->
  scanned from (advance (advance lx)) (String c1 (String c2 EmptyString)).
Proof.
  intros Hin <- Hp Hc Hs. destruct (peek_next _ _ Hin Hp Hc) as [Hin' <-].
  exact (scanned_advance _ _ _ (scanned_advance _ _ _ Hs Hin) Hin').
Qed.

Ltac eqb_facts :=
  repeat match goal with
  | H : Ascii.eqb _ _ = true |- _ => apply Ascii.eqb_eq in H
  | H : _ && _ = true |- _ => apply andb_true_iff in H as [? ?]
  | H : _ || _ = true |- _ => apply orb_true_iff in H as [?|?]
  end.

Lemma scanned_scanIdentifier lx tok lx' :
  (position lx <= String.length (source lx))%nat ->
  scanIdentifier lx = Some (tok, lx') -> scanned lx lx' (value tok).
Proof.
  unfold scanIdentifier. intros Hle.
  destruct (scan_while _ (lx, EmptyString)) as [[l v]|] eqn:Hs;
    [|discriminate].
  apply (scanned_scan_while _ lx) in Hs; [|apply scanned_refl; exact Hle].
  destruct (find v keywords); intros H; injection H as <- <-; exact Hs.
Qed.

Lemma scanned_scanNumber lx tok lx' :
  in_source lx = true ->
  scanNumber lx = Some (tok, lx') -> scanned lx lx' (value tok).
Proof.
  intros Hin. pose proof Hin as Hle. apply in_source_true in Hle.
  assert (H0 : scanned lx lx EmptyString) by (apply scanned_refl; lia).
  unfold scanNumber. cbv zeta.
  destruct (Ascii.eqb (current lx) "0" &&
            (Ascii.eqb (peek lx) "x" || Ascii.eqb (peek lx) "X")) eqn:Hhex.
  - assert (Hx : peek lx <> NUL).
    { unfold NUL. eqb_facts; congruence. }
    destruct (peek_next _ _ Hin eq_refl Hx) as [Hin1 Hc1].
    pose proof (scanned_advance _ _ _ (scanned_advance _ _ _ H0 Hin) Hin1)
      as H2.
    destruct (scan_while _ _) as [[l v]|] eqn:Hs; [|discriminate].
    apply (scanned_scan_while _ lx) in Hs; [|exact H2].
    intros H. injection H as <- <-. exact Hs.
  - destruct (scan_while isdigit (lx, EmptyString)) as [[l1 v1]|] eqn:Hs1;
      [|discriminate].
    apply (scanned_scan_while _ lx) in Hs1; [|exact H0].
    match goal with
    | |- context [if ?b then _ else _] => destruct b eqn:Hdot
    end.
    2:{ intros H. injection H as <- <-. exact Hs1. }
    apply andb_true_iff in Hdot as [Hdot _].
    apply andb_true_iff in Hdot as [Hdot _].
    apply andb_true_iff in Hdot as [Hin2 _].
    pose proof (scanned_advance _ _ _ Hs1 Hin2) as Hs2.
    destruct (scan_while isdigit (advance l1, _)) as [[l3 v3]|] eqn:Hs3;
      [|discriminate].
    apply (scanned_scan_while _ lx) in Hs3; [|exact Hs2].
    match goal with
    | |- context [if ?b then _ else _] => destruct b eqn:Hexp
    end.
    2:{ intros H. injection H as <- <-. exact Hs3. }
    apply andb_true_iff in Hexp as [Hin4 _].
    pose proof (scanned_advance _ _ _ Hs3 Hin4) as Hs4.
    match goal with
    | |- context [if ?b then _ else _] => destruct b eqn:Hsign
    end.
    + apply andb_true_iff in Hsign as [Hin5 _].
      pose proof (scanned_advance _ _ _ Hs4 Hin5) as Hs5.
      destruct (scan_while isdigit _) as [[l6 v6]|] eqn:Hs6; [|discriminate].
      apply (scanned_scan_while _ lx) in Hs6; [|exact Hs5].
      intros H. injection H as <- <-. exact Hs6.
    + destruct (scan_while isdigit _) as [[l6 v6]|] eqn:Hs6; [|discriminate].
      apply (scanned_scan_while _ lx) in Hs6; [|exact Hs4].
      intros H. injection H as <- <-. exact Hs6.
Qed.

(** Unless it starts with a quote, a token's value is the text of the
    source it was scanned from: the characters between the end of the
    white space and comments before it and the place where [nextToken]
    stopped.  (String and character literals are unescaped and lose their
    quotes.) *)
Theorem lexeme_is_source_text lx tok lx' :
  tracked lx ->
  nextToken lx = Some (tok, lx') ->
  exists start,
    skipWhitespaceAndComments lx = Some start /\
    (current start <> DQUOTE -> current start <> SQUOTE ->
     source lx' = source lx /\
     (position start <= position lx' <= String.length (source lx))%nat /\
     value tok =
       substring (position start) (position lx' - position start) (source lx)).
Proof.
  intros Ht. unfold nextToken.
  destruct (skipWhitespaceAndComments_spec lx) as (start & Hskip & Hsrc & _).
  rewrite Hskip. exists start. split; [reflexivity|]. intros Hdq Hsq.
  pose proof (tracked_skipWhitespaceAndComments _ _ Ht Hskip) as [_ Hle].
  pose proof (scanned_refl start Hle) as H0.
  rewrite <- Hsrc.
  enough (Hs : scanned start lx' (value tok)).
  { destruct Hs as (Hs1 & Hs2 & Hs3). auto. }
  revert H.
  destruct (in_source start) eqn:Hin; cbn [negb].
  2:{ intros H. injection H as <- <-. exact H0. }
  cbv zeta.
  repeat match goal with
  | |- (if ?b then _ else _) = Some _ -> _ => destruct b eqn:?
  end;
  intros H;
  try match type of H with
  | Some (makeToken (advance start) _ _) = Some _ =>
      unfold makeToken in H; injection H as <- <-;
      eqb_facts; simpl;
      eapply scanned_two; [exact Hin | eassumption | eassumption
                          | discriminate | exact H0]
  | Some (makeToken start _ _) = Some _ =>
      unfold makeToken in H; injection H as <- <-;
      eqb_facts; simpl;
      eapply scanned_one; [exact Hin | eassumption | exact H0]
  | Some (mkToken ERROR _ _ _, _) = Some _ =>
      injection H as <- <-; simpl;
      eapply scanned_one; [exact Hin | reflexivity | exact H0]
  end.
  - eqb_facts. contradiction.
  - eqb_facts. contradiction.
  - apply (scanned_scanNumber _ _ _ Hin H).
  - apply (scanned_scanIdentifier _ _ _ Hle H).
Qed.

Lemma token_position_witness :
  exists tok lx',
    nextToken (new_Lexer " a") = Some (tok, lx') /\
    (tline tok, tcolumn tok) = (1, 2) /\
    tracked lx'.
Proof.
  eexists _, _. split; [vm_compute; reflexivity|].
  destruct (token_position (new_Lexer " a") _ _ (tracked_new_Lexer " a")
              ltac:(vm_compute; reflexivity)) as (Ht & start & Hs & Hp).
  split; [reflexivity | exact Ht].
Defined.

Lemma token_count_witness :
  exists tokens,
    tokenize "a == b" = Some tokens /\ (length tokens <= 7)%nat.
Proof.
  eexists. split; [vm_compute; reflexivity|].
  apply (token_count "a == b"). vm_compute. reflexivity.
Defined.

Lemma lexeme_is_source_text_witness :
  exists tok lx',
    nextToken (new_Lexer " 0x1F;") = Some (tok, lx') /\
    value tok = substring 1 4 " 0x1F;".
Proof.
  eexists _, _. split; [vm_compute; reflexivity|].
  destruct (lexeme_is_source_text (new_Lexer " 0x1F;") _ _
              (tracked_new_Lexer " 0x1F;") ltac:(vm_compute; reflexivity))
    as (start & Hs & Hv).
  vm_compute in Hs. injection Hs as <-.
  destruct Hv as (_ & _ & Hv); [discriminate | discriminate |].
  exact Hv.
Defined.

(** ** String literals *)

(** A loop that never breaks ends with its condition false. *)
Lemma loop_exit {S : Type} (cond : S -> bool) (body : S -> option (ctl S)) :
  (forall s r, cond s = true -> body s = Some r ->
     exists s1, r = Continue s1) ->
  forall fuel s s', loop fuel cond body s = Some s' -> cond s' = false.
Proof.
  intros Hbody fuel.
  induction fuel as [|fuel IH]; intros s s'; simpl;
    destruct (cond s) eqn:Hc; try discriminate;
    try (intros H; injection H as <-; exact Hc).
  destruct (body s) as [r|] eqn:Hb; [|discriminate].
  destruct (Hbody s r Hc Hb) as [s1 ->]. apply IH.
Qed.

(** A string literal without a backslash: its value is the text between the
    opening quote and the next quote, or the end of the input where there
    is no next quote; a missing closing quote is no error.  [e] is the
    index of that quote, or the length of the source. *)
Theorem string_literal_without_escapes lx e :
  in_source lx = true ->
  (position lx < e <= String.length (source lx))%nat ->
  (forall i, (position lx < i < e)%nat ->
     char_at (source lx) i <> DQUOTE /\ char_at (source lx) i <> "\"%char) ->
  ((e < String.length (source lx))%nat -> char_at (source lx) e = DQUOTE) ->
  exists lx',
    scanString lx =
      Some (mkToken STRING
              (substring (S (position lx)) (e - S (position lx)) (source lx))
              (line lx) (column lx), lx') /\
    source lx' = source lx /\
    position lx' = Nat.min (S e) (String.length (source lx)).
Proof.
  intros Hin He Hplain Hquote.
  destruct (scanString_progress lx lx (extends_refl lx) Hin)
    as ([tok lx'] & Hr & _).
  exists lx'. revert Hr. unfold scanString.
  destruct (loop _ _ _ (advance lx, EmptyString)) as [[l v]|] eqn:Hl;
    [|discriminate].
  pose proof (advance_position lx Hin) as Hp0.
  pose proof (advance_source lx) as Hs0.
  assert (Hinv : scanned (advance lx) l v /\ (position l <= e)%nat).
  { revert Hl.
    apply (loop_invariant _ _
             (fun s => scanned (advance lx) (fst s) (snd s) /\
                       (position (fst s) <= e)%nat)).
    - intros [l1 v1] r [Hsc Hle] Hc. simpl in *.
      apply andb_true_iff in Hc as [Hin1 Hnq].
      apply negb_true_iff, Ascii.eqb_neq in Hnq.
      destruct Hsc as (Hs1 & Hp1 & Hv1). rewrite Hs0 in Hs1.
      assert (Hlt : (position l1 < e)%nat).
      { destruct (decide (position l1 = e)) as [Heq|Hne]; [|lia].
        exfalso. apply in_source_true in Hin1. rewrite Hs1 in Hin1.
        apply Hnq. unfold current. rewrite Hs1, Heq. apply Hquote. lia. }
      destruct (Hplain (position l1)) as [_ Hnb]; [lia|].
      assert (Hcur : Ascii.eqb (current l1) "\" = false).
      { apply Ascii.eqb_neq. unfold current. rewrite Hs1. exact Hnb. }
      rewrite Hcur. cbn [andb]. intros H. injection H as <-. simpl.
      split.
      + apply scanned_advance; [|exact Hin1].
        split; [rewrite Hs0; exact Hs1|]. split; [exact Hp1 | exact Hv1].
      + rewrite advance_position by exact Hin1. lia.
    - simpl. split; [|lia]. apply scanned_refl.
      rewrite Hs0, Hp0. apply in_source_true in Hin. lia. }
  assert (Hend : in_source l && negb (Ascii.eqb (current l) DQUOTE) = false).
  { apply (loop_exit _ _) in Hl; [exact Hl|].
    intros [l1 v1] r _.
    destruct (Ascii.eqb (current l1) "\" && negb (Ascii.eqb (peek l1) NUL));
      intros H; injection H as <-; eauto. }
  destruct Hinv as [(Hs1 & Hp1 & Hv1) Hle]. rewrite Hs0, Hp0 in *.
  assert (Hpos : position l = e).
  { destruct (decide (position l = e)) as [Heq|Hne]; [exact Heq|].
    exfalso. destruct (Hplain (position l)) as [Hnq _]; [lia|].
    assert (Hin1 : in_source l = true).
    { apply in_source_true. rewrite Hs1. lia. }
    rewrite Hin1 in Hend. cbn [andb] in Hend.
    apply negb_false_iff, Ascii.eqb_eq in Hend.
    apply Hnq. unfold current in Hend. rewrite Hs1 in Hend. exact Hend. }
  intros H. injection H as <- <-. rewrite Hv1, Hpos. split; [reflexivity|].
  destruct (in_source l) eqn:Hin1.
  - rewrite advance_source, advance_position by exact Hin1.
    apply in_source_true in Hin1. rewrite Hs1 in Hin1. split; [exact Hs1|lia].
  - apply in_source_false in Hin1. rewrite Hs1 in Hin1. split; [exact Hs1|lia].
Qed.

Lemma string_literal_without_escapes_witness :
  exists lx',
    scanString (new_Lexer (String DQUOTE "abc")) =
      Some (mkToken STRING "abc" 1 1, lx') /\
    position lx' = 4%nat.
Proof.
  destruct (string_literal_without_escapes
              (new_Lexer (String DQUOTE "abc")) 4) as (lx' & Hs & _ & Hp).
  - reflexivity.
  - simpl. lia.
  - intros i Hi. simpl in Hi.
    assert (Hcases : i = 1%nat \/ i = 2%nat \/ i = 3%nat) by lia.
    destruct Hcases as [ -> | [ -> | -> ] ]; split; discriminate.
  - simpl. lia.
  - exists lx'. split; [exact Hs | exact Hp].
Defined.

End LexerFacts.

(* --------------------------------------------------------------------- *)
(** ** The parser *)
(* --------------------------------------------------------------------- *)

Module ParserFacts.
Import Parser.

Section Assignment.
Variable double : Type.
Variable stod : string -> option double.

Lemma match_checked t p :
  check t p = true -> match_ t p = Ok true (advance p).
Proof. intros H. unfold match_. rewrite H. reflexivity. Qed.

Lemma match_unchecked t p :
  check t p = false -> match_ t p = Ok false p.
Proof. intros H. unfold match_. rewrite H. reflexivity. Qed.

(** [parseAssignment] after its left-hand side: without [=] the left-hand
    side is the result; with [=] the right-hand side is parsed first, by
    [parseAssignment] itself, and the target is looked at after that. *)
Lemma parseAssignment_unfold fuel p expr p1 :
  parseLogicalOr double stod fuel (parseAssignment double stod fuel) p
    = Ok expr p1 ->
  parseAssignment double stod (S fuel) p =
    if check ASSIGN p1 then
      match parseAssignment double stod fuel (advance p1) with
      | Ok value p3 =>
          match expr with
          | VariableNode name => Ok (AssignmentNode name value) p3
          | _ => Error "Invalid assignment target"
          end
      | Error msg => Error msg
      | OutOfFuel => OutOfFuel
      end
    else Ok expr p1.
Proof.
  intros Hlhs. cbn [parseAssignment]. unfold bind at 1. rewrite Hlhs.
  unfold bind at 1. destruct (check ASSIGN p1) eqn:Hc.
  - rewrite match_checked by exact Hc. unfold bind.
    destruct (parseAssignment double stod fuel (advance p1)); try reflexivity.
    destruct expr; reflexivity.
  - rewrite match_unchecked by exact Hc. reflexivity.
Qed.

Lemma is_variable_spec (e : ASTNode double) :
  is_variable e = true <-> exists name, e = VariableNode name.
Proof.
  destruct e; simpl; split; try discriminate; eauto;
    intros [n Hn]; discriminate Hn.
Qed.

(** *** An identifier that nothing continues *)

Lemma match_other t p : type (peek p) <> t -> match_ t p = Ok false p.
Proof.
  intros H. unfold match_, check. destruct (isAtEnd p); [reflexivity|].
  rewrite bool_decide_eq_false_2 by exact H. reflexivity.
Qed.

Lemma orelse_other (m1 m2 : P bool) p :
  m1 p = Ok false p -> m2 p = Ok false p -> orelse m1 m2 p = Ok false p.
Proof. intros H1 H2. unfold orelse, bind. rewrite H1. exact H2. Qed.

(** The parser at a token that is not [END_OF_FILE]. *)
Lemma at_token p tok :
  tokens p !! current p = Some tok -> type tok <> END_OF_FILE ->
  peek p = tok /\ isAtEnd p = false /\
  advance p = mkParser (tokens p) (S (current p)) /\
  previous (advance p) = tok.
Proof.
  intros Hlook Htype.
  assert (Hpeek : peek p = tok) by (unfold peek; rewrite Hlook; reflexivity).
  assert (Hend : isAtEnd p = false).
  { unfold isAtEnd. rewrite Hpeek. apply orb_false_iff. split.
    - apply Nat.leb_gt. exact (lookup_lt_Some _ _ _ Hlook).
    - apply bool_decide_eq_false_2. exact Htype. }
  assert (Hadv : advance p = mkParser (tokens p) (S (current p)))
    by (unfold advance; rewrite Hend; reflexivity).
  repeat split; try assumption.
  rewrite Hadv. unfold previous. simpl. rewrite Nat.sub_0_r, Hlook.
  reflexivity.
Qed.

Lemma match_this t p tok :
  tokens p !! current p = Some tok -> type tok = t -> t <> END_OF_FILE ->
  match_ t p = Ok true (advance p).
Proof.
  intros Hlook Htype Ht.
  destruct (at_token p tok Hlook) as (Hpeek & Hend & _); [congruence|].
  apply match_checked. unfold check. rewrite Hend, Hpeek.
  apply bool_decide_eq_true_2. exact Htype.
Qed.

Ltac other_type :=
  match goal with
  | H : type (peek ?q) = _ |- type (peek ?q) <> _ => rewrite H; discriminate
  | H : continues (type (peek ?q)) = false |- type (peek ?q) <> _ =>
      let E := fresh in intros E; rewrite E in H; discriminate H
  end.

Ltac no_match :=
  repeat first [ apply orelse_other | apply match_other; other_type ].

(** [parsePrimary] at an identifier. *)
Lemma parsePrimary_identifier fuel parseExpression p tok :
  tokens p !! current p = Some tok -> type tok = IDENTIFIER ->
  parsePrimary double stod fuel parseExpression p
    = Ok (VariableNode (value tok)) (advance p).
Proof.
  intros Hlook Htype.
  destruct (at_token p tok Hlook) as (Hpeek & _ & _ & Hprev); [congruence|].
  assert (Hty : type (peek p) = IDENTIFIER) by congruence.
  unfold parsePrimary.
  unfold bind at 1. rewrite (match_other NUMBER) by (rewrite Hty; discriminate).
  unfold bind at 1. rewrite (match_other STRING) by (rewrite Hty; discriminate).
  unfold bind at 1.
  rewrite (match_this IDENTIFIER p tok Hlook Htype) by discriminate.
  rewrite Hprev. reflexivity.
Qed.

(** The levels from [parseUnary] to [parseLogicalOr] at an identifier that
    no operator, call or index follows: each returns the [VariableNode]. *)
Lemma parseLogicalOr_identifier fuel parseExpression p tok :
  tokens p !! current p = Some tok -> type tok = IDENTIFIER ->
  continues (type (peek (advance p))) = false ->
  parseLogicalOr double stod (S fuel) parseExpression p
    = Ok (VariableNode (value tok)) (advance p).
Proof.
  intros Hlook Htype Hnext.
  destruct (at_token p tok Hlook) as (Hpeek & _); [congruence|].
  assert (Hty : type (peek p) = IDENTIFIER) by congruence.
  assert (Hunary : parseUnary double stod (S fuel) parseExpression p
            = Ok (VariableNode (value tok)) (advance p)).
  { unfold parseUnary. cbn [parseUnary_]. unfold bind at 1.
    rewrite orelse_other by no_match.
    unfold parsePostfix, bind.
    rewrite (parsePrimary_identifier _ _ p tok Hlook Htype).
    cbn [postfix_loop]. unfold bind.
    rewrite !match_other by other_type. reflexivity. }
  assert (Hlevel : forall (matches : P bool) operand,
            operand p = Ok (VariableNode (value tok)) (advance p) ->
            matches (advance p) = Ok false (advance p) ->
            bind operand (binary_loop double (S fuel) matches operand) p
              = Ok (VariableNode (value tok)) (advance p)).
  { intros matches operand Hop Hm. unfold bind at 1. rewrite Hop.
    cbn [binary_loop]. unfold bind. rewrite Hm. reflexivity. }
  unfold parseLogicalOr. apply Hlevel; [|no_match].
  unfold parseLogicalAnd. apply Hlevel; [|no_match].
  unfold parseEquality. apply Hlevel; [|no_match].
  unfold parseRelational. apply Hlevel; [|no_match].
  unfold parseAdditive. apply Hlevel; [|no_match].
  unfold parseMultiplicative. apply Hlevel; [|no_match].
  exact Hunary.
Qed.

(** *** Assignments *)

(** [x1 = x2 = ... = xn = e]: every target is parsed, then [e], and the
    nodes are built from the innermost assignment outwards. *)
Lemma parseAssignment_chain : forall names fuel p value p',
  (forall k name, names !! k = Some name ->
                  assigns_to p (current p + 2 * k) name) ->
  parseAssignment double stod fuel
    (mkParser (tokens p) (current p + 2 * length names)) = Ok value p' ->
  parseAssignment double stod (length names + fuel) p
    = Ok (assignments names value) p'.
Proof.
  induction names as [|name names IH]; intros fuel p value p' Htargets Hrest.
  - simpl in *. rewrite Nat.add_0_r in Hrest. destruct p. exact Hrest.
  - assert (Hfuel : exists f, fuel = S f).
    { destruct fuel; [discriminate Hrest | eauto]. }
    destruct Hfuel as [f ->].
    destruct (Htargets 0%nat name eq_refl)
      as (target & assign & Ht & Htt & Htv & Ha & Hat).
    rewrite Nat.add_0_r in Ht, Ha.
    destruct (at_token p target Ht) as (_ & _ & Hadv & _); [congruence|].
    assert (Ha' : tokens (advance p) !! current (advance p) = Some assign)
      by (rewrite Hadv; exact Ha).
    destruct (at_token (advance p) assign Ha')
      as (Hpeek2 & Hend2 & Hadv2 & _); [congruence|].
    assert (Hlhs : parseLogicalOr double stod (length names + S f)
                     (parseAssignment double stod (length names + S f)) p
                   = Ok (VariableNode name) (advance p)).
    { rewrite Nat.add_succ_r, <- Htv.
      apply parseLogicalOr_identifier; [exact Ht | exact Htt|].
      rewrite Hpeek2, Hat. reflexivity. }
    cbn [length Nat.add].
    rewrite (parseAssignment_unfold _ p _ _ Hlhs).
    assert (Hcheck : check ASSIGN (advance p) = true).
    { unfold check. rewrite Hend2, Hpeek2.
      apply bool_decide_eq_true_2. exact Hat. }
    rewrite Hcheck, Hadv2.
    rewrite (IH (S f) (mkParser (tokens (advance p)) (S (current (advance p))))
               value p').
    + reflexivity.
    + intros k n Hk. rewrite Hadv. cbn [tokens current].
      destruct (Htargets (S k) n Hk)
        as (t1 & t2 & H1 & H2 & H3 & H4 & H5).
      exists t1, t2.
      replace (S (S (current p)) + 2 * k)%nat
        with (current p + 2 * S k)%nat by lia.
      auto.
    + rewrite Hadv. cbn [tokens current].
      replace (S (S (current p)) + 2 * length names)%nat
        with (current p + 2 * length (name :: names))%nat
        by (cbn [length]; lia).
      exact Hrest.
Qed.

(** C8, as the code has it.  [parseAssignment] parses the left-hand side
    and, when [=] follows, the right-hand side, by a call of itself, before
    it looks at the target.  An error in the left-hand side is the result;
    with the left-hand side parsed and no [=] after it, the left-hand side
    is the result; an error in the right-hand side is the result, whatever
    the left-hand side is.  With both sides parsed, the call fails with
    "Invalid assignment target" if and only if the left-hand side is not an
    [Identifier] ([VariableNode]); when it is one, the result is the
    [AssignmentNode] of its name and the right-hand side.  The value is
    parsed right-associatively: [x1 = x2 = ... = xn = e] is
    [x1 = (x2 = (... = (xn = e)))], for every number of targets. *)
Theorem assignment_target_must_be_identifier fuel p :
  (forall msg,
      parseLogicalOr double stod fuel (parseAssignment double stod fuel) p
        = Error msg ->
      parseAssignment double stod (S fuel) p = Error msg) /\
  (forall lhs p1,
      parseLogicalOr double stod fuel (parseAssignment double stod fuel) p
        = Ok lhs p1 ->
      (check ASSIGN p1 = false ->
       parseAssignment double stod (S fuel) p = Ok lhs p1) /\
      (check ASSIGN p1 = true ->
       (forall msg,
           parseAssignment double stod fuel (advance p1) = Error msg ->
           parseAssignment double stod (S fuel) p = Error msg) /\
       (forall rhs p3,
           parseAssignment double stod fuel (advance p1) = Ok rhs p3 ->
           (parseAssignment double stod (S fuel) p
              = Error "Invalid assignment target" <->
            is_variable lhs = false) /\
           (forall name, lhs = VariableNode name ->
              parseAssignment double stod (S fuel) p
                = Ok (AssignmentNode name rhs) p3)))) /\
  (forall names value p',
      (forall k name, names !! k = Some name ->
                      assigns_to p (current p + 2 * k) name) ->
      parseAssignment double stod fuel
        (mkParser (tokens p) (current p + 2 * length names)) = Ok value p' ->
      parseAssignment double stod (length names + fuel) p
        = Ok (assignments names value) p').
Proof.
  split; [|split].
  - intros msg Hlhs. cbn [parseAssignment]. unfold bind at 1.
    rewrite Hlhs. reflexivity.
  - intros lhs p1 Hlhs.
    rewrite (parseAssignment_unfold fuel p lhs p1 Hlhs).
    split; [intros ->; reflexivity|]. intros ->. split.
    + intros msg Hrhs. rewrite Hrhs. reflexivity.
    + intros rhs p3 Hrhs. rewrite Hrhs. split.
      * destruct lhs; simpl; split; intros H;
          first [ reflexivity | discriminate H ].
      * intros name ->. reflexivity.
  - intros names value p'. apply parseAssignment_chain.
Qed.

End Assignment.

(** The tokens of [a = b = c]: the value of the outer assignment is the
    inner assignment. *)
Lemma assignment_target_must_be_identifier_witness :
  parseAssignment string Some 6
    (mkParser
       [mkToken IDENTIFIER "a" 1; mkToken ASSIGN "=" 1;
        mkToken IDENTIFIER "b" 1; mkToken ASSIGN "=" 1;
        mkToken IDENTIFIER "c" 1; mkToken END_OF_FILE "" 1] 0)
  = Ok (AssignmentNode "a" (AssignmentNode "b" (VariableNode "c")))
      (mkParser
         [mkToken IDENTIFIER "a" 1; mkToken ASSIGN "=" 1;
          mkToken IDENTIFIER "b" 1; mkToken ASSIGN "=" 1;
          mkToken IDENTIFIER "c" 1; mkToken END_OF_FILE "" 1] 5).
Proof.
  destruct (assignment_target_must_be_identifier string Some 4
              (mkParser
                 [mkToken IDENTIFIER "a" 1; mkToken ASSIGN "=" 1;
                  mkToken IDENTIFIER "b" 1; mkToken ASSIGN "=" 1;
                  mkToken IDENTIFIER "c" 1; mkToken END_OF_FILE "" 1] 0))
    as (_ & _ & Hchain).
  apply (Hchain ["a"; "b"] (VariableNode "c")).
  - intros k name Hk.
    destruct k as [|[|k]]; simpl in Hk; try discriminate Hk;
      injection Hk as <-; eexists _, _; repeat split; reflexivity.
  - vm_compute. reflexivity.
Defined.

(** C8 as the specification words it does not hold.  In [a = 1 = 2] the
    left-hand side of the assignment is the identifier [a], and the parse
    fails with "Invalid assignment target" (the target of the inner
    assignment is looked at first); in [1 = )] the left-hand side is not an
    identifier, and the parse fails with another message (the right-hand
    side is parsed first). *)
Lemma invalid_assignment_target_not_iff :
  (parseLogicalOr string Some 5 (parseAssignment string Some 5)
     (mkParser
        [mkToken IDENTIFIER "a" 1; mkToken ASSIGN "=" 1;
         mkToken NUMBER "1" 1; mkToken ASSIGN "=" 1;
         mkToken NUMBER "2" 1; mkToken END_OF_FILE "" 1] 0)
   = Ok (VariableNode "a")
       (mkParser
          [mkToken IDENTIFIER "a" 1; mkToken ASSIGN "=" 1;
           mkToken NUMBER "1" 1; mkToken ASSIGN "=" 1;
           mkToken NUMBER "2" 1; mkToken END_OF_FILE "" 1] 1) /\
   is_variable (VariableNode (double := string) "a") = true /\
   parseAssignment string Some 6
     (mkParser
        [mkToken IDENTIFIER "a" 1; mkToken ASSIGN "=" 1;
         mkToken NUMBER "1" 1; mkToken ASSIGN "=" 1;
         mkToken NUMBER "2" 1; mkToken END_OF_FILE "" 1] 0)
   = Error "Invalid assignment target") /\
  (parseLogicalOr string Some 5 (parseAssignment string Some 5)
     (mkParser
        [mkToken NUMBER "1" 1; mkToken ASSIGN "=" 1;
         mkToken RIGHT_PAREN ")" 1; mkToken END_OF_FILE "" 1] 0)
   = Ok (NumberNode "1")
       (mkParser
          [mkToken NUMBER "1" 1; mkToken ASSIGN "=" 1;
           mkToken RIGHT_PAREN ")" 1; mkToken END_OF_FILE "" 1] 1) /\
   is_variable (NumberNode "1") = false /\
   parseAssignment string Some 6
     (mkParser
        [mkToken NUMBER "1" 1; mkToken ASSIGN "=" 1;
         mkToken RIGHT_PAREN ")" 1; mkToken END_OF_FILE "" 1] 0)
   = Error "Unexpected token: )" /\
   parseAssignment string Some 6
     (mkParser
        [mkToken NUMBER "1" 1; mkToken ASSIGN "=" 1;
         mkToken RIGHT_PAREN ")" 1; mkToken END_OF_FILE "" 1] 0)
   <> Error "Invalid assignment target").
Proof.
  split; (split; [vm_compute; reflexivity|]);
    (split; [reflexivity|]); [vm_compute; reflexivity|].
  split; [vm_compute; reflexivity|]. vm_compute. discriminate.
Qed.

(** A literal on the left of [=] is rejected once the right-hand side is
    parsed; a right-hand side that does not parse is reported first. *)
Lemma invalid_assignment_target_examples :
  parseAssignment string Some 6
    (mkParser
       [mkToken NUMBER "1" 1; mkToken ASSIGN "=" 1; mkToken NUMBER "2" 1;
        mkToken END_OF_FILE "" 1] 0)
  = Error "Invalid assignment target" /\
  parseAssignment string Some 6
    (mkParser
       [mkToken NUMBER "1" 1; mkToken ASSIGN "=" 1;
        mkToken END_OF_FILE "" 1] 0)
  = Error "Unexpected token: ".
Proof. split; vm_compute; reflexivity. Qed.

(** ** The cursor only moves forward, and the recursion ends *)

Lemma isAtEnd_false p :
  isAtEnd p = false -> (current p < length (tokens p))%nat.
Proof.
  unfold isAtEnd. intros H. apply orb_false_iff in H as [H _].
  apply Nat.leb_gt in H. exact H.
Qed.

Lemma check_true t p :
  check t p = true -> isAtEnd p = false /\ type (peek p) = t.
Proof.
  unfold check. destruct (isAtEnd p); [discriminate|].
  intros H. apply bool_decide_eq_true in H. split; [reflexivity | exact H].
Qed.

Lemma advance_consumes p : isAtEnd p = false -> consumes p (advance p).
Proof.
  intros H. unfold advance. rewrite H. apply isAtEnd_false in H.
  split; [reflexivity|]. simpl. lia.
Qed.

Lemma steady_refl p : steady p p.
Proof. split; [reflexivity|]. lia. Qed.

Lemma consumes_steady p p' : consumes p p' -> steady p p'.
Proof. intros (Ht & Hc & Hl). split; [exact Ht|]. lia. Qed.

Lemma steady_trans p1 p2 p3 : steady p1 p2 -> steady p2 p3 -> steady p1 p3.
Proof.
  intros (Ht1 & Hc1) (Ht2 & Hc2). rewrite Ht1 in *.
  split; [congruence|]. lia.
Qed.

Lemma consumes_steady_trans p1 p2 p3 :
  consumes p1 p2 -> steady p2 p3 -> consumes p1 p3.
Proof.
  intros (Ht1 & Hc1) (Ht2 & Hc2). rewrite Ht1 in *.
  split; [congruence|]. lia.
Qed.

Lemma steady_consumes_trans p1 p2 p3 :
  steady p1 p2 -> consumes p2 p3 -> consumes p1 p3.
Proof.
  intros (Ht1 & Hc1) (Ht2 & Hc2). rewrite Ht1 in *.
  split; [congruence|]. lia.
Qed.

Lemma consumes_remaining p p' :
  consumes p p' -> (remaining p' < remaining p)%nat.
Proof. intros (Ht & Hc & Hl). unfold remaining. rewrite Ht. lia. Qed.

Lemma steady_remaining p p' :
  steady p p' -> (remaining p' <= remaining p)%nat.
Proof. intros (Ht & Hc & Hl). unfold remaining. rewrite Ht. lia. Qed.

(** *** The rules of [runs] *)

Lemma runs_ret {A} live p (a : A) (Q : A -> Parser -> Prop) :
  Q a p -> runs live p (ret a) Q.
Proof.
  intros HQ. split; [discriminate|].
  intros a' p' H. injection H as <- <-. exact HQ.
Qed.

Lemma runs_throw {A} live p msg (Q : A -> Parser -> Prop) :
  runs live p (throw msg) Q.
Proof. split; discriminate. Qed.

Lemma runs_bind {A B} live p (m : P A) (k : A -> P B) Q1 Q :
  runs live p m Q1 ->
  (forall a p1, Q1 a p1 -> runs live p1 (k a) Q) ->
  runs live p (bind m k) Q.
Proof.
  intros [Hlive Hm] Hk. unfold runs, bind.
  destruct (m p) as [a p1|msg|] eqn:Hmp.
  - exact (Hk a p1 (Hm a p1 eq_refl)).
  - split; discriminate.
  - split; [|discriminate]. intros Hl. destruct (Hlive Hl). reflexivity.
Qed.

Lemma runs_weaken {A} live p (m : P A) (Q Q' : A -> Parser -> Prop) :
  runs live p m Q -> (forall a p', Q a p' -> Q' a p') -> runs live p m Q'.
Proof. intros [Hl Hm] HQ. split; [exact Hl|]. eauto. Qed.

Lemma runs_match live t p : runs live p (match_ t) (matched p).
Proof.
  unfold match_. split; [destruct (check t p); discriminate|].
  intros b p'. destruct (check t p) eqn:Hc; intros H; injection H as <- <-.
  - apply advance_consumes. apply (check_true _ _ Hc).
  - reflexivity.
Qed.

Lemma runs_orelse live p m1 m2 :
  runs live p m1 (matched p) -> runs live p m2 (matched p) ->
  runs live p (orelse m1 m2) (matched p).
Proof.
  intros H1 H2. unfold orelse. eapply runs_bind; [exact H1|].
  intros [|] p1 Hb; simpl in Hb.
  - apply runs_ret. exact Hb.
  - subst p1. exact H2.
Qed.

Lemma runs_consume live t msg p :
  runs live p (consume t msg) (fun _ p' => consumes p p').
Proof.
  unfold consume. split; [destruct (check t p); discriminate|].
  intros a p'. destruct (check t p) eqn:Hc; [|discriminate].
  intros H. injection H as _ <-. apply advance_consumes.
  apply (check_true _ _ Hc).
Qed.

(** A step that reads the parser and leaves it alone. *)
Lemma runs_read {A} live p (f : Parser -> A) :
  runs live p (fun q => Ok (f q) q) (fun _ p' => p' = p).
Proof.
  split; [discriminate|]. intros a p' H. injection H as _ <-. reflexivity.
Qed.

(** Where the parser is: every relation between two parsers, spelled
    out. *)
Ltac cursor :=
  unfold matched in *;
  repeat match goal with
  | H : ?a = ?b :> Parser |- _ => subst a
  end;
  unfold consumes, steady, remaining in *;
  repeat match goal with
  | |- _ -> _ => intros ?
  | H : ?l = true -> _, Hl : ?l = true |- _ => specialize (H Hl)
  | H : _ /\ _ |- _ => destruct H
  end;
  repeat match goal with
  | H : tokens ?a = tokens ?b |- _ => try rewrite H in *; clear H
  end;
  repeat match goal with
  | |- _ /\ _ => split
  end;
  first [ reflexivity | lia ].

(** One step of a sequence: the specification of the step, then the
    rest. *)
Ltac step_with spec :=
  eapply runs_bind; [ eapply spec; cursor | cbv beta; intros ? ? ? ].

Ltac step :=
  first
    [ step_with runs_match
    | step_with runs_consume
    | step_with runs_read
    | eapply runs_bind;
        [ repeat apply runs_orelse; apply runs_match
        | cbv beta; intros ? ? ? ] ].

(** A last step that reads the parser and leaves it alone. *)
Ltac leaf :=
  split; [discriminate|];
  let H := fresh in
  intros ? ? H; first [ discriminate H | injection H as ? ?; subst; cursor ].

Section Levels.
Variable double : Type.
Variable stod : string -> option double.
Variable live : bool.
Variable fuel : nat.
Variable parseExpression : P (ASTNode double).

(** The calls of [parseExpression] come after a token has been consumed:
    they find less to parse, and are given less fuel. *)
Hypothesis parseExpression_runs : forall q,
  (live = true -> (remaining q + 2 <= fuel)%nat) ->
  runs live q parseExpression (fun _ q' => consumes q q').

Lemma expression_list_runs : forall n acc p,
  (live = true -> (remaining p < n)%nat /\ (remaining p + 2 <= fuel)%nat) ->
  runs live p (expression_list double n parseExpression acc)
    (fun _ p' => consumes p p').
Proof.
  induction n as [|n IH]; intros acc p Hb; simpl.
  - split; [intros Hl; destruct (Hb Hl); lia | discriminate].
  - step_with parseExpression_runs. step.
    destruct a0.
    + eapply runs_weaken; [apply IH; cursor | cbv beta; intros; cursor].
    + apply runs_ret. cursor.
Qed.

(** [if (!check(stop)) { do ... while (match(COMMA)); }] *)
Lemma optional_list_runs stop p :
  (live = true -> (remaining p + 2 <= fuel)%nat) ->
  runs live p
    (fun p => if negb (check stop p)
              then expression_list double fuel parseExpression [] p
              else Ok [] p)
    (fun _ p' => steady p p').
Proof.
  intros Hb. unfold runs. destruct (check stop p); cbn [negb].
  - split; [discriminate|]. intros a p' H. injection H as _ <-.
    apply steady_refl.
  - eapply runs_weaken; [apply expression_list_runs; cursor|].
    cbv beta. intros. apply consumes_steady. assumption.
Qed.

Lemma parsePrimary_runs p :
  (live = true -> (remaining p + 1 <= fuel)%nat) ->
  runs live p (parsePrimary double stod fuel parseExpression)
    (fun _ p' => consumes p p').
Proof.
  intros Hb. unfold parsePrimary.
  step. destruct a.
  { split; [destruct (stod _); discriminate|].
    intros e p'. destruct (stod _); [|discriminate].
    intros He. injection He as _ <-. cursor. }
  step. destruct a; [leaf|].
  step. destruct a; [leaf|].
  step. destruct a; [apply runs_ret; cursor|].
  step. destruct a; [apply runs_ret; cursor|].
  step. destruct a; [apply runs_ret; cursor|].
  step. destruct a.
  { step_with parseExpression_runs. step. apply runs_ret. cursor. }
  step. destruct a; [|leaf].
  step_with optional_list_runs. step. apply runs_ret. cursor.
Qed.

Lemma postfix_loop_runs : forall n expr p,
  (live = true -> (remaining p < n)%nat /\ (remaining p + 1 <= fuel)%nat) ->
  runs live p (postfix_loop double fuel parseExpression n expr)
    (fun _ p' => steady p p').
Proof.
  induction n as [|n IH]; intros expr p Hb; simpl.
  - split; [intros Hl; destruct (Hb Hl); lia | discriminate].
  - step. destruct a.
    { step_with optional_list_runs. step.
      eapply runs_weaken; [apply IH; cursor | cbv beta; intros; cursor]. }
    step. destruct a; [|apply runs_ret; cursor].
    step_with parseExpression_runs. step.
    eapply runs_weaken; [apply IH; cursor | cbv beta; intros; cursor].
Qed.

Lemma parsePostfix_runs p :
  (live = true -> (remaining p + 1 <= fuel)%nat) ->
  runs live p (parsePostfix double stod fuel parseExpression)
    (fun _ p' => consumes p p').
Proof.
  intros Hb. unfold parsePostfix. step_with parsePrimary_runs.
  eapply runs_weaken; [apply postfix_loop_runs; cursor|].
  cbv beta; intros; cursor.
Qed.

Lemma parseUnary__runs : forall n p,
  (live = true -> (remaining p < n)%nat /\ (remaining p + 1 <= fuel)%nat) ->
  runs live p (parseUnary_ double stod fuel parseExpression n)
    (fun _ p' => consumes p p').
Proof.
  induction n as [|n IH]; intros p Hb; simpl.
  - split; [intros Hl; destruct (Hb Hl); lia | discriminate].
  - step. destruct a.
    + step. step_with IH. apply runs_ret. cursor.
    + eapply runs_weaken; [apply parsePostfix_runs; cursor|].
      cbv beta; intros; cursor.
Qed.

Lemma parseUnary_runs p :
  (live = true -> (remaining p + 1 <= fuel)%nat) ->
  runs live p (parseUnary double stod fuel parseExpression)
    (fun _ p' => consumes p p').
Proof. intros Hb. apply parseUnary__runs. cursor. Qed.

(** The loop of a left-associative level: every turn consumes the
    operator. *)
Lemma binary_loop_runs matches operand :
  (forall q, runs live q matches (matched q)) ->
  (forall q, (live = true -> (remaining q + 1 <= fuel)%nat) ->
             runs live q operand (fun _ q' => consumes q q')) ->
  forall n expr p,
    (live = true -> (remaining p < n)%nat /\ (remaining p + 1 <= fuel)%nat) ->
    runs live p (binary_loop double n matches operand expr)
      (fun _ p' => steady p p').
Proof.
  intros Hm Ho. induction n as [|n IH]; intros expr p Hb; simpl.
  - split; [intros Hl; destruct (Hb Hl); lia | discriminate].
  - step_with Hm. destruct a; [|apply runs_ret; cursor].
    step. step_with Ho.
    eapply runs_weaken; [apply IH; cursor | cbv beta; intros; cursor].
Qed.

(** A level: its operand, then the loop. *)
Lemma level_runs matches operand p :
  (forall q, runs live q matches (matched q)) ->
  (forall q, (live = true -> (remaining q + 1 <= fuel)%nat) ->
             runs live q operand (fun _ q' => consumes q q')) ->
  (live = true -> (remaining p + 1 <= fuel)%nat) ->
  runs live p (bind operand (binary_loop double fuel matches operand))
    (fun _ p' => consumes p p').
Proof.
  intros Hm Ho Hb. step_with Ho.
  eapply runs_weaken; [apply binary_loop_runs; [exact Hm | exact Ho | cursor]|].
  cbv beta; intros; cursor.
Qed.

Ltac matches := intros; repeat apply runs_orelse; apply runs_match.

Lemma parseMultiplicative_runs p :
  (live = true -> (remaining p + 1 <= fuel)%nat) ->
  runs live p (parseMultiplicative double stod fuel parseExpression)
    (fun _ p' => consumes p p').
Proof. apply level_runs; [matches | apply parseUnary_runs]. Qed.

Lemma parseAdditive_runs p :
  (live = true -> (remaining p + 1 <= fuel)%nat) ->
  runs live p (parseAdditive double stod fuel parseExpression)
    (fun _ p' => consumes p p').
Proof. apply level_runs; [matches | apply parseMultiplicative_runs]. Qed.

Lemma parseRelational_runs p :
  (live = true -> (remaining p + 1 <= fuel)%nat) ->
  runs live p (parseRelational double stod fuel parseExpression)
    (fun _ p' => consumes p p').
Proof. apply level_runs; [matches | apply parseAdditive_runs]. Qed.

Lemma parseEquality_runs p :
  (live = true -> (remaining p + 1 <= fuel)%nat) ->
  runs live p (parseEquality double stod fuel parseExpression)
    (fun _ p' => consumes p p').
Proof. apply level_runs; [matches | apply parseRelational_runs]. Qed.

Lemma parseLogicalAnd_runs p :
  (live = true -> (remaining p + 1 <= fuel)%nat) ->
  runs live p (parseLogicalAnd double stod fuel parseExpression)
    (fun _ p' => consumes p p').
Proof. apply level_runs; [matches | apply parseEquality_runs]. Qed.

Lemma parseLogicalOr_runs p :
  (live = true -> (remaining p + 1 <= fuel)%nat) ->
  runs live p (parseLogicalOr double stod fuel parseExpression)
    (fun _ p' => consumes p p').
Proof. apply level_runs; [matches | apply parseLogicalAnd_runs]. Qed.

End Levels.

Section Recursion.
Variable double : Type.
Variable stod : string -> option double.
Variable live : bool.

Lemma out_of_fuel_runs {A} p (Q : A -> Parser -> Prop) :
  (live = true -> False) -> runs live p out_of_fuel Q.
Proof. intros H. split; [intros Hl; destruct (H Hl) | discriminate]. Qed.

Lemma parseAssignment_runs : forall fuel p,
  (live = true -> (remaining p + 2 <= fuel)%nat) ->
  runs live p (parseAssignment double stod fuel) (fun _ p' => consumes p p').
Proof.
  induction fuel as [|fuel IH]; intros p Hb; simpl.
  - apply out_of_fuel_runs. intros Hl. specialize (Hb Hl). lia.
  - step_with (parseLogicalOr_runs double stod live fuel
                 (parseAssignment double stod fuel) IH).
    step. destruct a0; [|apply runs_ret; cursor].
    step_with IH. destruct a; first [apply runs_ret; cursor | apply runs_throw].
Qed.

Lemma parseExpression_runs fuel p :
  (live = true -> (remaining p + 2 <= fuel)%nat) ->
  runs live p (parseExpression double stod fuel) (fun _ p' => consumes p p').
Proof. apply parseAssignment_runs. Qed.

Lemma skip_newlines_runs : forall n p,
  (live = true -> (remaining p < n)%nat) ->
  runs live p (skip_newlines n) (fun _ p' => steady p p').
Proof.
  induction n as [|n IH]; intros p Hb; simpl.
  - apply out_of_fuel_runs. intros Hl. specialize (Hb Hl). lia.
  - step. destruct a; [|apply runs_ret; cursor].
    eapply runs_weaken; [apply IH; cursor | cbv beta; intros; cursor].
Qed.

Lemma optional_expression_runs fuel stop p :
  (live = true -> (remaining p + 2 <= fuel)%nat) ->
  runs live p (optional_expression double stod fuel stop)
    (fun _ p' => steady p p').
Proof.
  intros Hb. unfold optional_expression, runs.
  destruct (check stop p); cbn [negb].
  - leaf.
  - step_with parseExpression_runs. apply runs_ret. cursor.
Qed.

Lemma parseExpressionStatement_runs fuel p :
  (live = true -> (remaining p + 2 <= fuel)%nat) ->
  runs live p (parseExpressionStatement double stod fuel)
    (fun _ p' => consumes p p').
Proof.
  intros Hb. unfold parseExpressionStatement.
  step_with parseExpression_runs. step. apply runs_ret.
  destruct a0; cursor.
Qed.

Lemma parseReturnStatement_runs fuel p :
  (live = true -> (remaining p + 2 <= fuel)%nat) ->
  runs live p (parseReturnStatement double stod fuel)
    (fun _ p' => consumes p p').
Proof.
  intros Hb. unfold parseReturnStatement. step.
  eapply runs_bind with (Q1 := fun _ q => steady p1 q).
  { unfold runs.
    destruct (negb (check SEMICOLON p1) && negb (check NEWLINE p1) &&
              negb (isAtEnd p1)).
    - step_with parseExpression_runs. apply runs_ret. cursor.
    - leaf. }
  cbv beta. intros v p2 H2. step. apply runs_ret. destruct a0; cursor.
Qed.

Lemma parameter_list_runs : forall n acc p,
  (live = true -> (remaining p < n)%nat) ->
  runs live p (parameter_list n acc) (fun _ p' => consumes p p').
Proof.
  induction n as [|n IH]; intros acc p Hb; simpl.
  - apply out_of_fuel_runs. intros Hl. specialize (Hb Hl). lia.
  - step. step. destruct a0; [|apply runs_ret; cursor].
    eapply runs_weaken; [apply IH; cursor | cbv beta; intros; cursor].
Qed.

Section Nested.
Variable fuel : nat.
Variable parseStatement : P (Statement double).

Hypothesis parseStatement_runs : forall q,
  (live = true -> (remaining q + 3 <= fuel)%nat) ->
  runs live q parseStatement (fun _ q' => consumes q q').

Lemma parseIfStatement_runs p :
  (live = true -> (remaining p + 2 <= fuel)%nat) ->
  runs live p (parseIfStatement double stod fuel parseStatement)
    (fun _ p' => consumes p p').
Proof.
  intros Hb. unfold parseIfStatement. step. step.
  step_with parseExpression_runs. step. step_with parseStatement_runs.
  step. destruct a4; [|apply runs_ret; cursor].
  step_with parseStatement_runs. apply runs_ret. cursor.
Qed.

Lemma parseWhileStatement_runs p :
  (live = true -> (remaining p + 2 <= fuel)%nat) ->
  runs live p (parseWhileStatement double stod fuel parseStatement)
    (fun _ p' => consumes p p').
Proof.
  intros Hb. unfold parseWhileStatement. step. step.
  step_with parseExpression_runs. step. step_with parseStatement_runs.
  apply runs_ret. cursor.
Qed.

Lemma parseForStatement_runs p :
  (live = true -> (remaining p + 2 <= fuel)%nat) ->
  runs live p (parseForStatement double stod fuel parseStatement)
    (fun _ p' => consumes p p').
Proof.
  intros Hb. unfold parseForStatement. step. step.
  step_with optional_expression_runs. step.
  step_with optional_expression_runs. step.
  step_with optional_expression_runs. step.
  step_with parseStatement_runs. apply runs_ret. cursor.
Qed.

Lemma block_loop_runs : forall n acc p,
  (live = true -> (remaining p < n)%nat /\ (remaining p + 3 <= fuel)%nat) ->
  runs live p (block_loop double parseStatement n acc)
    (fun _ p' => steady p p').
Proof.
  induction n as [|n IH]; intros acc p Hb; simpl.
  - apply out_of_fuel_runs. intros Hl. specialize (Hb Hl). lia.
  - unfold runs.
    destruct (negb (check RIGHT_BRACE p) && negb (isAtEnd p)); [|leaf].
    step_with parseStatement_runs.
    eapply runs_weaken; [apply IH; cursor | cbv beta; intros; cursor].
Qed.

Lemma parseBlock_runs p :
  (live = true -> (remaining p + 2 <= fuel)%nat) ->
  runs live p (parseBlock double fuel parseStatement)
    (fun _ p' => consumes p p').
Proof.
  intros Hb. unfold parseBlock. step. step_with block_loop_runs. step.
  apply runs_ret. cursor.
Qed.

Lemma parseFunctionDeclaration_runs p :
  (live = true -> (remaining p + 2 <= fuel)%nat) ->
  runs live p (parseFunctionDeclaration double fuel parseStatement)
    (fun _ p' => consumes p p').
Proof.
  intros Hb. unfold parseFunctionDeclaration. step. step. step.
  eapply runs_bind with (Q1 := fun _ q => steady p2 q).
  { unfold runs. destruct (check RIGHT_PAREN p2); cbn [negb]; [leaf|].
    eapply runs_weaken; [apply parameter_list_runs; cursor|].
    cbv beta; intros; cursor. }
  cbv beta. intros params p3 H3. step. step_with parseBlock_runs.
  apply runs_ret. cursor.
Qed.

Lemma parseStatement__runs p :
  (live = true -> (remaining p + 2 <= fuel)%nat) ->
  runs live p (parseStatement_ double stod fuel parseStatement)
    (fun _ p' => consumes p p').
Proof.
  intros Hb. unfold parseStatement_. step_with skip_newlines_runs.
  unfold runs. destruct (isAtEnd p1); [split; discriminate|].
  destruct (type (peek p1));
    (eapply runs_weaken;
       [ first [ apply parseIfStatement_runs
               | apply parseWhileStatement_runs
               | apply parseForStatement_runs
               | apply parseFunctionDeclaration_runs
               | apply parseReturnStatement_runs
               | apply parseBlock_runs
               | apply parseExpressionStatement_runs ]; cursor
       | cbv beta; intros; cursor ]).
Qed.

End Nested.

Lemma parseStatement_runs_fuel : forall fuel p,
  (live = true -> (remaining p + 3 <= fuel)%nat) ->
  runs live p (parseStatement double stod fuel) (fun _ p' => consumes p p').
Proof.
  induction fuel as [|fuel IH]; intros p Hb; simpl.
  - apply out_of_fuel_runs. intros Hl. specialize (Hb Hl). lia.
  - apply parseStatement__runs; [exact IH | cursor].
Qed.

Lemma program_loop_runs fuel : forall n acc p,
  (live = true -> (remaining p < n)%nat /\ (remaining p + 3 <= fuel)%nat) ->
  runs live p (program_loop double stod fuel n acc)
    (fun _ p' => steady p p' /\ isAtEnd p' = true).
Proof.
  induction n as [|n IH]; intros acc p Hb; simpl.
  - apply out_of_fuel_runs. intros Hl. specialize (Hb Hl). lia.
  - unfold runs. destruct (isAtEnd p) eqn:Hend; cbn [negb].
    + split; [discriminate|]. intros a p' H. injection H as _ <-.
      split; [apply steady_refl | exact Hend].
    + step_with parseStatement_runs_fuel.
      eapply runs_weaken; [apply IH; cursor|].
      cbv beta. intros stmts p' [Hs He]. split; [cursor | exact He].
Qed.

Lemma parseProgram_runs fuel p :
  (live = true -> (remaining p + 3 <= fuel)%nat) ->
  runs live p (parseProgram double stod fuel)
    (fun prog p' =>
       steady p p' /\ isAtEnd p' = true /\
       exists statements, prog = ProgramNode statements).
Proof.
  intros Hb. unfold parseProgram. step_with program_loop_runs.
  apply runs_ret. destruct H as [Hs He]. split; [exact Hs|].
  split; [exact He | eauto].
Qed.

End Recursion.

Section Cursor.
Variable double : Type.
Variable stod : string -> option double.

(** An expression or a statement that parses has consumed at least one
    token: the parser keeps its tokens, has moved forward, and has not
    moved past the last token. *)
Theorem parsing_consumes fuel p :
  (forall e p',
      parseExpression double stod fuel p = Ok e p' ->
      tokens p' = tokens p /\
      (current p < current p' <= length (tokens p))%nat) /\
  (forall s p',
      parseStatement double stod fuel p = Ok s p' ->
      tokens p' = tokens p /\
      (current p < current p' <= length (tokens p))%nat).
Proof.
  split; intros a p' H.
  - destruct (parseExpression_runs double stod false fuel p) as [_ Hq];
      [discriminate|].
    destruct (Hq a p' H) as (Ht & Hc). auto.
  - destruct (parseStatement_runs_fuel double stod false fuel p) as [_ Hq];
      [discriminate|].
    destruct (Hq a p' H) as (Ht & Hc). auto.
Qed.

(** [parse] returns a program only when every token has been parsed: the
    parser it leaves is at the end of the tokens (or at [END_OF_FILE]),
    with the tokens it was given. *)
Theorem parse_reaches_the_end fuel toks prog p' :
  parse double stod fuel toks = Ok prog p' ->
  tokens p' = toks /\
  isAtEnd p' = true /\
  (current p' <= length toks)%nat /\
  exists statements, prog = ProgramNode statements.
Proof.
  unfold parse. destruct toks as [|t toks]; [discriminate|].
  intros H.
  destruct (parseProgram_runs double stod false fuel
              (mkParser (t :: toks) 0)) as [_ Hq]; [discriminate|].
  destruct (Hq prog p' H) as ((Ht & Hc & Hl) & He & Hp).
  simpl in *. split; [exact Ht|]. split; [exact He|].
  split; [lia | exact Hp].
Qed.

(** The parser terminates: the depth of its recursion and the turns of its
    loops are bounded by the number of tokens that are left, so a fuel
    beyond that number is never spent. *)
Theorem parser_terminates fuel :
  (forall p, (remaining p + 2 <= fuel)%nat ->
             parseExpression double stod fuel p <> OutOfFuel) /\
  (forall p, (remaining p + 3 <= fuel)%nat ->
             parseStatement double stod fuel p <> OutOfFuel) /\
  (forall toks, (length toks + 3 <= fuel)%nat ->
                parse double stod fuel toks <> OutOfFuel).
Proof.
  split; [|split].
  - intros p Hb.
    apply (parseExpression_runs double stod true fuel p); auto.
  - intros p Hb.
    apply (parseStatement_runs_fuel double stod true fuel p); auto.
  - intros toks Hb. unfold parse. destruct toks as [|t toks]; [discriminate|].
    apply (parseProgram_runs double stod true fuel (mkParser (t :: toks) 0));
      [|reflexivity].
    intros _. unfold remaining. simpl in *. lia.
Qed.

End Cursor.

Lemma parse_reaches_the_end_witness :
  exists prog p',
    parse string Some 7
      [mkToken IDENTIFIER "a" 1; mkToken ASSIGN "=" 1; mkToken NUMBER "1" 1;
       mkToken SEMICOLON ";" 1; mkToken END_OF_FILE "" 1] = Ok prog p' /\
    isAtEnd p' = true.
Proof.
  eexists _, _. split.
  - vm_compute. reflexivity.
  - eapply (parse_reaches_the_end string Some 7
              [mkToken IDENTIFIER "a" 1; mkToken ASSIGN "=" 1;
               mkToken NUMBER "1" 1; mkToken SEMICOLON ";" 1;
               mkToken END_OF_FILE "" 1]).
    vm_compute. reflexivity.
Defined.

Lemma parser_terminates_witness :
  parse string Some 5
    [mkToken LEFT_PAREN "(" 1; mkToken END_OF_FILE "" 1] <> OutOfFuel.
Proof.
  apply (parser_terminates string Some 5). simpl. lia.
Defined.

(** ** Associativity *)

Section Associativity.
Variable double : Type.
Variable stod : string -> option double.

(** The token [match] has consumed is the one [previous()] returns. *)
Lemma match_previous t p p' :
  match_ t p = Ok true p' -> type (previous p') = t.
Proof.
  unfold match_. destruct (check t p) eqn:Hc; [|discriminate].
  intros H. injection H as <-.
  destruct (check_true _ _ Hc) as [Hend Ht].
  unfold advance, previous. rewrite Hend. simpl. rewrite Nat.sub_0_r.
  unfold peek in Ht. exact Ht.
Qed.

Lemma match_one t :
  forall p p', match_ t p = Ok true p' -> type (previous p') ∈ [t].
Proof.
  intros p p' H. rewrite (match_previous _ _ _ H). apply list_elem_of_here.
Qed.

(** [match(t) || rest]: [rest] is tried only when [match(t)] fails. *)
Lemma orelse_match t ops rest :
  (forall p p', rest p = Ok true p' -> type (previous p') ∈ ops) ->
  forall p p', orelse (match_ t) rest p = Ok true p' ->
               type (previous p') ∈ t :: ops.
Proof.
  intros Hrest p p'. unfold orelse, bind, ret.
  destruct (match_ t p) as [[|] p1|msg|] eqn:Hm; try discriminate.
  - intros H. injection H as <-. rewrite (match_previous _ _ _ Hm).
    apply list_elem_of_here.
  - intros H. apply list_elem_of_further. eauto.
Qed.

Section Level.
Variable matches : P bool.
Variable operand : P (ASTNode double).
Variable ops : list TokenType.
Hypothesis matches_ops :
  forall p p', matches p = Ok true p' -> type (previous p') ∈ ops.

(** The loop of a level wraps what it has into a [BinaryOpNode] at every
    turn: the tree leans to the left. *)
Lemma binary_loop_chain : forall n e p r p',
  binary_loop double n matches operand e p = Ok r p' ->
  exists chain,
    operand_chain double matches operand p chain p' /\
    Forall (fun step => fst step ∈ ops) chain /\
    r = left_nested double e chain.
Proof.
  induction n as [|n IH]; intros e p r p'; simpl; [discriminate|].
  unfold bind at 1. destruct (matches p) as [[|] p1|msg|] eqn:Hmp;
    try discriminate.
  - unfold bind. destruct (operand p1) as [rhs p2|msg|] eqn:Hop;
      try discriminate.
    intros H. apply IH in H as (chain & Hchain & Hops & ->).
    exists ((type (previous p1), rhs) :: chain). split; [|split].
    + exact (chain_next _ _ _ _ _ _ _ _ _ Hmp Hop Hchain).
    + constructor; [exact (matches_ops _ _ Hmp) | exact Hops].
    + reflexivity.
  - intros H. injection H as <- <-. exists []. split; [|split].
    + apply chain_end. exact Hmp.
    + constructor.
    + reflexivity.
Qed.

Lemma chain_binary_loop p chain p' :
  operand_chain double matches operand p chain p' ->
  forall n e, (length chain < n)%nat ->
    binary_loop double n matches operand e p
      = Ok (left_nested double e chain) p'.
Proof.
  induction 1 as [p p' Hm | p p1 rhs p2 rest p' Hm Hop _ IH];
    intros n e Hn; (destruct n as [|n]; [simpl in Hn; lia|]);
    cbn [binary_loop]; unfold bind at 1; rewrite Hm.
  - reflexivity.
  - unfold bind. rewrite Hop. apply IH. simpl in Hn. lia.
Qed.

Lemma level_left_associative fuel :
  left_associative double fuel ops matches operand
    (bind operand (binary_loop double fuel matches operand)).
Proof.
  split.
  - intros p r p'. unfold bind at 1.
    destruct (operand p) as [e p1|msg|]; try discriminate.
    intros H. apply binary_loop_chain in H as (chain & Hchain & Hops & ->).
    exists e, p1, chain. auto.
  - intros p e p1 chain p' Hop Hchain Hlen. unfold bind at 1. rewrite Hop.
    apply chain_binary_loop; assumption.
Qed.

End Level.

Ltac operators :=
  repeat first [ apply match_one | apply orelse_match ].

(** Binary operators associate to the left.  Each of the six levels parses
    a first operand and then, for as long as one of its own operators
    follows, that operator and the operand behind it, an expression of the
    next level; what it returns is the first operand with these operators
    applied one after the other, each to all that stands on its left:
    [a - b - c] is [(a - b) - c]. *)
Theorem binary_operators_associate_left fuel parseExpression :
  left_associative double fuel [MULTIPLY; DIVIDE; MODULO]
    (orelse (match_ MULTIPLY) (orelse (match_ DIVIDE) (match_ MODULO)))
    (parseUnary double stod fuel parseExpression)
    (parseMultiplicative double stod fuel parseExpression) /\
  left_associative double fuel [PLUS; MINUS]
    (orelse (match_ PLUS) (match_ MINUS))
    (parseMultiplicative double stod fuel parseExpression)
    (parseAdditive double stod fuel parseExpression) /\
  left_associative double fuel [LESS; LESS_EQUAL; GREATER; GREATER_EQUAL]
    (orelse (match_ LESS)
       (orelse (match_ LESS_EQUAL)
          (orelse (match_ GREATER) (match_ GREATER_EQUAL))))
    (parseAdditive double stod fuel parseExpression)
    (parseRelational double stod fuel parseExpression) /\
  left_associative double fuel [EQUAL_EQUAL; NOT_EQUAL]
    (orelse (match_ EQUAL_EQUAL) (match_ NOT_EQUAL))
    (parseRelational double stod fuel parseExpression)
    (parseEquality double stod fuel parseExpression) /\
  left_associative double fuel [AND] (match_ AND)
    (parseEquality double stod fuel parseExpression)
    (parseLogicalAnd double stod fuel parseExpression) /\
  left_associative double fuel [OR] (match_ OR)
    (parseLogicalAnd double stod fuel parseExpression)
    (parseLogicalOr double stod fuel parseExpression).
Proof.
  split; [|split; [|split; [|split; [|split]]]];
    apply level_left_associative; operators.
Qed.

End Associativity.

(** [a - b - c]: the chain behind [a] is [- b], [- c], and the tree is
    [(a - b) - c]. *)
Lemma binary_operators_associate_left_witness :
  exists p',
    parseAdditive string Some 4 (parseExpression string Some 4)
      (mkParser
         [mkToken IDENTIFIER "a" 1; mkToken MINUS "-" 1;
          mkToken IDENTIFIER "b" 1; mkToken MINUS "-" 1;
          mkToken IDENTIFIER "c" 1] 0)
    = Ok (BinaryOpNode (BinaryOpNode (VariableNode "a") MINUS
                          (VariableNode "b")) MINUS (VariableNode "c")) p' /\
    exists chain,
      BinaryOpNode (BinaryOpNode (VariableNode "a") MINUS (VariableNode "b"))
        MINUS (VariableNode "c")
      = left_nested string (VariableNode "a") chain.
Proof.
  eexists. split.
  - vm_compute. reflexivity.
  - destruct (binary_operators_associate_left string Some 4
                (parseExpression string Some 4)) as (_ & [Hadd _] & _).
    destruct (Hadd (mkParser
                      [mkToken IDENTIFIER "a" 1; mkToken MINUS "-" 1;
                       mkToken IDENTIFIER "b" 1; mkToken MINUS "-" 1;
                       mkToken IDENTIFIER "c" 1] 0)
                (BinaryOpNode (BinaryOpNode (VariableNode "a") MINUS
                                 (VariableNode "b")) MINUS (VariableNode "c"))
                (mkParser
                   [mkToken IDENTIFIER "a" 1; mkToken MINUS "-" 1;
                    mkToken IDENTIFIER "b" 1; mkToken MINUS "-" 1;
                    mkToken IDENTIFIER "c" 1] 5))
      as (e & p1 & chain & He & _ & _ & Hr); [vm_compute; reflexivity|].
    vm_compute in He. injection He as <- _. exists chain. exact Hr.
Defined.

End ParserFacts.
